(** * SmartReader / LiveService: a shallow embedding and its properties

    The development follows [src/components/SmartReader.tsx] (the PDF page
    surface [PDFPage] and the reader controller [SmartReader]) and the
    [LiveService] class (microphone noise gate).

    Conventions of the embedding.
    - A JavaScript [number] is an exact rational ([Q]).  Comparisons,
      [Math.abs], [Math.min], [Math.max], sums and products are those of
      [Q]; the rounding of IEEE doubles, [NaN] and the infinities are not
      represented, so every statement that divides carries the hypothesis
      that the divisor is positive.
    - React state is explicit: a handler is a function from the state a
      render closed over to the next state.
    - A canvas 2D context is the list of drawing commands issued on it.
    - Asynchronous code is a transition system whose steps are the
      synchronous segments between two [await]s. *)

From Stdlib Require Import ZArith QArith Qabs Qminmax Qround.
From Stdlib Require Import List String Ascii Bool Lia.
From Stdlib Require Import Sorting.Sorted Sorting.Permutation.
From Stdlib Require Import DecimalString.
Import ListNotations.

Local Open Scope Z_scope.
Local Open Scope Q_scope.

(** ** Data model ([src/types.ts]) *)

(** [DrawingPoint { x: number; y: number }] *)
Record DrawingPoint : Type := mkPoint { px : Q; py : Q }.

(** [DrawingPath { points; color; width }] *)
Record DrawingPath : Type := mkPath {
  points : list DrawingPoint;
  color : string;
  width : Q
}.

(** [PageAnnotation { pageIndex; path }] *)
Record PageAnnotation : Type := mkAnnotation {
  pageIndex : Z;
  path : DrawingPath
}.

(** [PDFPageViewport { width; height }] *)
Record PDFPageViewport : Type := mkViewport { vp_width : Q; vp_height : Q }.

(** The tool mode, ['pen' | 'move' | 'highlighter']. *)
Inductive Mode : Type := pen | move | highlighter.

Definition Mode_eqb (a b : Mode) : bool :=
  match a, b with
  | pen, pen | move, move | highlighter, highlighter => true
  | _, _ => false
  end.

(** ** The reader controller: state of [SmartReader] *)

(** The [useState] and [useRef] cells of [SmartReader] that the handlers
    below read or write.  [canvasRefs] lists the page indices that have a
    registered canvas; [captureTimeout] is the page whose raster the pending
    500 ms capture timer will encode, if a timer is pending. *)
Record ReaderState : Type := mkReader {
  scale : Q;
  visiblePageIndex : Z;
  mode : Mode;
  activeAnnotation : option PageAnnotation;
  penColor : string;
  penWidth : Q;
  highlighterColor : string;
  highlighterWidth : Q;
  isLive : bool;
  canvasRefs : list Z;
  captureTimeout : option Z
}.

Definition setActiveAnnotation (a : option PageAnnotation) (st : ReaderState)
  : ReaderState :=
  mkReader (scale st) (visiblePageIndex st) (mode st) a
           (penColor st) (penWidth st) (highlighterColor st)
           (highlighterWidth st) (isLive st) (canvasRefs st)
           (captureTimeout st).

Definition setCaptureTimeout (t : option Z) (st : ReaderState) : ReaderState :=
  mkReader (scale st) (visiblePageIndex st) (mode st) (activeAnnotation st)
           (penColor st) (penWidth st) (highlighterColor st)
           (highlighterWidth st) (isLive st) (canvasRefs st) t.

Definition setMode (m : Mode) (st : ReaderState) : ReaderState :=
  mkReader (scale st) (visiblePageIndex st) m (activeAnnotation st)
           (penColor st) (penWidth st) (highlighterColor st)
           (highlighterWidth st) (isLive st) (canvasRefs st)
           (captureTimeout st).

Definition setScale (s : Q) (st : ReaderState) : ReaderState :=
  mkReader s (visiblePageIndex st) (mode st) (activeAnnotation st)
           (penColor st) (penWidth st) (highlighterColor st)
           (highlighterWidth st) (isLive st) (canvasRefs st)
           (captureTimeout st).

Definition hasCanvas (i : Z) (st : ReaderState) : bool :=
  existsb (Z.eqb i) (canvasRefs st).

(** [captureFrame]: nothing unless live and the current page has a canvas;
    otherwise the pending timer is replaced by one for the current page. *)
Definition captureFrame (st : ReaderState) : ReaderState :=
  if negb (isLive st) then st
  else if negb (hasCanvas (visiblePageIndex st) st) then st
  else setCaptureTimeout (Some (visiblePageIndex st)) st.

(** [handleStartDraw = () => { setActiveAnnotation(null); }] *)
Definition handleStartDraw (st : ReaderState) : ReaderState :=
  setActiveAnnotation None st.

(** [handleFinishDraw(pageIndex, path)] *)
Definition handleFinishDraw (i : Z) (p : DrawingPath) (st : ReaderState)
  : ReaderState :=
  captureFrame (setActiveAnnotation (Some (mkAnnotation i p)) st).

(** [clearDrawings] *)
Definition clearDrawings (st : ReaderState) : ReaderState :=
  captureFrame (setActiveAnnotation None st).

(** The [annotation] prop handed to page [i]:
    [activeAnnotation?.pageIndex === i ? activeAnnotation.path : null]. *)
Definition annotationProp (st : ReaderState) (i : Z) : option DrawingPath :=
  match activeAnnotation st with
  | Some a => if Z.eqb (pageIndex a) i then Some (path a) else None
  | None => None
  end.

(** ** The page surface: state and handlers of [PDFPage] *)

(** The backing raster.  [width] and [height] of an [HTMLCanvasElement] are
    integer attributes. *)
Record Canvas : Type := mkCanvas { canvas_width : Z; canvas_height : Z }.

(** A mouse or touch event as [getPoint] reads it: the client coordinates of
    the pointer (of [touches[0]] for a touch event). *)
Record PointerEvt : Type := mkEvt { clientX : Q; clientY : Q }.

(** The part of [getBoundingClientRect()] that [getPoint] reads. *)
Record DOMRect : Type := mkRect { rect_left : Q; rect_top : Q }.

Record PageState : Type := mkPage {
  canvasRef : option Canvas;
  isDrawing : bool;
  currentPath : list DrawingPoint
}.

(** [getPoint]: the pointer position relative to the canvas's bounding
    rectangle; the origin when there is no canvas. *)
Definition getPoint (pg : PageState) (rect : DOMRect) (e : PointerEvt)
  : DrawingPoint :=
  match canvasRef pg with
  | None => mkPoint 0 0
  | Some _ => mkPoint (clientX e - rect_left rect) (clientY e - rect_top rect)
  end.

(** [startDrawing]: in move mode nothing happens; otherwise the controller
    is told first ([onStartDraw]), then the stroke starts with one point. *)
Definition startDrawing (rect : DOMRect) (e : PointerEvt)
  (st : ReaderState) (pg : PageState) : ReaderState * PageState :=
  if Mode_eqb (mode st) move then (st, pg)
  else (handleStartDraw st,
        mkPage (canvasRef pg) true [getPoint pg rect e]).

(** [draw]: appends the pointer position while a stroke is in progress. *)
Definition draw (rect : DOMRect) (e : PointerEvt)
  (st : ReaderState) (pg : PageState) : PageState :=
  if negb (isDrawing pg) || Mode_eqb (mode st) move then pg
  else mkPage (canvasRef pg) (isDrawing pg)
              (currentPath pg ++ [getPoint pg rect e]).

(** [currentPath.map(p => ({ x: p.x / w, y: p.y / h }))] *)
Definition normalize (w h : Z) (p : DrawingPoint) : DrawingPoint :=
  mkPoint (px p / inject_Z w) (py p / inject_Z h).

(** The stroke [stopDrawing] builds from the accumulated points. *)
Definition newPath (st : ReaderState) (c : Canvas) (pts : list DrawingPoint)
  : DrawingPath :=
  mkPath (map (normalize (canvas_width c) (canvas_height c)) pts)
         (if Mode_eqb (mode st) pen then penColor st else highlighterColor st)
         (if Mode_eqb (mode st) pen then penWidth st else highlighterWidth st).

(** [stopDrawing] on page [i]: nothing unless a stroke is in progress;
    a non-empty stroke on a page with a canvas is normalised and handed to
    the controller ([onFinishDraw]); the accumulated points are dropped. *)
Definition stopDrawing (i : Z) (st : ReaderState) (pg : PageState)
  : ReaderState * PageState :=
  if negb (isDrawing pg) then (st, pg)
  else
    let st' :=
      match currentPath pg, canvasRef pg with
      | _ :: _, Some c => handleFinishDraw i (newPath st c (currentPath pg)) st
      | _, _ => st
      end in
    (st', mkPage (canvasRef pg) false []).

(** The whole reader: the controller and one [PDFPage] per page index. *)
Record App : Type := mkApp {
  reader : ReaderState;
  pages : Z -> PageState
}.

Definition setPage (i : Z) (pg : PageState) (f : Z -> PageState)
  : Z -> PageState :=
  fun j => if Z.eqb j i then pg else f j.

(** The user's actions on the reader.  [PointerDown] stands for
    [onMouseDown] and [onTouchStart], [PointerMove] for [onMouseMove] and
    [onTouchMove], [PointerUp] for [onMouseUp], [onMouseLeave] and
    [onTouchEnd]; [ClickClear] is the eraser button, [ClickMode] a tool
    button. *)
Inductive Action : Type :=
| PointerDown (i : Z) (rect : DOMRect) (e : PointerEvt)
| PointerMove (i : Z) (rect : DOMRect) (e : PointerEvt)
| PointerUp (i : Z)
| ClickClear
| ClickMode (m : Mode).

Definition act (a : App) (ev : Action) : App :=
  match ev with
  | PointerDown i rect e =>
      let '(st, pg) := startDrawing rect e (reader a) (pages a i) in
      mkApp st (setPage i pg (pages a))
  | PointerMove i rect e =>
      mkApp (reader a)
            (setPage i (draw rect e (reader a) (pages a i)) (pages a))
  | PointerUp i =>
      let '(st, pg) := stopDrawing i (reader a) (pages a i) in
      mkApp st (setPage i pg (pages a))
  | ClickClear => mkApp (clearDrawings (reader a)) (pages a)
  | ClickMode m => mkApp (setMode m (reader a)) (pages a)
  end.

Definition acts (a : App) (evs : list Action) : App := fold_left act evs a.

(** ** Numbers: helpers for the comparisons the code makes *)

(** [a < b] on numbers. *)
Definition Qltb (a b : Q) : bool :=
  match a ?= b with Lt => true | _ => false end.

(** The integer part of a number (truncation toward zero). *)
Definition Qtrunc (q : Q) : Z := Z.quot (Qnum q) (Zpos (Qden q)).

(** Storing a number in an [unsigned long] attribute such as
    [canvas.width]: the integer part, modulo 2^32. *)
Definition to_unsigned_long (q : Q) : Z := Z.modulo (Qtrunc q) (2 ^ 32).

(** [Math.round]: the nearest integer, halves upward. *)
Definition Math_round (q : Q) : Z := Qfloor (q + (1 # 2)).

(** ** The 2D context: drawing commands *)

Inductive LineStyle : Type := round_style.

Inductive Cmd : Type :=
| SetLineCap (s : LineStyle)
| SetLineJoin (s : LineStyle)
| SetStrokeStyle (c : string)
| SetLineWidth (w : Q)
| BeginPath
| MoveTo (x y : Q)
| LineTo (x y : Q)
| QuadraticCurveTo (cpx cpy x y : Q)
| Stroke.

Definition origin : DrawingPoint := mkPoint 0 0.

(** One iteration of the smoothing loop, at index [i]. *)
Definition smoothStep (pts : list DrawingPoint) (scaleX scaleY : Q) (i : nat)
  : Cmd :=
  let p := nth i pts origin in
  let q := nth (i + 1) pts origin in
  let mid := mkPoint ((px p + px q) / 2) ((py p + py q) / 2) in
  QuadraticCurveTo (px p * scaleX) (py p * scaleY)
                   (px mid * scaleX) (py mid * scaleY).

(** [drawSmoothPath(context, points, scaleX, scaleY)]: the commands it
    issues.  The loop [for (i = 1; i < points.length - 1; i++)] runs over
    the indices [1 .. length - 2]. *)
Definition drawSmoothPath (pts : list DrawingPoint) (scaleX scaleY : Q)
  : list Cmd :=
  match pts with
  | [] => []
  | p0 :: _ =>
      if (List.length pts <? 2)%nat then
        [BeginPath; MoveTo (px p0 * scaleX) (py p0 * scaleY);
         LineTo (px p0 * scaleX) (py p0 * scaleY); Stroke]
      else
        let last := nth (List.length pts - 1) pts origin in
        [BeginPath; MoveTo (px p0 * scaleX) (py p0 * scaleY)]
        ++ map (smoothStep pts scaleX scaleY) (seq 1 (List.length pts - 2))
        ++ [LineTo (px last * scaleX) (py last * scaleY); Stroke]
  end.

(** ** The document ([PDFDocumentProxy], [PDFPageProxy], [PDFTextItem]) *)

(** A text item.  [transform], when present, is the six-element matrix
    [[a, b, c, d, e, f]] of pdf.js; an absent [width] is [0]. *)
Record PDFTextItem : Type := mkItem {
  str : string;
  transform : option (Q * Q * Q * Q * Q * Q);
  item_width : Q
}.

(** [transform[4]] and [transform[5]]. *)
Definition tx4 (t : Q * Q * Q * Q * Q * Q) : Q :=
  let '(_, _, _, _, e, _) := t in e.
Definition tx5 (t : Q * Q * Q * Q * Q * Q) : Q :=
  let '(_, _, _, _, _, f) := t in f.

(** [a.transform ? a.transform[4] : 0], also
    [(item.transform || [0,0,0,0,0,0])[4]]. *)
Definition item_x (it : PDFTextItem) : Q :=
  match transform it with Some t => tx4 t | None => 0 end.

(** A page handle: its viewport at a scale and its text content; [None] is
    a rejected promise. *)
Record PDFPageProxy : Type := mkPageProxy {
  getViewport : Q -> PDFPageViewport;
  getTextContent : option (list PDFTextItem)
}.

(** The document: [getPage(n)] takes the 1-based page number. *)
Record PDFDocumentProxy : Type := mkDoc {
  doc_numPages : Z;
  getPage : Z -> option PDFPageProxy
}.

(** ** Text extraction ([getPageText] and the extraction effect) *)

(** [Array.prototype.sort(cmp)] is a stable sort: [a] comes before [b] when
    [cmp a b < 0], after it when [cmp a b > 0], and elements that compare
    equal keep their order.  Inserting from the right, each element before
    the first one it does not exceed, computes that order. *)
Fixpoint insertBy {A : Type} (cmp : A -> A -> Q) (x : A) (l : list A)
  : list A :=
  match l with
  | [] => [x]
  | y :: l' => if Qle_bool (cmp x y) 0 then x :: l
               else y :: insertBy cmp x l'
  end.

Definition sortBy {A : Type} (cmp : A -> A -> Q) (l : list A) : list A :=
  fold_right (insertBy cmp) [] l.

(** The order a comparator induces: [x] may come before [y]. *)
Definition before {A : Type} (cmp : A -> A -> Q) (x y : A) : Prop :=
  cmp x y <= 0.

(** A line under construction: [{ y: number; items: PDFTextItem[] }]. *)
Record Line : Type := mkLine { line_y : Q; line_items : list PDFTextItem }.

Definition yTolerance : Q := 6.

(** [lines.find(l => Math.abs(l.y - y) < yTolerance)] followed by
    [line.items.push(item)]: the first line within the tolerance receives
    the item, in place; [None] when [find] returns [undefined]. *)
Fixpoint pushToLine (y : Q) (item : PDFTextItem) (lines : list Line)
  : option (list Line) :=
  match lines with
  | [] => None
  | l :: rest =>
      if Qltb (Qabs (line_y l - y)) yTolerance
      then Some (mkLine (line_y l) (line_items l ++ [item]) :: rest)
      else option_map (cons l) (pushToLine y item rest)
  end.

(** The body of [for (const item of items)]. *)
Definition groupStep (lines : list Line) (item : PDFTextItem) : list Line :=
  match transform item with
  | None => lines ++ [mkLine 0 [item]]
  | Some t =>
      let y := tx5 t in
      match pushToLine y item lines with
      | Some lines' => lines'
      | None => lines ++ [mkLine y [item]]
      end
  end.

Definition groupLines (items : list PDFTextItem) : list Line :=
  fold_left groupStep items [].

(** [lines.sort((a, b) => b.y - a.y)] *)
Definition sortLines (lines : list Line) : list Line :=
  sortBy (fun a b => line_y b - line_y a) lines.

(** [line.items.sort((a, b) => xa - xb)] *)
Definition sortItems (items : list PDFTextItem) : list PDFTextItem :=
  sortBy (fun a b => item_x a - item_x b) items.

(** The body of the word-spacing loop; the accumulator is
    [(lineText, lastEnd)]. *)
Definition spacingStep (acc : string * Q) (item : PDFTextItem) : string * Q :=
  let '(lineText, lastEnd) := acc in
  let x := item_x item in
  let lineText' :=
    if negb (Qeq_bool lastEnd (-1)) then
      if Qltb (lastEnd + 3) x then (lineText ++ " ")%string else lineText
    else lineText in
  ((lineText' ++ str item)%string, x + item_width item).

(** The text of a line whose items are already sorted:
    [lineText = ''; lastEnd = -1; for (const item of line.items) ...]. *)
Definition lineText (items : list PDFTextItem) : string :=
  fst (fold_left spacingStep items (EmptyString, -1)).

(** The callback of [lines.map]: sort the line's items, then join them. *)
Definition textOfLine (l : Line) : string :=
  lineText (sortItems (line_items l)).

Definition newline : string := String "010"%char EmptyString.

(** Decimal rendering of an integer inside a template literal. *)
Definition Z_to_string (z : Z) : string := NilZero.string_of_int (Z.to_int z).

(** [`--- [Page ${idx + 1}] ---\n`] *)
Definition pageMarker (idx : Z) : string :=
  ("--- [Page " ++ Z_to_string (idx + 1) ++ "] ---" ++ newline)%string.

(** The reconstructed text of a page with at least one item. *)
Definition pageBody (items : list PDFTextItem) : string :=
  String.concat newline (map textOfLine (sortLines (groupLines items))).

(** The three results of [getPageText]: [null], a string, or a rejected
    promise. *)
Inductive PageText : Type :=
| Null
| Text (s : string)
| Rejected.

(** [getPageText(idx)] *)
Definition getPageText (pdfDoc : PDFDocumentProxy) (numPages : Z) (idx : Z)
  : PageText :=
  if (idx <? 0)%Z || (numPages <=? idx)%Z then Null
  else
    match getPage pdfDoc (idx + 1) with
    | None => Rejected
    | Some page =>
        match getTextContent page with
        | None => Rejected
        | Some [] => Text EmptyString
        | Some items =>
            Text (pageMarker idx ++ pageBody items ++ newline)%string
        end
    end.

(** [Boolean(r)] for a result: [null] and the empty string are falsy. *)
Definition truthy (r : PageText) : bool :=
  match r with
  | Text EmptyString => false
  | Text _ => true
  | _ => false
  end.

Definition isRejected (r : PageText) : bool :=
  match r with Rejected => true | _ => false end.

Definition textOf (r : PageText) : string :=
  match r with Text s => s | _ => EmptyString end.

(** The timer callback of the extraction effect: the text handed to
    [onPageText], or [None] when a promise rejects and the [catch] logs. *)
Definition extractText (pdfDoc : PDFDocumentProxy) (numPages : Z)
  (visible : Z) : option string :=
  let pagesToFetch := [visible - 1; visible; visible + 1]%Z in
  let results := map (getPageText pdfDoc numPages) pagesToFetch in
  if existsb isRejected results then None
  else Some (String.concat newline (map textOf (filter truthy results))).

(** ** Fit to width / fit to page ([handleFit]) *)

Inductive FitType : Type := fit_width | fit_page.

(** The scroll container: [clientWidth] and [clientHeight]. *)
Record Container : Type := mkContainer { clientWidth : Z; clientHeight : Z }.

Definition padding : Q := 32.

(** [handleFit(type)]: the state is unchanged when there is no document or
    no container, and when [getPage] rejects. *)
Definition handleFit (type : FitType) (pdfDoc : option PDFDocumentProxy)
  (scrollContainer : option Container) (st : ReaderState) : ReaderState :=
  match pdfDoc, scrollContainer with
  | Some doc, Some container =>
      let pageIndexToUse :=
        if (0 <=? visiblePageIndex st)%Z then visiblePageIndex st else 0%Z in
      match getPage doc (pageIndexToUse + 1) with
      | None => st
      | Some page =>
          let viewport := getViewport page 1 in
          let availableWidth := inject_Z (clientWidth container) - padding in
          let availableHeight := inject_Z (clientHeight container) - padding in
          let newScale :=
            match type with
            | fit_width => availableWidth / vp_width viewport
            | fit_page => availableHeight / vp_height viewport
            end in
          setScale (Qmin (Qmax newScale 0.4) 4.0) st
      end
  | _, _ => st
  end.

(** ** The microphone noise gate ([LiveService.startAudioStreaming]) *)

Definition noiseThreshold : Q := 0.0025.

(** The amplitude scan of [onaudioprocess]. *)
Definition maxAmplitude (inputData : list Q) : Q :=
  fold_left (fun m s => if Qltb m (Qabs s) then Qabs s else m) inputData 0.

(** A message handed to the session.  The audio payload is
    [pcmFloat32ToBase64(inputData)]; the message records the buffer that is
    encoded, not the base64 text. *)
Inductive Message : Type :=
| RealtimeAudio (mimeType : string) (inputData : list Q).

(** The service, as far as the audio callback is concerned: whether
    [sessionPromise] is set, and the messages sent so far. *)
Record LiveService : Type := mkLive {
  sessionPromise : bool;
  sent : list Message
}.

(** [processor.onaudioprocess]: one captured buffer. *)
Definition onaudioprocess (inputData : list Q) (svc : LiveService)
  : LiveService :=
  if Qltb noiseThreshold (maxAmplitude inputData) then
    if sessionPromise svc
    then mkLive true
           (sent svc ++ [RealtimeAudio "audio/pcm;rate=16000" inputData])
    else svc
  else svc.

(** ** The render effect of [PDFPage] *)

(** The values the effect closes over (its dependency list, the document
    and page index apart). *)
Record RenderProps : Type := mkProps {
  r_scale : Q;
  r_isVisible : bool;
  r_annotation : option DrawingPath;
  r_currentPath : list DrawingPoint;
  r_mode : Mode;
  r_penColor : string;
  r_penWidth : Q;
  r_highlighterColor : string;
  r_highlighterWidth : Q
}.

(** [if (canvas.width !== viewport.width || canvas.height !== viewport.height)
    { canvas.width = viewport.width; canvas.height = viewport.height; }] *)
Definition needsResize (c : Canvas) (viewport : PDFPageViewport) : bool :=
  negb (Qeq_bool (inject_Z (canvas_width c)) (vp_width viewport))
  || negb (Qeq_bool (inject_Z (canvas_height c)) (vp_height viewport)).

Definition resizeCanvas (c : Canvas) (viewport : PDFPageViewport) : Canvas :=
  if needsResize c viewport
  then mkCanvas (to_unsigned_long (vp_width viewport))
                (to_unsigned_long (vp_height viewport))
  else c.

(** The commands issued after [await renderTask.promise]: line caps and
    joins, the stored annotation scaled to the viewport, then the stroke in
    progress at raw coordinates. *)
Definition overlay (p : RenderProps) (viewport : PDFPageViewport)
  : list Cmd :=
  [SetLineCap round_style; SetLineJoin round_style]
  ++ match r_annotation p with
     | Some annotation =>
         [SetStrokeStyle (color annotation);
          SetLineWidth (width annotation * r_scale p)]
         ++ drawSmoothPath (points annotation)
                           (vp_width viewport) (vp_height viewport)
     | None => []
     end
  ++ match r_currentPath p with
     | [] => []
     | _ :: _ =>
         [SetStrokeStyle (if Mode_eqb (r_mode p) pen then r_penColor p
                          else r_highlighterColor p);
          SetLineWidth ((if Mode_eqb (r_mode p) pen then r_penWidth p
                         else r_highlighterWidth p) * r_scale p)]
         ++ drawSmoothPath (r_currentPath p) 1 1
     end.



(** What a render puts on the raster. *)
Inductive Write : Type :=
| Resize (c : Canvas)
| Pixels
| Overlay (cmds : list Cmd).

(** Where one run of [render()] stands: before [getPage] resolves, before
    [renderTask.promise] settles (with the viewport it computed and whether
    the task was cancelled), or returned. *)
Inductive Phase : Type :=
| AwaitGetPage
| AwaitRender (viewport : PDFPageViewport) (taskCancelled : bool)
| Finished.

(** One run of the effect: its closure. *)
Record Instance : Type := mkInstance {
  props : RenderProps;
  isCancelled : bool;
  phase : Phase
}.

(** The raster's history, newest entry first: a render began (the effect
    body called [render()]), or a render wrote. *)
Inductive Entry : Type :=
| Began (g : nat)
| Wrote (g : nat) (w : Write).

(** A mounted page: its canvas, every run of the effect so far (numbered
    from 0 in the order they began), the run whose cleanup React holds, and
    the raster's history. *)
Record Surface : Type := mkSurface {
  canvas : option Canvas;
  instances : nat -> Instance;
  next : nat;
  cleanup : option nat;
  history : list Entry
}.

Definition setInstance (g : nat) (i : Instance) (f : nat -> Instance)
  : nat -> Instance :=
  fun h => if Nat.eqb h g then i else f h.

(** The cleanup function: [isCancelled = true; if (renderTask)
    renderTask.cancel()]. *)
Definition cancelInstance (i : Instance) : Instance :=
  mkInstance (props i) true
    match phase i with
    | AwaitRender viewport _ => AwaitRender viewport true
    | ph => ph
    end.

Definition runCleanup (s : Surface) : Surface :=
  match cleanup s with
  | None => s
  | Some g =>
      mkSurface (canvas s)
                (setInstance g (cancelInstance (instances s g)) (instances s))
                (next s) None (history s)
  end.

(** The effect body: nothing when the page is not visible or has no
    canvas; otherwise [render()] starts and a cleanup is registered. *)
Definition runEffect (p : RenderProps) (s : Surface) : Surface :=
  match canvas s with
  | Some _ =>
      if r_isVisible p then
        mkSurface (canvas s)
                  (setInstance (next s) (mkInstance p false AwaitGetPage)
                               (instances s))
                  (S (next s)) (Some (next s))
                  (Began (next s) :: history s)
      else s
  | None => s
  end.

Definition finish (g : nat) (s : Surface) : Surface :=
  let i := instances s g in
  mkSurface (canvas s)
            (setInstance g (mkInstance (props i) (isCancelled i) Finished)
                         (instances s))
            (next s) (cleanup s) (history s).

(** From [await pdfDoc.getPage] to [await renderTask.promise]. *)
Definition afterGetPage (g : nat) (page : PDFPageProxy) (context : bool)
  (s : Surface) : Surface :=
  let i := instances s g in
  if isCancelled i then finish g s
  else
    let viewport := getViewport page (r_scale (props i)) in
    match canvas s with
    | None => finish g s
    | Some c =>
        if negb context then finish g s
        else
          mkSurface (Some (resizeCanvas c viewport))
            (setInstance g
               (mkInstance (props i) false (AwaitRender viewport false))
               (instances s))
            (next s) (cleanup s)
            (if needsResize c viewport
             then Wrote g (Resize (resizeCanvas c viewport)) :: history s
             else history s)
    end.

(** From [await renderTask.promise] to the end of [render()]. *)
Definition afterRender (g : nat) (viewport : PDFPageViewport) (s : Surface)
  : Surface :=
  let i := instances s g in
  if isCancelled i then finish g s
  else
    let s' := finish g s in
    mkSurface (canvas s') (instances s') (next s') (cleanup s')
              (Wrote g (Overlay (overlay (props i) viewport)) :: history s').

(** What can happen to a mounted page.  [RunEffect p]: React re-runs the
    effect with new dependencies (the previous cleanup first).  [Unmount]:
    the cleanup runs and the canvas is detached.  The other labels are the
    settlements of the promises of run [g] and the rendering library
    painting for the task of run [g]. *)
Inductive Label : Type :=
| RunEffect (p : RenderProps)
| Unmount
| GetPageResolves (g : nat) (page : PDFPageProxy) (context : bool)
| GetPageRejects (g : nat)
| LibraryPaints (g : nat)
| RenderResolves (g : nat)
| RenderRejects (g : nat).

(** One step; a label that is not enabled leaves the page as it is.  The
    rendering library paints only for a task that was not cancelled. *)
Definition step (s : Surface) (l : Label) : Surface :=
  match l with
  | RunEffect p => runEffect p (runCleanup s)
  | Unmount =>
      let s' := runCleanup s in
      mkSurface None (instances s') (next s') (cleanup s') (history s')
  | GetPageResolves g page context =>
      if (g <? next s)%nat then
        match phase (instances s g) with
        | AwaitGetPage => afterGetPage g page context s
        | _ => s
        end
      else s
  | GetPageRejects g =>
      if (g <? next s)%nat then
        match phase (instances s g) with
        | AwaitGetPage => finish g s
        | _ => s
        end
      else s
  | LibraryPaints g =>
      if (g <? next s)%nat then
        match phase (instances s g) with
        | AwaitRender _ false =>
            mkSurface (canvas s) (instances s) (next s) (cleanup s)
                      (Wrote g Pixels :: history s)
        | _ => s
        end
      else s
  | RenderResolves g =>
      if (g <? next s)%nat then
        match phase (instances s g) with
        | AwaitRender viewport _ => afterRender g viewport s
        | _ => s
        end
      else s
  | RenderRejects g =>
      if (g <? next s)%nat then
        match phase (instances s g) with
        | AwaitRender _ _ => finish g s
        | _ => s
        end
      else s
  end.

Definition steps (s : Surface) (ls : list Label) : Surface :=
  fold_left step ls s.

Definition idleProps : RenderProps :=
  mkProps 1 false None [] pen EmptyString 0 EmptyString 0.

(** A freshly mounted page: a canvas of the default size, no run yet. *)
Definition mounted : Surface :=
  mkSurface (Some (mkCanvas 300 150))
            (fun _ => mkInstance idleProps true Finished) 0 None [].

(** The raster's history in the order things happened. *)
Definition chronicle (s : Surface) : list Entry := rev (history s).

(** No render writes after a newer one began: whenever [Began g'] is
    followed, later, by a write of run [g], run [g] is not older than
    [g']. *)
Definition NoStaleWrite (h : list Entry) : Prop :=
  forall before after g' g w,
    h = before ++ Began g' :: after ->
    In (Wrote g w) after -> (g' <= g)%nat.


(** ** Gestures and natural dimensions *)

(** A pointer gesture on page [i]: down at the first position, one move per
    further position, then up. *)
Definition gesture (i : Z) (first : DOMRect * PointerEvt)
  (moves : list (DOMRect * PointerEvt)) : list Action :=
  PointerDown i (fst first) (snd first)
  :: map (fun m => PointerMove i (fst m) (snd m)) moves
  ++ [PointerUp i].

(** The page's natural dimensions: its viewport at scale 1. *)
Definition naturalWidth (page : PDFPageProxy) : Q :=
  vp_width (getViewport page 1).
Definition naturalHeight (page : PDFPageProxy) : Q :=
  vp_height (getViewport page 1).

(** ** The word-spacing rule, following the spec's words *)

(** The right edge of an item, [x + width]. *)
Definition rightEdge (it : PDFTextItem) : Q := item_x it + item_width it.

(** The gap between the previous item's right edge and the next item's
    left edge. *)
Definition gapBetween (prev next : PDFTextItem) : Q :=
  item_x next - rightEdge prev.

(** Consecutive items are joined by one space when the gap exceeds 3 and by
    nothing otherwise. *)
Fixpoint joinByGap (prev : PDFTextItem) (rest : list PDFTextItem) : string :=
  match rest with
  | [] => EmptyString
  | it :: rest' =>
      ((if Qltb 3 (gapBetween prev it) then " " else EmptyString)
       ++ str it ++ joinByGap it rest')%string
  end.

Definition lineTextByGap (items : list PDFTextItem) : string :=
  match items with
  | [] => EmptyString
  | it :: rest => (str it ++ joinByGap it rest)%string
  end.

(** ** Line grouping: what a line holds *)

(** The [y] of the line an item opens: [transform[5]], or [0] for an item
    without a transform. *)
Definition item_y (it : PDFTextItem) : Q :=
  match transform it with Some t => tx5 t | None => 0 end.

(** A line is anchored at its first item: the line's [y] is the [y] that
    item opened it with, and every later item has a transform whose [y] is
    less than the tolerance away from the line's [y]. *)
Definition anchored (l : Line) : Prop :=
  match line_items l with
  | [] => False
  | first :: rest =>
      line_y l = item_y first
      /\ Forall (fun it => transform it <> None
                           /\ Qabs (line_y l - item_y it) < yTolerance) rest
  end.

(** ** The text context, following the spec's words *)

(** The index is a page of the document. *)
Definition inRange (numPages idx : Z) : bool :=
  (0 <=? idx)%Z && (idx <? numPages)%Z.

(** The text items fetched for a page index; [None] when a promise
    rejects. *)
Definition fetched (pdfDoc : PDFDocumentProxy) (idx : Z)
  : option (list PDFTextItem) :=
  match getPage pdfDoc (idx + 1) with
  | Some page => getTextContent page
  | None => None
  end.

Definition hasItems (pdfDoc : PDFDocumentProxy) (idx : Z) : bool :=
  match fetched pdfDoc idx with
  | Some (_ :: _) => true
  | _ => false
  end.

(** The text of a page that has items: the marker with the page's 1-based
    number, then the reconstructed lines. *)
Definition markedText (pdfDoc : PDFDocumentProxy) (idx : Z) : string :=
  match fetched pdfDoc idx with
  | Some items => (pageMarker idx ++ pageBody items ++ newline)%string
  | None => EmptyString
  end.

(** The context: the marked texts of the pages current-1, current and
    current+1 that are in range and have items, one after the other. *)
Definition contextOf (pdfDoc : PDFDocumentProxy) (numPages : Z)
  (visible : Z) : string :=
  String.concat newline
    (map (markedText pdfDoc)
       (filter (fun idx => inRange numPages idx && hasItems pdfDoc idx)
               [visible - 1; visible; visible + 1]%Z)).

(** ** Render supersession: the invariant *)

(** A run that can no longer write: its [isCancelled] flag is set and, if
    it waits for its render task, the task was cancelled. *)
Definition dead (i : Instance) : Prop :=
  isCancelled i = true
  /\ match phase i with
     | AwaitRender _ taskCancelled => taskCancelled = true
     | _ => True
     end.

(** The run that began most recently, in a history given newest first. *)
Fixpoint latestBegan (h : list Entry) : option nat :=
  match h with
  | [] => None
  | Began g :: _ => Some g
  | Wrote _ _ :: older => latestBegan older
  end.

(** Newest first: each write is by the run that had begun most recently,
    and each run that begins has a larger number than those before it. *)
Fixpoint fresh (h : list Entry) : Prop :=
  match h with
  | [] => True
  | Wrote g _ :: older => latestBegan older = Some g /\ fresh older
  | Began g :: older =>
      (forall g', In (Began g') older -> (g' < g)%nat) /\ fresh older
  end.

(** Every run but the one whose cleanup is pending is dead; the pending
    cleanup belongs to the run that began most recently; the history
    mentions only runs that began; and every write was fresh. *)
Definition Inv (s : Surface) : Prop :=
  (forall g, (g < next s)%nat -> cleanup s <> Some g -> dead (instances s g))
  /\ (forall g, cleanup s = Some g -> latestBegan (history s) = Some g)
  /\ (forall g, In (Began g) (history s) -> (g < next s)%nat)
  /\ fresh (history s).

(** After the run that began last, only that run writes. *)
Definition OnlyLatestWrites (h : list Entry) : Prop :=
  forall before after g' g w,
    h = before ++ Began g' :: after ->
    (forall k, ~ In (Began k) after) ->
    In (Wrote g w) after -> g = g'.

(** ** Sample inputs *)

Definition sampleReader : ReaderState :=
  mkReader 1.2 0 pen None "#ef4444" 4 "rgba(255, 226, 8, 0.5)" 20
           false [] None.

Definition samplePage : PageState := mkPage (Some (mkCanvas 100 200)) false [].

Definition sampleApp : App := mkApp sampleReader (fun _ => samplePage).

Definition sampleStroke : DrawingPath :=
  mkPath [mkPoint 0.25 0.5; mkPoint 0.5 0.5] "#ef4444" 4.

Definition sampleRect : DOMRect := mkRect 0 0.

(** A touch that starts on the canvas at (10, 10) and is dragged past its
    left edge to (-5, 10) before the finger is lifted. *)
Definition touchDraggedOut : list Action :=
  gesture 0 (sampleRect, mkEvt 10 10) [(sampleRect, mkEvt (-5) 10)].

(** An A4 page, 595.276 x 841.89 points, whose viewport scales linearly. *)
Definition a4Page : PDFPageProxy :=
  mkPageProxy (fun s => mkViewport (595.276 * s) (841.89 * s)) None.

(** A visible page at scale 1 with nothing drawn. *)
Definition visibleProps : RenderProps :=
  mkProps 1 true None [] pen "#ef4444" 4 "rgba(255, 226, 8, 0.5)" 20.

(** A mounted page whose first render waits for [getPage]. *)
Definition firstRender : Surface := steps mounted [RunEffect visibleProps].

(** The same page shown at scale 1.5. *)
Definition zoomedProps : RenderProps :=
  mkProps 1.5 true None [] pen "#ef4444" 4 "rgba(255, 226, 8, 0.5)" 20.

Definition zoomedRender : Surface := steps mounted [RunEffect zoomedProps].

(** A text item at baseline position [(x, y)]. *)
Definition itemAt (s : string) (x y w : Q) : PDFTextItem :=
  mkItem s (Some (1, 0, 0, 1, x, y)) w.

(** "Hello" ends at x = 50; "World" starts at 53 or at 54. *)
Definition hello50 : PDFTextItem := itemAt "Hello" 20 700 30.
Definition world53 : PDFTextItem := itemAt "World" 53 700 30.
Definition world54 : PDFTextItem := itemAt "World" 54 700 30.

(** "Hello" ends at x = -1 (a page whose user space extends left of the
    origin); "World" starts at 100. *)
Definition helloEndingAtMinus1 : PDFTextItem := itemAt "Hello" (-11) 700 10.
Definition world100 : PDFTextItem := itemAt "World" 100 700 30.

(** Items at y = 100, 104, 105 and 110. *)
Definition at100 : PDFTextItem := itemAt "a" 10 100 5.
Definition at104 : PDFTextItem := itemAt "b" 20 104 5.
Definition at105 : PDFTextItem := itemAt "c" 30 105 5.
Definition at110 : PDFTextItem := itemAt "d" 40 110 5.

(** A page with the given text items. *)
Definition pageWith (items : list PDFTextItem) : PDFPageProxy :=
  mkPageProxy (fun s => mkViewport (600 * s) (800 * s)) (Some items).

(** A one-page document whose page has no text. *)
Definition blankDoc : PDFDocumentProxy := mkDoc 1 (fun _ => Some (pageWith [])).

(** A three-page document with one word per page. *)
Definition threePages : PDFDocumentProxy :=
  mkDoc 3 (fun n =>
    if (n =? 1)%Z then Some (pageWith [itemAt "one" 10 700 20])
    else if (n =? 2)%Z then Some (pageWith [itemAt "two" 10 700 20])
    else if (n =? 3)%Z then Some (pageWith [itemAt "three" 10 700 20])
    else None).

(** A stroke of four raw points. *)
Definition fourPoints : list DrawingPoint :=
  [mkPoint 0 0; mkPoint 10 20; mkPoint 30 20; mkPoint 40 0].

(** A scroll container 900 x 700 and a document whose pages are 600 x 800
    at scale 1. *)
Definition sampleContainer : Container := mkContainer 900 700.

Definition sampleDoc : PDFDocumentProxy :=
  mkDoc 3 (fun _ => Some (pageWith [])).

(** Two renders of one page: the first is superseded while the library
    paints for it; its promises settle afterwards. *)
Definition supersededRun : list Label :=
  [RunEffect visibleProps;
   GetPageResolves 0 a4Page true;
   LibraryPaints 0;
   RunEffect zoomedProps;
   LibraryPaints 0;
   RenderResolves 0;
   GetPageResolves 1 a4Page true;
   LibraryPaints 1;
   RenderResolves 1].

(** * Further code: toolbar, canvas registry, visibility *)

From Stdlib Require Import Lqa.

(** ** The zoom buttons of the toolbar *)

(** [setScale(s => Math.max(0.5, s - 0.2))] *)
Definition zoomOut (st : ReaderState) : ReaderState :=
  setScale (Qmax 0.5 (scale st - 0.2)) st.

(** [setScale(s => Math.min(4.0, s + 0.2))] *)
Definition zoomIn (st : ReaderState) : ReaderState :=
  setScale (Qmin 4.0 (scale st + 0.2)) st.

(** [setScale(1.2)] *)
Definition resetZoom (st : ReaderState) : ReaderState := setScale 1.2 st.

(** The buttons that change the scale.  A fit button comes with the
    document and scroll container that [handleFit] finds. *)
Inductive ScaleButton : Type :=
| ClickZoomOut
| ClickZoomIn
| ClickFit (type : FitType) (pdfDoc : option PDFDocumentProxy)
           (scrollContainer : option Container)
| ClickReset.

Definition press (st : ReaderState) (b : ScaleButton) : ReaderState :=
  match b with
  | ClickZoomOut => zoomOut st
  | ClickZoomIn => zoomIn st
  | ClickFit type pdfDoc scrollContainer =>
      handleFit type pdfDoc scrollContainer st
  | ClickReset => resetZoom st
  end.

Definition presses (st : ReaderState) (bs : list ScaleButton) : ReaderState :=
  fold_left press bs st.

(** Every page the document hands out has positive dimensions at scale 1
    (so that [handleFit] divides by a positive number). *)
Definition pagesHaveSize (b : ScaleButton) : Prop :=
  match b with
  | ClickFit _ (Some doc) _ =>
      forall n page, getPage doc n = Some page ->
                     0 < naturalWidth page /\ 0 < naturalHeight page
  | _ => True
  end.

Definition isFit (b : ScaleButton) : bool :=
  match b with ClickFit _ _ _ => true | _ => false end.

(** ** The canvas registry ([handleRegisterCanvas]) *)

Definition setCanvasRefs (l : list Z) (st : ReaderState) : ReaderState :=
  mkReader (scale st) (visiblePageIndex st) (mode st) (activeAnnotation st)
           (penColor st) (penWidth st) (highlighterColor st)
           (highlighterWidth st) (isLive st) l (captureTimeout st).

(** [if (canvas) canvasRefs.current[index] = canvas;
     else delete canvasRefs.current[index];]  The registry is kept as the
    list of indices that have an entry. *)
Definition handleRegisterCanvas (index : Z) (canvas : bool)
  (st : ReaderState) : ReaderState :=
  if canvas then setCanvasRefs (index :: canvasRefs st) st
  else setCanvasRefs
         (filter (fun j => negb (Z.eqb index j)) (canvasRefs st)) st.

(** ** The visibility observer of [PDFPage] *)

Definition setVisiblePageIndex (i : Z) (st : ReaderState) : ReaderState :=
  mkReader (scale st) i (mode st) (activeAnnotation st)
           (penColor st) (penWidth st) (highlighterColor st)
           (highlighterWidth st) (isLive st) (canvasRefs st)
           (captureTimeout st).

(** The observer callback of page [i]:
    [setIsVisible(entry.isIntersecting);
     if (entry.isIntersecting) onVisible(pageIndex);]
    It returns the controller's state and the page's [isVisible]. *)
Definition onIntersection (i : Z) (isIntersecting : bool)
  (st : ReaderState) : ReaderState * bool :=
  (if isIntersecting then setVisiblePageIndex i st else st, isIntersecting).

(** A pointer action (down, move or up), as opposed to a toolbar click. *)
Definition isPointer (ev : Action) : Prop :=
  match ev with
  | PointerDown _ _ _ | PointerMove _ _ _ | PointerUp _ => True
  | _ => False
  end.

(** Scale buttons pressed on a reader whose document has pages of
    600 x 800: zoom out, fit to width in a 900 x 700 container, zoom in. *)
Definition sampleButtons : list ScaleButton :=
  [ClickZoomOut;
   ClickFit fit_width (Some sampleDoc) (Some sampleContainer);
   ClickZoomIn].

(** A live reader showing page 2, whose canvas is registered. *)
Definition liveReader : ReaderState :=
  mkReader 1.2 2 pen None "#ef4444" 4 "rgba(255, 226, 8, 0.5)" 20
           true [2%Z] None.

(** ** Comparing drawing commands *)

(** Two commands are the same drawing operation with numerically equal
    coordinates. *)
Definition Cmd_eq (a b : Cmd) : Prop :=
  match a, b with
  | MoveTo x y, MoveTo x' y' => x == x' /\ y == y'
  | LineTo x y, LineTo x' y' => x == x' /\ y == y'
  | QuadraticCurveTo cx cy x y, QuadraticCurveTo cx' cy' x' y' =>
      cx == cx' /\ cy == cy' /\ x == x' /\ y == y'
  | SetLineWidth w, SetLineWidth w' => w == w'
  | SetLineCap s, SetLineCap s' => s = s'
  | SetLineJoin s, SetLineJoin s' => s = s'
  | SetStrokeStyle c, SetStrokeStyle c' => c = c'
  | BeginPath, BeginPath => True
  | Stroke, Stroke => True
  | _, _ => False
  end.

(** Two commands are the same drawing operation at coordinates that are
    at most [eps] apart. *)
Definition Cmd_within (eps : Q) (a b : Cmd) : Prop :=
  match a, b with
  | MoveTo x y, MoveTo x' y' =>
      Qabs (x - x') <= eps /\ Qabs (y - y') <= eps
  | LineTo x y, LineTo x' y' =>
      Qabs (x - x') <= eps /\ Qabs (y - y') <= eps
  | QuadraticCurveTo cx cy x y, QuadraticCurveTo cx' cy' x' y' =>
      Qabs (cx - cx') <= eps /\ Qabs (cy - cy') <= eps
      /\ Qabs (x - x') <= eps /\ Qabs (y - y') <= eps
  | BeginPath, BeginPath => True
  | Stroke, Stroke => True
  | _, _ => False
  end.

(** The point lies on the raster of the canvas. *)
Definition onRaster (c : Canvas) (p : DrawingPoint) : Prop :=
  (0 <= px p /\ px p <= inject_Z (canvas_width c))
  /\ (0 <= py p /\ py p <= inject_Z (canvas_height c)).

(** The lower right corner of the raster. *)
Definition rasterCorner (c : Canvas) : DrawingPoint :=
  mkPoint (inject_Z (canvas_width c)) (inject_Z (canvas_height c)).

(** A viewport of 600.5 x 800: its width is not a whole number. *)
Definition fractionalViewport : PDFPageViewport := mkViewport 600.5 800.

(** Props of a hidden page. *)
Definition hiddenProps : RenderProps :=
  mkProps 1 false None [] pen "#ef4444" 4 "rgba(255, 226, 8, 0.5)" 20.

(** ** Text lines: separators and first fit *)

(** Strings joined with, before each, either one space or nothing. *)
Fixpoint joinWith (seps : list bool) (strs : list string) : string :=
  match seps, strs with
  | b :: seps', s :: strs' =>
      ((if b then " " else EmptyString) ++ s ++ joinWith seps' strs')%string
  | _, _ => EmptyString
  end.

(** The total length of a list of strings. *)
Definition totalLength (strs : list string) : nat :=
  fold_right (fun s n => (String.length s + n)%nat) O strs.

(** The position of the first [y] of [ys] that is less than the tolerance
    away from [y]: what [lines.find] selects among the lines' [y]. *)
Fixpoint firstFit (y : Q) (ys : list Q) : option nat :=
  match ys with
  | [] => None
  | l :: rest =>
      if Qltb (Qabs (l - y)) yTolerance then Some O
      else option_map S (firstFit y rest)
  end.

(** The item sits in the line that is the first fit for its [y]. *)
Definition placed (lines : list Line) (it : PDFTextItem) : Prop :=
  exists k l,
    nth_error lines k = Some l
    /\ In it (line_items l)
    /\ firstFit (item_y it) (map line_y lines) = Some k.

(** Three items on one baseline, with items of a nearby baseline between
    them. *)
Definition baseline100 : list PDFTextItem :=
  [itemAt "a" 10 100 5; itemAt "x" 10 104 5; itemAt "b" 20 100 5;
   itemAt "y" 30 96 5; itemAt "c" 30 100 5].

(** The three-page document with a third page that cannot be fetched. *)
Definition brokenLastPage : PDFDocumentProxy :=
  mkDoc 3 (fun n => if (n =? 3)%Z then None else getPage threePages n).

(** * Further code: the live service *)

(** ** PCM conversion ([pcmFloat32ToBase64], [decodeAudioData]) *)

(** Storing a number in an [Int16Array]: the integer part, modulo 2^16,
    read as a signed 16-bit value. *)
Definition toInt16 (q : Q) : Z :=
  let int16bit := Z.modulo (Qtrunc q) (2 ^ 16) in
  if (2 ^ 15 <=? int16bit)%Z then (int16bit - 2 ^ 16)%Z else int16bit.

(** [int16[i] = data[i] * 32768] *)
Definition pcmSample (x : Q) : Z := toInt16 (x * 32768).

(** The two bytes of a 16-bit value in a [Uint8Array] view of its buffer
    (low byte first, the byte order of the platforms browsers run on). *)
Definition int16Bytes (v : Z) : list Z := [v mod 256; (v / 256) mod 256]%Z.

(** [new Uint8Array(int16.buffer)] in [pcmFloat32ToBase64]: the bytes that
    are handed to [encode]. *)
Definition pcmBytes (data : list Q) : list Z :=
  flat_map (fun x => int16Bytes (pcmSample x)) data.

(** A 16-bit pattern read as a signed value. *)
Definition signed16 (u : Z) : Z :=
  if (2 ^ 15 <=? u)%Z then (u - 2 ^ 16)%Z else u.

(** [new Int16Array(data.buffer)]: the 16-bit values of a byte buffer;
    [None] (a [RangeError]) when the number of bytes is odd. *)
Fixpoint int16View (bytes : list Z) : option (list Z) :=
  match bytes with
  | [] => Some []
  | lo :: hi :: rest =>
      match int16View rest with
      | Some vs => Some (signed16 (lo + 256 * hi) :: vs)
      | None => None
      end
  | [_] => None
  end.

(** [decodeAudioData] for one channel: the samples of the audio buffer,
    [channelData[i] = dataInt16[i] / 32768.0].  [None] is a thrown error:
    the [RangeError] of the view, or the error [ctx.createBuffer] throws
    for a frame count of 0. *)
Definition decodeAudioData (data : list Z) : option (list Q) :=
  match int16View data with
  | None => None
  | Some dataInt16 =>
      let frameCount := List.length dataInt16 in
      if (frameCount =? 0)%nat then None
      else Some (map (fun v => inject_Z v / 32768) dataInt16)
  end.

(** ** Playback scheduling ([playAudio], [stopAudio]) *)

(** The playback state: [nextStartTime] and the scheduled sources, each
    with its start time and its buffer's duration, in the order they were
    scheduled. *)
Record Playback : Type := mkPlayback {
  nextStartTime : Q;
  sources : list (Q * Q)
}.

(** [audioBuffer.duration]: the number of frames over the sample rate of
    24000. *)
Definition chunkDuration (samples : list Q) : Q :=
  inject_Z (Z.of_nat (List.length samples)) / 24000.

(** [playAudio], with [outputAudioContext.currentTime] read as
    [currentTime].  A payload that cannot be decoded throws inside the
    [try] and is only logged. *)
Definition playAudio (currentTime : Q) (data : list Z) (pb : Playback)
  : Playback :=
  match decodeAudioData data with
  | None => pb
  | Some samples =>
      let start :=
        if Qltb (nextStartTime pb) currentTime then currentTime
        else nextStartTime pb in
      mkPlayback (start + chunkDuration samples)
                 (sources pb ++ [(start, chunkDuration samples)])
  end.

(** [stopAudio]: every source is stopped and forgotten. *)
Definition stopAudio (pb : Playback) : Playback := mkPlayback 0 [].

Fixpoint removeAt {A : Type} (k : nat) (l : list A) : list A :=
  match l, k with
  | [], _ => []
  | _ :: rest, O => rest
  | x :: rest, S k' => x :: removeAt k' rest
  end.

(** [source.onended = () => this.sources.delete(source)] for the [k]-th
    scheduled source. *)
Definition onended (k : nat) (pb : Playback) : Playback :=
  mkPlayback (nextStartTime pb) (removeAt k (sources pb)).

(** What reaches the playback: an audio part of a server message (with the
    clock reading at that moment), an interruption, the end of a source. *)
Inductive PlaybackEvent : Type :=
| AudioPart (currentTime : Q) (data : list Z)
| Interrupted
| SourceEnded (k : nat).

Definition playbackStep (pb : Playback) (ev : PlaybackEvent) : Playback :=
  match ev with
  | AudioPart currentTime data => playAudio currentTime data pb
  | Interrupted => stopAudio pb
  | SourceEnded k => onended k pb
  end.

Definition idlePlayback : Playback := mkPlayback 0 [].

(** A source ends before the other starts. *)
Definition endsBefore (a b : Q * Q) : Prop := fst a + snd a <= fst b.

(** ** Audio levels ([analyzeAudioLevels]) and the orb ([AIAssistant]) *)

(** [dataArray.reduce((a, b) => a + b) / dataArray.length / 255]; the
    reduction of an empty array throws. *)
Definition averageLevel (dataArray : list Z) : option Q :=
  match dataArray with
  | [] => None
  | b :: rest =>
      Some (inject_Z (fold_left Z.add rest b)
            / inject_Z (Z.of_nat (List.length dataArray)) / 255)
  end.

Inductive Status : Type := Speaking | Listening | Ready.
Inductive Icon : Type := Sparkles | VolumeX | Mic.

(** What [AIAssistant] shows: the status word, the icon in the orb, and
    the scale factors of the glow and of the pulse ring. *)
Record Orb : Type := mkOrb {
  status : Status;
  icon : Icon;
  glowScale : Q;
  ringScale : Q
}.

(** [AIAssistant]: nothing when not active. *)
Definition AIAssistant (isActive : bool) (userAudioLevel aiAudioLevel : Q)
  : option Orb :=
  if negb isActive then None
  else
    let isAiSpeaking := Qltb 0.04 aiAudioLevel in
    let isUserSpeaking := Qltb 0.04 userAudioLevel in
    let isAmbientNoise :=
      Qltb 0.005 userAudioLevel && Qle_bool userAudioLevel 0.04 in
    let userScale := 1 + userAudioLevel * 2.5 in
    let aiScale := 1 + aiAudioLevel * 3 in
    Some (mkOrb
            (if isAiSpeaking then Speaking
             else if isUserSpeaking then Listening else Ready)
            (if isAiSpeaking then Sparkles
             else if isAmbientNoise then VolumeX else Mic)
            (if isAiSpeaking then aiScale * 1.5 else userScale * 1.2)
            (if isAiSpeaking then aiScale * 1.8 else userScale * 1.4)).

(** A short exchange: two chunks arrive back to back, the tutor is
    interrupted, a third chunk arrives later. *)
Definition sampleExchange : list PlaybackEvent :=
  [AudioPart 1 (pcmBytes [0.5; -0.25; 0; 0.125]);
   AudioPart 1 (pcmBytes [0.5; 0.5]);
   SourceEnded 0;
   Interrupted;
   AudioPart 5 (pcmBytes [0.25; 0.25])].

(** * Further code: the shell ([App]) and the page-text tool *)

(** The part of [LiveService] that holds the page text. *)
Record TutorService : Type := mkTutor { currentPageText : string }.

(** [sendPageContext(text)] *)
Definition sendPageContext (text : string) (svc : TutorService)
  : TutorService := mkTutor text.

(** A function call of a tool-call message, and the response sent back. *)
Record FunctionCall : Type := mkCall { fc_id : string; fc_name : string }.

Record FunctionResponse : Type := mkResponse {
  fr_id : string;
  fr_name : string;
  fr_text : string
}.

(** The tool-call branch of [onmessage]: one response per call named
    [getPageText], carrying the call's id and the current page text. *)
Definition answerToolCall (svc : TutorService)
  (functionCalls : list FunctionCall) : list FunctionResponse :=
  flat_map (fun fc =>
              if String.eqb (fc_name fc) "getPageText"
              then [mkResponse (fc_id fc) (fc_name fc) (currentPageText svc)]
              else [])
           functionCalls.

(** [s.includes(needle)] *)
Definition includes (needle s : string) : bool :=
  match index 0 needle s with Some _ => true | None => false end.

(** The state of [App] that the handlers below read or write;
    [storedKey] is the entry [gemini_api_key] of the local storage and
    [liveService] is [liveServiceRef.current]. *)
Record Shell : Type := mkShell {
  live : bool;
  isConnecting : bool;
  error : option string;
  apiKey : string;
  showKeyModal : bool;
  tempKey : string;
  storedKey : option string;
  liveService : option TutorService;
  lastPageText : string;
  aiTranscript : string;
  userTranscript : string
}.

(** How [await service.connect()] ends: it resolves, or it throws an error
    with or without a message. *)
Inductive ConnectOutcome : Type :=
| Connected
| ConnectFailed (message : option string).

Definition isEmpty (s : string) : bool :=
  match s with EmptyString => true | _ => false end.

(** [toggleLiveSession] *)
Definition toggleLiveSession (outcome : ConnectOutcome) (st : Shell) : Shell :=
  if live st then
    mkShell false (isConnecting st) (error st) (apiKey st) (showKeyModal st)
            (tempKey st) (storedKey st) None (lastPageText st)
            EmptyString EmptyString
  else if isEmpty (apiKey st) then
    mkShell (live st) (isConnecting st) (error st) (apiKey st) true
            (tempKey st) (storedKey st) (liveService st) (lastPageText st)
            (aiTranscript st) (userTranscript st)
  else
    match outcome with
    | Connected =>
        let service := mkTutor EmptyString in
        let service' :=
          if isEmpty (lastPageText st) then service
          else sendPageContext (lastPageText st) service in
        mkShell true false None (apiKey st) (showKeyModal st)
                (tempKey st) (storedKey st) (Some service') (lastPageText st)
                (aiTranscript st) (userTranscript st)
    | ConnectFailed message =>
        if match message with
           | Some m => negb (isEmpty m) && includes "401" m
           | None => false
           end
        then
          mkShell (live st) false (Some "Invalid API Key. Please update it."%string)
                  EmptyString (showKeyModal st) (tempKey st) None
                  (liveService st) (lastPageText st)
                  (aiTranscript st) (userTranscript st)
        else
          mkShell (live st) false (Some "Connection failed. Please try again."%string)
                  (apiKey st) (showKeyModal st) (tempKey st) (storedKey st)
                  (liveService st) (lastPageText st)
                  (aiTranscript st) (userTranscript st)
    end.

(** [handlePageText(text)].  The callback is made by
    [useCallback(..., [isLive])]: the [isLive] it tests is the one of the
    render that created it, which the reader's pending extraction may hold
    on to after the shell has rendered again; [lastPageTextRef] and
    [liveServiceRef] are refs and are read as they are now. *)
Definition handlePageText (isLive : bool) (text : string) (st : Shell)
  : Shell :=
  mkShell (live st) (isConnecting st) (error st) (apiKey st)
          (showKeyModal st) (tempKey st) (storedKey st)
          (match liveService st with
           | Some svc =>
               if isLive then Some (sendPageContext text svc) else Some svc
           | None => None
           end)
          text (aiTranscript st) (userTranscript st).

(** [handleSaveKey], with the platform's [String.prototype.trim] as
    [trim]. *)
Definition handleSaveKey (trim : string -> string) (st : Shell) : Shell :=
  if (10 <? String.length (trim (tempKey st)))%nat then
    let key := trim (tempKey st) in
    mkShell (live st) (isConnecting st) None key false
            (tempKey st) (Some key) (liveService st) (lastPageText st)
            (aiTranscript st) (userTranscript st)
  else
    mkShell (live st) (isConnecting st) (Some "Invalid API Key format"%string)
            (apiKey st) (showKeyModal st) (tempKey st) (storedKey st)
            (liveService st) (lastPageText st)
            (aiTranscript st) (userTranscript st).

(** [setTempKey(e.target.value)] *)
Definition setTempKey (value : string) (st : Shell) : Shell :=
  mkShell (live st) (isConnecting st) (error st) (apiKey st)
          (showKeyModal st) value (storedKey st) (liveService st)
          (lastPageText st) (aiTranscript st) (userTranscript st).

(** [setShowKeyModal(b)] *)
Definition setShowKeyModal (b : bool) (st : Shell) : Shell :=
  mkShell (live st) (isConnecting st) (error st) (apiKey st) b
          (tempKey st) (storedKey st) (liveService st)
          (lastPageText st) (aiTranscript st) (userTranscript st).

(** [process.env.API_KEY || localStorage.getItem('gemini_api_key') || ''] *)
Definition initialKey (envKey storedKey : option string) : string :=
  match envKey with
  | Some (String c k) => String c k
  | _ => match storedKey with
         | Some (String c k) => String c k
         | _ => EmptyString
         end
  end.

(** [App] as it mounts. *)
Definition initialShell (envKey stored : option string) : Shell :=
  mkShell false false None (initialKey envKey stored) false EmptyString
          stored None EmptyString EmptyString EmptyString.

(** What happens to the shell: the start or close button (with the way
    the connection attempt ends, if one is made), a page text delivered by
    the reader through a [handlePageText] that was created with the given
    [isLive], and the key dialog. *)
Inductive ShellEvent : Type :=
| Toggle (outcome : ConnectOutcome)
| DeliverText (isLive : bool) (text : string)
| TypeKey (value : string)
| SaveKey
| KeyModal (open : bool).

Definition shellStep (trim : string -> string) (st : Shell) (ev : ShellEvent)
  : Shell :=
  match ev with
  | Toggle outcome => toggleLiveSession outcome st
  | DeliverText isLive text => handlePageText isLive text st
  | TypeKey value => setTempKey value st
  | SaveKey => handleSaveKey trim st
  | KeyModal open => setShowKeyModal open st
  end.

(** The text of the last [DeliverText] event, [d] when there is none. *)
Fixpoint latestText (d : string) (evs : list ShellEvent) : string :=
  match evs with
  | [] => d
  | DeliverText _ text :: rest => latestText text rest
  | _ :: rest => latestText d rest
  end.

(** No text was delivered, while the shell was live, through a callback
    created before it went live. *)
Fixpoint noStaleDelivery (trim : string -> string) (st : Shell)
  (evs : list ShellEvent) : bool :=
  match evs with
  | [] => true
  | ev :: rest =>
      match ev with
      | DeliverText isLive _ => implb (live st) isLive
      | _ => true
      end
      && noStaleDelivery trim (shellStep trim st ev) rest
  end.

(** The shell holds a service exactly while live. *)
Definition serviceWhileLive (st : Shell) : Prop :=
  (live st = false -> liveService st = None)
  /\ (live st = true -> exists svc, liveService st = Some svc).

(** The service holds the text delivered last. *)
Definition serviceHasLastText (st : Shell) : Prop :=
  live st = true -> liveService st = Some (mkTutor (lastPageText st)).

(** A session: the reader delivers a text, the tutor is started, the
    reader delivers another text. *)
Definition sampleSession : list ShellEvent :=
  [DeliverText false "page one"; Toggle Connected;
   DeliverText true "page two"].

(** * Further code: the textbook store, the admin panel, the library *)

(** A [File] (with its name) or a plain [Blob]; the content is not
    represented. *)
Record FileBlob : Type := mkFile {
  file_name : option string;
  file_size : Z
}.

(** [Textbook { id; className; subject; file; uploadedAt }] *)
Record Textbook : Type := mkTextbook {
  book_id : Z;
  className : string;
  subject : string;
  file : FileBlob;
  uploadedAt : Z
}.

(** The object store [textbooks] ([keyPath: 'id', autoIncrement: true])
    with its index on [className]: the records in ascending key order and
    the key generator's next number. *)
Record Database : Type := mkDatabase {
  keyGenerator : Z;
  textbooks : list Textbook
}.

(** The store as [onupgradeneeded] creates it. *)
Definition emptyDatabase : Database := mkDatabase 1 [].

(** [uploadTextbook(className, subject, file)], with [Date.now()] as
    [now]: [store.add] gives the record the generator's number as [id]. *)
Definition uploadTextbook (className subject : string) (file : FileBlob)
  (now : Z) (db : Database) : Database :=
  mkDatabase (keyGenerator db + 1)
             (textbooks db
              ++ [mkTextbook (keyGenerator db) className subject file now]).

(** [getAllTextbooks()] *)
Definition getAllTextbooks (db : Database) : list Textbook := textbooks db.

(** [getTextbooksByClass(className)]: [index.getAll(className)]. *)
Definition getTextbooksByClass (c : string) (db : Database)
  : list Textbook :=
  filter (fun t => String.eqb (className t) c) (textbooks db).

(** [deleteTextbook(id)] *)
Definition deleteTextbook (id : Z) (db : Database) : Database :=
  mkDatabase (keyGenerator db)
             (filter (fun t => negb (Z.eqb (book_id t) id)) (textbooks db)).

(** The state of [AdminPanel]. *)
Record AdminPanel : Type := mkAdmin {
  selectedClass : string;
  subjectInput : string;
  fileInput : option FileBlob;
  isUploading : bool;
  books : list Textbook;
  msg : string
}.

(** [loadBooks], with whether [await getAllTextbooks()] resolved as
    [loaded]: the inventory becomes the store's books sorted by
    [(a, b) => b.uploadedAt - a.uploadedAt]; when the read rejects, the
    [catch] only logs and the inventory stays as it was. *)
Definition loadBooks (loaded : bool) (db : Database) (panel : AdminPanel)
  : AdminPanel :=
  if loaded then
    mkAdmin (selectedClass panel) (subjectInput panel) (fileInput panel)
            (isUploading panel)
            (sortBy (fun a b => inject_Z (uploadedAt b)
                                - inject_Z (uploadedAt a))
                    (getAllTextbooks db))
            (msg panel)
  else panel.

(** [handleUpload], with [Date.now()] as [now], whether
    [await uploadTextbook(...)] resolved as [stored] and whether the read
    of the following [loadBooks] resolved as [loaded]. *)
Definition handleUpload (now : Z) (stored loaded : bool)
  (s : Database * AdminPanel) : Database * AdminPanel :=
  let '(db, panel) := s in
  match fileInput panel with
  | None => s
  | Some file =>
      if isEmpty (subjectInput panel) then s
      else if stored then
        let db' := uploadTextbook (selectedClass panel) (subjectInput panel)
                                  file now db in
        (db', loadBooks loaded db'
                (mkAdmin (selectedClass panel) EmptyString None false
                         (books panel) "Book uploaded!"))
      else
        (db, mkAdmin (selectedClass panel) (subjectInput panel)
                     (fileInput panel) false (books panel)
                     "Failed to upload.")
  end.

(** [handleDelete(id)], with the answer to [confirm] as [confirmed],
    whether [await deleteTextbook(id)] resolved as [deleted] (when it
    rejects the handler ends there) and whether the read of the following
    [loadBooks] resolved as [loaded]. *)
Definition handleDelete (id : Z) (confirmed deleted loaded : bool)
  (s : Database * AdminPanel) : Database * AdminPanel :=
  let '(db, panel) := s in
  if confirmed then
    if deleted then
      let db' := deleteTextbook id db in (db', loadBooks loaded db' panel)
    else s
  else s.

(** [handleBookClick] of [ClassSelector]: a stored [File] is passed on, a
    [Blob] is wrapped into a file named after the subject. *)
Definition handleBookClick (book : Textbook) : FileBlob :=
  match file_name (file book) with
  | Some _ => file book
  | None => mkFile (Some (subject book ++ ".pdf")%string)
                   (file_size (file book))
  end.

(** What the administrator does to the store. *)
Inductive StoreOp : Type :=
| Upload (className subject : string) (file : FileBlob) (now : Z)
| Delete (id : Z).

Definition storeStep (db : Database) (op : StoreOp) : Database :=
  match op with
  | Upload c s f now => uploadTextbook c s f now db
  | Delete id => deleteTextbook id db
  end.

Definition isUpload (op : StoreOp) : bool :=
  match op with Upload _ _ _ _ => true | Delete _ => false end.

(** Every record's key is a number the generator has already given out,
    and the records are in ascending key order. *)
Definition keysIssued (db : Database) : Prop :=
  (1 <= keyGenerator db)%Z
  /\ Forall (fun t => (1 <= book_id t < keyGenerator db)%Z) (textbooks db)
  /\ StronglySorted Z.lt (map book_id (textbooks db)).

(** The number of uploads among the operations. *)
Definition uploads (ops : list StoreOp) : Z :=
  Z.of_nat (List.length (filter isUpload ops)).

(** The store after the operations, starting from [db]. *)
Definition runStore (db : Database) (ops : list StoreOp) : Database :=
  fold_left storeStep ops db.

Definition samplePdf : FileBlob := mkFile (Some "math.pdf"%string) 1048576.

(** Two uploads, the first book deleted, a third upload. *)
Definition sampleOps : list StoreOp :=
  [Upload "5" "Math" samplePdf 1000; Upload "6" "Science" samplePdf 2000;
   Delete 1; Upload "5" "Bangla" samplePdf 3000].

Definition freshPanel : AdminPanel :=
  mkAdmin "1" EmptyString None false [] EmptyString.

(** [handleFileChange]: the chosen file, when the input holds one. *)
Definition handleFileChange (files : option FileBlob) (panel : AdminPanel)
  : AdminPanel :=
  match files with
  | Some f => mkAdmin (selectedClass panel) (subjectInput panel) (Some f)
                      (isUploading panel) (books panel) (msg panel)
  | None => panel
  end.

Definition setSelectedClass (c : string) (panel : AdminPanel) : AdminPanel :=
  mkAdmin c (subjectInput panel) (fileInput panel) (isUploading panel)
          (books panel) (msg panel).

Definition setSubject (s : string) (panel : AdminPanel) : AdminPanel :=
  mkAdmin (selectedClass panel) s (fileInput panel) (isUploading panel)
          (books panel) (msg panel).

(** What the administrator does on the panel; a handler has run to its end
    before the next event is handled. *)
Inductive AdminEvent : Type :=
| SelectClass (c : string)
| TypeSubject (s : string)
| ChooseFile (files : option FileBlob)
| SubmitUpload (now : Z) (stored loaded : bool)
| ClickDelete (id : Z) (confirmed deleted loaded : bool).

Definition adminStep (s : Database * AdminPanel) (ev : AdminEvent)
  : Database * AdminPanel :=
  match ev with
  | SelectClass c => (fst s, setSelectedClass c (snd s))
  | TypeSubject t => (fst s, setSubject t (snd s))
  | ChooseFile files => (fst s, handleFileChange files (snd s))
  | SubmitUpload now stored loaded => handleUpload now stored loaded s
  | ClickDelete id confirmed deleted loaded =>
      handleDelete id confirmed deleted loaded s
  end.

(** The panel once mounted ([useEffect(() => { loadBooks(); }, [])]). *)
Definition mountAdmin (loaded : bool) (db : Database)
  : Database * AdminPanel :=
  (db, loadBooks loaded db freshPanel).

Definition adminRun (loaded : bool) (db : Database) (evs : list AdminEvent)
  : Database * AdminPanel :=
  fold_left adminStep evs (mountAdmin loaded db).

(** Every read of the store that the events come with resolves. *)
Definition readsSucceed (evs : list AdminEvent) : bool :=
  forallb (fun ev => match ev with
                     | SubmitUpload _ _ loaded => loaded
                     | ClickDelete _ _ _ loaded => loaded
                     | _ => true
                     end) evs.

(** Two books are uploaded, the first one is deleted; every read
    succeeds. *)
Definition sampleAdminEvents : list AdminEvent :=
  [SelectClass "5"; TypeSubject "Math"; ChooseFile (Some samplePdf);
   SubmitUpload 1000 true true;
   TypeSubject "Science"; ChooseFile (Some samplePdf);
   SubmitUpload 2000 true true; ClickDelete 1 true true true].

(** Newest first. *)
Definition newerFirst (a b : Textbook) : Prop :=
  (uploadedAt b <= uploadedAt a)%Z.

(** * Properties *)

(** ** Numbers *)

Lemma Qltb_lt (a b : Q) : Qltb a b = true <-> a < b.
Proof.
  unfold Qltb. rewrite Qlt_alt.
  destruct (a ?= b); split; intro H; try reflexivity; discriminate H.
Qed.

Lemma Qltb_ge (a b : Q) : Qltb a b = false <-> b <= a.
Proof.
  split; intro H.
  - apply Qnot_lt_le. intro L. apply Qltb_lt in L. congruence.
  - destruct (Qltb a b) eqn:E; [|reflexivity].
    apply Qltb_lt in E. exfalso. exact (Qlt_not_le _ _ E H).
Qed.

(** ** The annotation slot *)

Lemma activeAnnotation_captureFrame (st : ReaderState) :
  activeAnnotation (captureFrame st) = activeAnnotation st.
Proof.
  unfold captureFrame.
  destruct (negb (isLive st)); [reflexivity|].
  destruct (negb (hasCanvas (visiblePageIndex st) st)); reflexivity.
Qed.

Lemma annotationProp_unique (st : ReaderState) (i j : Z) :
  annotationProp st i <> None -> annotationProp st j <> None -> i = j.
Proof.
  unfold annotationProp. destruct (activeAnnotation st) as [a|].
  - destruct (Z.eqb_spec (pageIndex a) i), (Z.eqb_spec (pageIndex a) j);
      congruence.
  - congruence.
Qed.

Lemma startDrawing_clears (rect : DOMRect) (e : PointerEvt)
  (st : ReaderState) (pg : PageState) :
  mode st <> move ->
  activeAnnotation (fst (startDrawing rect e st pg)) = None.
Proof.
  intro Hm. unfold startDrawing.
  destruct (mode st); try reflexivity. now elim Hm.
Qed.

(** ** Strokes: capture and normalisation *)

Lemma moves_accumulate (i : Z) (moves : list (DOMRect * PointerEvt))
  (a : App) (c : Canvas) (pts : list DrawingPoint) :
  mode (reader a) <> move ->
  pages a i = mkPage (Some c) true pts ->
  let a' := acts a (map (fun m => PointerMove i (fst m) (snd m)) moves) in
  reader a' = reader a
  /\ pages a' i =
     mkPage (Some c) true
            (pts ++ map (fun m => mkPoint (clientX (snd m) - rect_left (fst m))
                                          (clientY (snd m) - rect_top (fst m)))
                        moves).
Proof.
  revert a pts. induction moves as [|m moves IH]; intros a pts Hm Hpg.
  - simpl. now rewrite app_nil_r.
  - simpl map. unfold acts. simpl fold_left.
    set (a1 := mkApp _ _).
    assert (Hpg1 : pages a1 i =
                   mkPage (Some c) true
                     (pts ++ [mkPoint (clientX (snd m) - rect_left (fst m))
                                      (clientY (snd m) - rect_top (fst m))])).
    { unfold a1. simpl. unfold setPage. rewrite Z.eqb_refl.
      unfold draw. rewrite Hpg. simpl.
      destruct (mode (reader a)); try reflexivity. now elim Hm. }
    destruct (IH a1 _ Hm Hpg1) as [Hr Hp].
    split; [exact Hr|].
    unfold acts in Hp. rewrite Hp. now rewrite <- app_assoc.
Qed.

Lemma acts_app (a : App) (l1 l2 : list Action) :
  acts a (l1 ++ l2) = acts (acts a l1) l2.
Proof. unfold acts. apply fold_left_app. Qed.

(** A complete gesture in a drawing mode on a page with a canvas stores
    exactly the stroke made of the positions it visited, each relative to
    the bounding rectangle and divided by the raster's width and height. *)
Lemma gesture_stores_stroke (i : Z) (first : DOMRect * PointerEvt)
  (moves : list (DOMRect * PointerEvt)) (a : App) (c : Canvas) :
  mode (reader a) <> move ->
  canvasRef (pages a i) = Some c ->
  activeAnnotation (reader (acts a (gesture i first moves))) =
  Some (mkAnnotation i
          (newPath (reader a) c
             (map (fun m => mkPoint (clientX (snd m) - rect_left (fst m))
                                    (clientY (snd m) - rect_top (fst m)))
                  (first :: moves)))).
Proof.
  intros Hm Hc. unfold gesture.
  change (PointerDown i (fst first) (snd first)
          :: map (fun m => PointerMove i (fst m) (snd m)) moves
          ++ [PointerUp i])
    with ([PointerDown i (fst first) (snd first)]
          ++ map (fun m => PointerMove i (fst m) (snd m)) moves
          ++ [PointerUp i]).
  rewrite !acts_app.
  set (a1 := acts a [PointerDown i (fst first) (snd first)]).
  assert (Hr1 : reader a1 = handleStartDraw (reader a)).
  { unfold a1, acts. simpl. unfold startDrawing.
    destruct (mode (reader a)); try reflexivity. now elim Hm. }
  assert (Hp1 : pages a1 i =
                mkPage (Some c) true
                  [mkPoint (clientX (snd first) - rect_left (fst first))
                           (clientY (snd first) - rect_top (fst first))]).
  { unfold a1, acts. simpl. unfold startDrawing, getPoint. rewrite Hc.
    destruct (mode (reader a)); try (now elim Hm);
      simpl; unfold setPage; now rewrite Z.eqb_refl. }
  assert (Hm1 : mode (reader a1) <> move) by (rewrite Hr1; exact Hm).
  destruct (moves_accumulate i moves a1 c _ Hm1 Hp1) as [Hr2 Hp2].
  set (a2 := acts a1 _) in *.
  unfold acts. simpl. unfold stopDrawing. rewrite Hp2. simpl.
  unfold handleFinishDraw. rewrite activeAnnotation_captureFrame. simpl.
  rewrite Hr2, Hr1. reflexivity.
Qed.

(** C1.  The reader has a single annotation slot.  [handleStartDraw]
    (the [onStartDraw] callback) empties it, [handleFinishDraw i p] sets it
    to exactly [{pageIndex: i, path: p}] whatever it held, [clearDrawings]
    empties it; a pointer-down in a drawing mode empties it before the
    stroke begins; after every sequence of actions at most one page is
    handed an annotation; finishing a stroke on page [B] while page
    [A <> B] held the annotation leaves page [A] with none and page [B]
    with that stroke; and a whole gesture on page [B] (down, moves, up)
    leaves the stroke it drew as the annotation of page [B] and of no other
    page. *)
Theorem annotation_single_slot
  (st : ReaderState) (a : App) (evs : list Action)
  (A B : Z) (pA p : DrawingPath) (rect : DOMRect) (e : PointerEvt)
  (c : Canvas) (moves : list (DOMRect * PointerEvt))
  (HAB : A <> B)
  (Hheld : activeAnnotation st = Some (mkAnnotation A pA))
  (Hmode : mode (reader a) <> move)
  (Hcanvas : canvasRef (pages a B) = Some c) :
  activeAnnotation (handleStartDraw st) = None
  /\ activeAnnotation (handleFinishDraw B p st) = Some (mkAnnotation B p)
  /\ activeAnnotation (clearDrawings st) = None
  /\ activeAnnotation (reader (act a (PointerDown B rect e))) = None
  /\ (forall i j, annotationProp (reader (acts a evs)) i <> None ->
                  annotationProp (reader (acts a evs)) j <> None -> i = j)
  /\ annotationProp st A = Some pA
  /\ annotationProp (handleFinishDraw B p (handleStartDraw st)) A = None
  /\ annotationProp (handleFinishDraw B p (handleStartDraw st)) B = Some p
  /\ (forall j, annotationProp (handleFinishDraw B p (handleStartDraw st)) j
                <> None -> j = B)
  /\ (exists stroke,
        annotationProp (reader (acts a (gesture B (rect, e) moves))) B
        = Some stroke
        /\ List.length (points stroke) = S (List.length moves)
        /\ forall j, j <> B ->
             annotationProp (reader (acts a (gesture B (rect, e) moves))) j
             = None).
Proof.
  assert (HB : annotationProp (handleFinishDraw B p (handleStartDraw st)) B
               = Some p).
  { unfold annotationProp, handleFinishDraw.
    rewrite activeAnnotation_captureFrame. simpl. now rewrite Z.eqb_refl. }
  split; [reflexivity|].
  split; [unfold handleFinishDraw; now rewrite activeAnnotation_captureFrame|].
  split; [unfold clearDrawings; now rewrite activeAnnotation_captureFrame|].
  split.
  { simpl.
    pose proof (startDrawing_clears rect e (reader a) (pages a B) Hmode) as H.
    destruct (startDrawing rect e (reader a) (pages a B)). exact H. }
  split; [apply annotationProp_unique|].
  split.
  { unfold annotationProp. rewrite Hheld. simpl. now rewrite Z.eqb_refl. }
  split.
  { unfold annotationProp, handleFinishDraw.
    rewrite activeAnnotation_captureFrame. simpl.
    destruct (Z.eqb_spec B A); congruence. }
  split; [exact HB|].
  split.
  { intros j Hj. symmetry.
    apply (annotationProp_unique
             (handleFinishDraw B p (handleStartDraw st)) B j); [|exact Hj].
    rewrite HB. discriminate. }
  pose proof (gesture_stores_stroke B (rect, e) moves a c Hmode Hcanvas) as G.
  eexists. unfold annotationProp. rewrite G. simpl pageIndex. simpl path.
  rewrite Z.eqb_refl. split; [reflexivity|]. split.
  - simpl. now rewrite !length_map.
  - intros j Hj. destruct (Z.eqb_spec B j); congruence.
Qed.

Lemma annotation_single_slot_witness :
  2%Z <> 5%Z
  /\ activeAnnotation
       (setActiveAnnotation (Some (mkAnnotation 2 sampleStroke)) sampleReader)
     = Some (mkAnnotation 2 sampleStroke)
  /\ mode (reader sampleApp) <> move
  /\ canvasRef (pages sampleApp 5) = Some (mkCanvas 100 200)
  /\ annotationProp
       (handleFinishDraw 5 sampleStroke
          (handleStartDraw
             (setActiveAnnotation (Some (mkAnnotation 2 sampleStroke))
                                  sampleReader))) 2 = None
  /\ annotationProp
       (handleFinishDraw 5 sampleStroke
          (handleStartDraw
             (setActiveAnnotation (Some (mkAnnotation 2 sampleStroke))
                                  sampleReader))) 5 = Some sampleStroke.
Proof.
  assert (H25 : 2%Z <> 5%Z) by discriminate.
  assert (Hm : mode (reader sampleApp) <> move) by discriminate.
  pose proof (annotation_single_slot
                (setActiveAnnotation (Some (mkAnnotation 2 sampleStroke))
                                     sampleReader)
                sampleApp [] 2 5 sampleStroke sampleStroke sampleRect
                (mkEvt 10 10) (mkCanvas 100 200) [] H25 eq_refl Hm eq_refl)
    as H.
  split; [exact H25|]. split; [reflexivity|]. split; [exact Hm|].
  split; [reflexivity|].
  split; [exact (proj1 (proj2 (proj2 (proj2 (proj2 (proj2 (proj2 H)))))))|].
  exact (proj1 (proj2 (proj2 (proj2 (proj2 (proj2 (proj2 (proj2 H)))))))).
Defined.

(** Normalisation keeps exactly the points of the raster inside the unit
    square. *)
Lemma normalize_in_unit_square (w h : Z) (p : DrawingPoint) :
  (0 < w)%Z -> (0 < h)%Z ->
  (0 <= px (normalize w h p) <= 1 /\ 0 <= py (normalize w h p) <= 1)
  <-> (0 <= px p <= inject_Z w /\ 0 <= py p <= inject_Z h).
Proof.
  intros Hw Hh.
  assert (Qw : 0 < inject_Z w).
  { change (inject_Z 0 < inject_Z w). rewrite <- Zlt_Qlt. exact Hw. }
  assert (Qh : 0 < inject_Z h).
  { change (inject_Z 0 < inject_Z h). rewrite <- Zlt_Qlt. exact Hh. }
  assert (bound : forall x d, 0 < d -> (0 <= x / d <= 1 <-> 0 <= x <= d)).
  { intros x d Hd. split; intros [H0 H1]; split.
    - apply (Qmult_le_r _ _ d Hd) in H0.
      rewrite Qmult_0_l in H0. unfold Qdiv in H0.
      rewrite <- Qmult_assoc, (Qmult_comm (/ d)), Qmult_inv_r, Qmult_1_r in H0;
        [exact H0|]. intro E. rewrite E in Hd. discriminate.
    - apply (Qmult_le_r _ _ d Hd) in H1.
      rewrite Qmult_1_l in H1. unfold Qdiv in H1.
      rewrite <- Qmult_assoc, (Qmult_comm (/ d)), Qmult_inv_r, Qmult_1_r in H1;
        [exact H1|]. intro E. rewrite E in Hd. discriminate.
    - apply Qle_shift_div_l; [exact Hd|]. now rewrite Qmult_0_l.
    - apply Qle_shift_div_r; [exact Hd|]. now rewrite Qmult_1_l. }
  unfold normalize. simpl.
  rewrite (bound (px p) _ Qw), (bound (py p) _ Qh). reflexivity.
Qed.

(** C3 (evaluation at the failing input).  In pen mode, on a 100 x 200
    raster whose bounding rectangle starts at the client origin, a touch
    that starts at (10, 10) and is dragged to (-5, 10) is stored as the
    stroke [(10/100, 10/200); (-5/100, 10/200)]: its second point has a
    negative [x], outside the unit square. *)
Theorem touch_dragged_out_not_normalized :
  exists stroke : DrawingPath,
    activeAnnotation (reader (acts sampleApp touchDraggedOut))
    = Some (mkAnnotation 0 stroke)
    /\ points stroke = [mkPoint (10 / 100) (10 / 200);
                        mkPoint (-5 / 100) (10 / 200)]
    /\ exists pt, In pt (points stroke) /\ px pt < 0.
Proof.
  eexists. split; [|split].
  - unfold touchDraggedOut.
    rewrite (gesture_stores_stroke 0 _ _ sampleApp (mkCanvas 100 200));
      [reflexivity | discriminate | reflexivity].
  - reflexivity.
  - exists (mkPoint (-5 / 100) (10 / 200)). split.
    + right. left. reflexivity.
    + reflexivity.
Qed.

(** ** Raster dimensions *)

Lemma to_unsigned_long_floor (q : Q) :
  0 <= q -> q < inject_Z (2 ^ 32) -> to_unsigned_long q = Qfloor q.
Proof.
  intros H0 H1. unfold to_unsigned_long, Qtrunc.
  assert (Hn : (0 <= Qnum q)%Z).
  { unfold Qle in H0. simpl in H0. lia. }
  rewrite Z.quot_div_nonneg by lia.
  change (Qnum q / Z.pos (Qden q))%Z with (Qfloor (Qnum q # Qden q)).
  replace (Qnum q # Qden q) with q by (destruct q; reflexivity).
  apply Z.mod_small. split.
  - rewrite <- (Qfloor_Z 0). apply Qfloor_resp_le. exact H0.
  - rewrite Zlt_Qlt. apply Qle_lt_trans with q; [apply Qfloor_le | exact H1].
Qed.

Lemma resizeCanvas_floor (c : Canvas) (viewport : PDFPageViewport) :
  0 <= vp_width viewport -> vp_width viewport < inject_Z (2 ^ 32) ->
  0 <= vp_height viewport -> vp_height viewport < inject_Z (2 ^ 32) ->
  canvas_width (resizeCanvas c viewport) = Qfloor (vp_width viewport)
  /\ canvas_height (resizeCanvas c viewport) = Qfloor (vp_height viewport).
Proof.
  intros Hw0 Hw1 Hh0 Hh1. unfold resizeCanvas.
  destruct (needsResize c viewport) eqn:E.
  - simpl. split; now apply to_unsigned_long_floor.
  - unfold needsResize in E. apply orb_false_elim in E. destruct E as [Ew Eh].
    apply negb_false_iff, Qeq_bool_iff in Ew.
    apply negb_false_iff, Qeq_bool_iff in Eh.
    split.
    + rewrite <- (Qfloor_comp _ _ Ew). symmetry. apply Qfloor_Z.
    + rewrite <- (Qfloor_comp _ _ Eh). symmetry. apply Qfloor_Z.
Qed.

(** C4 (as the code has it).  When a render that was not cancelled reaches
    the canvas at scale [s], the raster's pixel dimensions become the
    integer parts of the viewport's dimensions at scale [s]: for a viewport
    that scales the natural dimensions linearly,
    [floor (naturalWidth * s)] by [floor (naturalHeight * s)].  The
    fractional part is dropped, not rounded to nearest. *)
Theorem raster_dimensions
  (page : PDFPageProxy) (s : Q) (g : nat) (sf : Surface) (c : Canvas)
  (Hlive : isCancelled (instances sf g) = false)
  (Hscale : r_scale (props (instances sf g)) = s)
  (Hcanvas : canvas sf = Some c)
  (Hw : vp_width (getViewport page s) == naturalWidth page * s)
  (Hh : vp_height (getViewport page s) == naturalHeight page * s)
  (Hwr : 0 <= naturalWidth page * s
         /\ naturalWidth page * s < inject_Z (2 ^ 32))
  (Hhr : 0 <= naturalHeight page * s
         /\ naturalHeight page * s < inject_Z (2 ^ 32)) :
  exists c',
    canvas (afterGetPage g page true sf) = Some c'
    /\ canvas_width c' = Qfloor (naturalWidth page * s)
    /\ canvas_height c' = Qfloor (naturalHeight page * s).
Proof.
  exists (resizeCanvas c (getViewport page s)).
  split.
  - unfold afterGetPage. rewrite Hlive, Hcanvas, Hscale. reflexivity.
  - destruct Hwr as [Hw0 Hw1], Hhr as [Hh0 Hh1].
    rewrite <- (Qfloor_comp _ _ Hw), <- (Qfloor_comp _ _ Hh).
    apply resizeCanvas_floor; rewrite ?Hw, ?Hh; assumption.
Qed.

Lemma raster_dimensions_witness :
  exists c',
    canvas (afterGetPage 0 a4Page true zoomedRender) = Some c'
    /\ canvas_width c' = Qfloor (naturalWidth a4Page * 1.5)
    /\ canvas_height c' = Qfloor (naturalHeight a4Page * 1.5).
Proof.
  assert (Hw : vp_width (getViewport a4Page 1.5) == naturalWidth a4Page * 1.5)
    by reflexivity.
  assert (Hh : vp_height (getViewport a4Page 1.5)
               == naturalHeight a4Page * 1.5) by reflexivity.
  assert (Hwr : 0 <= naturalWidth a4Page * 1.5
                /\ naturalWidth a4Page * 1.5 < inject_Z (2 ^ 32))
    by (split; [discriminate | reflexivity]).
  assert (Hhr : 0 <= naturalHeight a4Page * 1.5
                /\ naturalHeight a4Page * 1.5 < inject_Z (2 ^ 32))
    by (split; [discriminate | reflexivity]).
  exact (raster_dimensions a4Page 1.5 0 zoomedRender (mkCanvas 300 150)
           eq_refl eq_refl eq_refl Hw Hh Hwr Hhr).
Defined.

(** C4 (counterexample to rounding).  An A4 page rendered at scale 1, a
    scale inside [0.4, 4.0], gets a raster 841 pixels high, while
    [round (naturalHeight * 1)] is 842. *)
Lemma raster_dimensions_not_rounded :
  0.4 <= 1 /\ 1 <= 4.0
  /\ canvas (afterGetPage 0 a4Page true firstRender)
     = Some (mkCanvas 595 841)
  /\ Math_round (naturalHeight a4Page * 1) = 842%Z
  /\ ~ (forall (page : PDFPageProxy) (s : Q) (sf : Surface) (g : nat),
          0.4 <= s -> s <= 4.0 ->
          isCancelled (instances sf g) = false ->
          r_scale (props (instances sf g)) = s ->
          canvas sf <> None ->
          canvas (afterGetPage g page true sf)
          = Some (mkCanvas (Math_round (naturalWidth page * s))
                           (Math_round (naturalHeight page * s)))).
Proof.
  split; [discriminate|]. split; [discriminate|].
  split; [reflexivity|]. split; [reflexivity|].
  intro H.
  specialize (H a4Page 1 firstRender 0%nat).
  assert (E : canvas (afterGetPage 0 a4Page true firstRender)
              = Some (mkCanvas 595 842)).
  { apply H; try reflexivity; discriminate. }
  discriminate E.
Qed.

(** ** Word spacing *)

Lemma append_assoc (a b c : string) :
  ((a ++ b) ++ c)%string = (a ++ b ++ c)%string.
Proof. induction a as [|ch a IH]; simpl; [reflexivity | now rewrite IH]. Qed.

Lemma append_empty_r (a : string) : (a ++ EmptyString)%string = a.
Proof. induction a as [|ch a IH]; simpl; [reflexivity | now rewrite IH]. Qed.

Lemma gap_test (lastEnd x : Q) : Qltb (lastEnd + 3) x = Qltb 3 (x - lastEnd).
Proof.
  destruct (Qltb 3 (x - lastEnd)) eqn:E.
  - apply Qltb_lt in E. apply Qltb_lt.
    apply (Qplus_lt_l _ _ lastEnd) in E.
    setoid_replace (x - lastEnd + lastEnd) with x in E by ring.
    now rewrite Qplus_comm.
  - apply Qltb_ge in E. apply Qltb_ge.
    apply (Qplus_le_l _ _ lastEnd) in E.
    setoid_replace (x - lastEnd + lastEnd) with x in E by ring.
    now rewrite Qplus_comm.
Qed.

Lemma spacingStep_after (prev it : PDFTextItem) (s : string) :
  ~ rightEdge prev == -1 ->
  spacingStep (s, rightEdge prev) it
  = ((s ++ (if Qltb 3 (gapBetween prev it) then " " else EmptyString)
        ++ str it)%string, rightEdge it).
Proof.
  intro Hp. unfold spacingStep.
  assert (Hs : Qeq_bool (rightEdge prev) (-1) = false).
  { destruct (Qeq_bool (rightEdge prev) (-1)) eqn:E; [|reflexivity].
    apply Qeq_bool_iff in E. contradiction. }
  rewrite Hs. simpl negb. cbv iota.
  rewrite gap_test. fold (gapBetween prev it). fold (rightEdge it).
  destruct (Qltb 3 (gapBetween prev it)); simpl; now rewrite ?append_assoc.
Qed.

Lemma spacing_loop (prev : PDFTextItem) (rest : list PDFTextItem) (s : string) :
  ~ rightEdge prev == -1 ->
  Forall (fun it => ~ rightEdge it == -1) rest ->
  fst (fold_left spacingStep rest (s, rightEdge prev))
  = (s ++ joinByGap prev rest)%string.
Proof.
  revert prev s. induction rest as [|it rest IH]; intros prev s Hp Hr.
  - simpl. now rewrite append_empty_r.
  - inversion Hr as [|? ? Hit Hrest]; subst.
    change (fold_left spacingStep (it :: rest) (s, rightEdge prev))
      with (fold_left spacingStep rest (spacingStep (s, rightEdge prev) it)).
    rewrite (spacingStep_after prev it s Hp).
    rewrite (IH it _ Hit Hrest). simpl joinByGap.
    now rewrite !append_assoc.
Qed.

(** Whenever no item's right edge is exactly -1, the loop inserts a space
    between two consecutive items if and only if their gap exceeds 3. *)
Lemma lineText_by_gap (items : list PDFTextItem) :
  Forall (fun it => ~ rightEdge it == -1) items ->
  lineText items = lineTextByGap items.
Proof.
  destruct items as [|it rest]; intro H; [reflexivity|].
  inversion H as [|? ? Hit Hrest]; subst.
  unfold lineText.
  change (fold_left spacingStep (it :: rest) (EmptyString, -1))
    with (fold_left spacingStep rest (str it, rightEdge it)).
  now rewrite spacing_loop.
Qed.

Lemma lineText_examples :
  lineText [hello50; world53] = "HelloWorld"%string
  /\ lineText [hello50; world54] = "Hello World"%string
  /\ gapBetween hello50 world53 == 3
  /\ gapBetween hello50 world54 == 4.
Proof. repeat split. Qed.

(** C5 (evaluation at the failing input).  "Hello" spans x = -11 .. -1 and
    "World" starts at x = 100: the gap is 101, more than 3, and the loop
    joins them without a space, because the right edge -1 of "Hello" is
    the value the loop uses for "no previous item". *)
Theorem sentinel_hides_gap :
  rightEdge helloEndingAtMinus1 == -1
  /\ 3 < gapBetween helloEndingAtMinus1 world100
  /\ lineText [helloEndingAtMinus1; world100] = "HelloWorld"%string
  /\ lineTextByGap [helloEndingAtMinus1; world100] = "Hello World"%string.
Proof. repeat split. Qed.

(** ** Sorting *)

Section SortBy.
Context {A : Type}.
Variable cmp : A -> A -> Q.

Hypothesis cmp_total : forall x y, before cmp x y \/ before cmp y x.
Hypothesis cmp_trans :
  forall x y z, before cmp x y -> before cmp y z -> before cmp x z.

Lemma insertBy_perm (x : A) (l : list A) :
  Permutation (insertBy cmp x l) (x :: l).
Proof.
  induction l as [|y l IH]; simpl; [apply Permutation_refl|].
  destruct (Qle_bool (cmp x y) 0); [apply Permutation_refl|].
  eapply Permutation_trans; [apply perm_skip, IH | apply perm_swap].
Qed.

Lemma sortBy_perm (l : list A) : Permutation (sortBy cmp l) l.
Proof.
  induction l as [|x l IH]; simpl; [constructor|].
  eapply Permutation_trans; [apply insertBy_perm | now apply perm_skip].
Qed.

Lemma insertBy_sorted (x : A) (l : list A) :
  StronglySorted (before cmp) l ->
  StronglySorted (before cmp) (insertBy cmp x l).
Proof.
  induction 1 as [|y l Hs IH Hall]; simpl.
  - constructor; constructor.
  - destruct (Qle_bool (cmp x y) 0) eqn:E.
    + apply Qle_bool_iff in E.
      constructor; [constructor; assumption|].
      constructor; [exact E|].
      eapply Forall_impl; [|exact Hall].
      intros z Hz. exact (cmp_trans x y z E Hz).
    + assert (Hyx : before cmp y x).
      { destruct (cmp_total x y) as [H|H]; [|exact H].
        apply Qle_bool_iff in H. unfold before in *. congruence. }
      constructor; [exact IH|].
      eapply Permutation_Forall.
      * apply Permutation_sym, insertBy_perm.
      * constructor; assumption.
Qed.

Lemma sortBy_sorted (l : list A) : StronglySorted (before cmp) (sortBy cmp l).
Proof.
  induction l as [|x l IH]; simpl; [constructor|].
  now apply insertBy_sorted.
Qed.
End SortBy.

Lemma Qminus_le_0 (a b : Q) : a - b <= 0 <-> a <= b.
Proof.
  split; intro H.
  - apply (Qplus_le_l _ _ b) in H.
    setoid_replace (a - b + b) with a in H by ring.
    now rewrite Qplus_0_l in H.
  - apply (Qplus_le_l _ _ b).
    setoid_replace (a - b + b) with a by ring.
    now rewrite Qplus_0_l.
Qed.

Lemma sortBy_rel_sorted {A : Type} (cmp : A -> A -> Q) (R : A -> A -> Prop)
  (l : list A) :
  (forall x y, cmp x y <= 0 <-> R x y) ->
  (forall x y, R x y \/ R y x) ->
  (forall x y z, R x y -> R y z -> R x z) ->
  StronglySorted R (sortBy cmp l).
Proof.
  intros Hiff Htot Htrans.
  assert (H : StronglySorted (before cmp) (sortBy cmp l)).
  { apply sortBy_sorted; unfold before.
    - intros x y. rewrite !Hiff. apply Htot.
    - intros x y z. rewrite !Hiff. apply Htrans. }
  revert H. generalize (sortBy cmp l). intros l' H.
  induction H as [|a l0 Hs IH Hall]; constructor; [exact IH|].
  eapply Forall_impl; [|exact Hall].
  intros b Hb. now apply Hiff.
Qed.

Lemma sortItems_sorted (items : list PDFTextItem) :
  StronglySorted (fun a b => item_x a <= item_x b) (sortItems items).
Proof.
  apply sortBy_rel_sorted.
  - intros x y. apply Qminus_le_0.
  - intros x y. destruct (Qlt_le_dec (item_x y) (item_x x)) as [L|L].
    + right. now apply Qlt_le_weak.
    + now left.
  - intros x y z. apply Qle_trans.
Qed.

Lemma sortLines_sorted (lines : list Line) :
  StronglySorted (fun a b => line_y b <= line_y a) (sortLines lines).
Proof.
  apply sortBy_rel_sorted.
  - intros x y. apply Qminus_le_0.
  - intros x y. destruct (Qlt_le_dec (line_y y) (line_y x)) as [L|L].
    + left. now apply Qlt_le_weak.
    + now right.
  - intros x y z Hxy Hyz. now apply Qle_trans with (line_y y).
Qed.

(** ** Line grouping *)

Lemma pushToLine_cons (y : Q) (item : PDFTextItem) (l : Line)
  (rest : list Line) :
  pushToLine y item (l :: rest)
  = if Qltb (Qabs (line_y l - y)) yTolerance
    then Some (mkLine (line_y l) (line_items l ++ [item]) :: rest)
    else option_map (cons l) (pushToLine y item rest).
Proof. reflexivity. Qed.

Lemma pushToLine_items (y : Q) (item : PDFTextItem) (lines lines' : list Line) :
  pushToLine y item lines = Some lines' ->
  Permutation (List.concat (map line_items lines'))
              (item :: List.concat (map line_items lines)).
Proof.
  revert lines'. induction lines as [|l rest IH]; intros lines' H.
  - discriminate.
  - rewrite pushToLine_cons in H.
    destruct (Qltb (Qabs (line_y l - y)) yTolerance).
    + injection H as <-. simpl. rewrite <- app_assoc. simpl.
      apply Permutation_sym, Permutation_middle.
    + destruct (pushToLine y item rest) as [rest'|]; [|discriminate].
      injection H as <-. simpl.
      eapply Permutation_trans;
        [apply Permutation_app_head, (IH rest' eq_refl)|].
      apply Permutation_sym, Permutation_middle.
Qed.

Lemma pushToLine_ys (y : Q) (item : PDFTextItem) (lines lines' : list Line) :
  pushToLine y item lines = Some lines' ->
  map line_y lines' = map line_y lines.
Proof.
  revert lines'. induction lines as [|l rest IH]; intros lines' H.
  - discriminate.
  - rewrite pushToLine_cons in H.
    destruct (Qltb (Qabs (line_y l - y)) yTolerance).
    + injection H as <-. reflexivity.
    + destruct (pushToLine y item rest) as [rest'|]; [|discriminate].
      injection H as <-. simpl. now rewrite (IH rest' eq_refl).
Qed.

Lemma pushToLine_anchored (item : PDFTextItem) (lines lines' : list Line) :
  transform item <> None ->
  Forall anchored lines ->
  pushToLine (item_y item) item lines = Some lines' ->
  Forall anchored lines'.
Proof.
  intros Ht. revert lines'.
  induction lines as [|l rest IH]; intros lines' Hall H.
  - discriminate.
  - rewrite pushToLine_cons in H.
    inversion Hall as [|? ? Hl Hrest]; subst.
    destruct (Qltb (Qabs (line_y l - item_y item)) yTolerance) eqn:E.
    + injection H as <-. constructor; [|exact Hrest].
      unfold anchored in *. simpl.
      destruct (line_items l) as [|first others]; [contradiction|].
      simpl. destruct Hl as [Hy Hin]. split; [exact Hy|].
      apply Forall_app. split; [exact Hin|].
      constructor; [|constructor]. split; [exact Ht|].
      now apply Qltb_lt.
    + destruct (pushToLine (item_y item) item rest) as [rest'|];
        [|discriminate].
      injection H as <-. constructor; [exact Hl|].
      now apply IH.
Qed.

Lemma pushToLine_none (y : Q) (item : PDFTextItem) (lines : list Line) :
  pushToLine y item lines = None ->
  Forall (fun l => yTolerance <= Qabs (line_y l - y)) lines.
Proof.
  induction lines as [|l rest IH]; intro H; [constructor|].
  rewrite pushToLine_cons in H.
  destruct (Qltb (Qabs (line_y l - y)) yTolerance) eqn:E; [discriminate|].
  destruct (pushToLine y item rest); [discriminate|].
  constructor; [now apply Qltb_ge | now apply IH].
Qed.

(** An item with a transform joins the first line, in the order the lines
    were opened, whose [y] is less than the tolerance away from its own,
    and opens a new line at the end when there is none. *)
Lemma groupStep_first_fit (lines : list Line) (item : PDFTextItem) :
  transform item <> None ->
  (exists pre l post,
      lines = pre ++ l :: post
      /\ Forall (fun l' => yTolerance <= Qabs (line_y l' - item_y item)) pre
      /\ Qabs (line_y l - item_y item) < yTolerance
      /\ groupStep lines item
         = pre ++ mkLine (line_y l) (line_items l ++ [item]) :: post)
  \/ (Forall (fun l' => yTolerance <= Qabs (line_y l' - item_y item)) lines
      /\ groupStep lines item = lines ++ [mkLine (item_y item) [item]]).
Proof.
  intro Ht. unfold groupStep, item_y.
  destruct (transform item) as [t|]; [clear Ht | now elim Ht].
  induction lines as [|l rest IH].
  - right. split; [constructor | reflexivity].
  - rewrite pushToLine_cons.
    destruct (Qltb (Qabs (line_y l - tx5 t)) yTolerance) eqn:E.
    + left. exists [], l, rest. split; [reflexivity|].
      split; [constructor|]. split; [now apply Qltb_lt | reflexivity].
    + apply Qltb_ge in E.
      destruct IH as [(pre & l0 & post & Hl & Hfar & Hnear & Hstep)
                     |(Hfar & Hstep)].
      * left. exists (l :: pre), l0, post.
        split; [now rewrite Hl|]. split; [now constructor|].
        split; [exact Hnear|].
        destruct (pushToLine (tx5 t) item rest) as [rest'|]; simpl.
        -- now rewrite Hstep.
        -- rewrite Hl in Hstep. exfalso.
           apply (f_equal (@List.length Line)) in Hstep.
           rewrite !length_app in Hstep. simpl in Hstep. lia.
      * right. split; [now constructor|].
        destruct (pushToLine (tx5 t) item rest) as [rest'|] eqn:Ep; simpl.
        -- exfalso. apply pushToLine_ys in Ep.
           apply (f_equal (@List.length Q)) in Ep.
           rewrite Hstep, !length_map, length_app in Ep. simpl in Ep. lia.
        -- reflexivity.
Qed.

Lemma groupStep_items (lines : list Line) (item : PDFTextItem) :
  Permutation (List.concat (map line_items (groupStep lines item)))
              (List.concat (map line_items lines) ++ [item]).
Proof.
  assert (Hnew : forall y,
             Permutation
               (List.concat (map line_items (lines ++ [mkLine y [item]])))
               (List.concat (map line_items lines) ++ [item])).
  { intro y. rewrite map_app, concat_app. simpl. apply Permutation_refl. }
  unfold groupStep. destruct (transform item) as [t|]; [|apply Hnew].
  destruct (pushToLine (tx5 t) item lines) as [lines'|] eqn:E; [|apply Hnew].
  eapply Permutation_trans; [apply (pushToLine_items _ _ _ _ E)|].
  apply Permutation_cons_append.
Qed.

Lemma groupStep_anchored (lines : list Line) (item : PDFTextItem) :
  Forall anchored lines -> Forall anchored (groupStep lines item).
Proof.
  intro Hall. unfold groupStep.
  destruct (transform item) as [t|] eqn:Et.
  - assert (Hy : tx5 t = item_y item) by (unfold item_y; now rewrite Et).
    rewrite Hy.
    destruct (pushToLine (item_y item) item lines) as [lines'|] eqn:E.
    + apply (pushToLine_anchored item lines lines'); [congruence | exact Hall
                                                     | exact E].
    + apply Forall_app. split; [exact Hall|].
      constructor; [|constructor]. unfold anchored. simpl.
      split; [reflexivity|constructor].
  - apply Forall_app. split; [exact Hall|].
    constructor; [|constructor]. unfold anchored. simpl.
    split; [unfold item_y; now rewrite Et | constructor].
Qed.

Lemma fold_groupStep (items : list PDFTextItem) (lines : list Line) :
  Forall anchored lines ->
  Forall anchored (fold_left groupStep items lines)
  /\ Permutation
       (List.concat (map line_items (fold_left groupStep items lines)))
       (List.concat (map line_items lines) ++ items).
Proof.
  revert lines. induction items as [|it items IH]; intros lines Hall; simpl.
  - split; [exact Hall | now rewrite app_nil_r].
  - destruct (IH (groupStep lines it) (groupStep_anchored lines it Hall))
      as [Ha Hp].
    split; [exact Ha|].
    eapply Permutation_trans; [exact Hp|].
    eapply Permutation_trans;
      [apply Permutation_app_tail, groupStep_items|].
    rewrite <- app_assoc. apply Permutation_refl.
Qed.

(** Lines opened by items that all have a transform are at least the
    tolerance apart from one another. *)
Lemma fold_groupStep_apart (items : list PDFTextItem) (lines : list Line) :
  Forall (fun it => transform it <> None) items ->
  ForallOrdPairs (fun l1 l2 => yTolerance <= Qabs (line_y l1 - line_y l2))
                 lines ->
  ForallOrdPairs (fun l1 l2 => yTolerance <= Qabs (line_y l1 - line_y l2))
                 (fold_left groupStep items lines).
Proof.
  revert lines. induction items as [|it items IH]; intros lines Ht Hp; simpl.
  - exact Hp.
  - inversion Ht as [|? ? Hit Hrest]; subst.
    apply IH; [exact Hrest|].
    unfold groupStep. destruct (transform it) as [t|]; [|now elim Hit].
    destruct (pushToLine (tx5 t) it lines) as [lines'|] eqn:E.
    + pose proof (pushToLine_ys _ _ _ _ E) as Hys.
      clear - Hp Hys. revert lines' Hys.
      induction Hp as [|l rest Hl Hrest IHp]; intros lines' Hys.
      * destruct lines'; [constructor | discriminate].
      * destruct lines' as [|l' rest']; [discriminate|].
        simpl in Hys. injection Hys as Hy Hys.
        constructor; [|now apply IHp].
        rewrite Hy. clear - Hl Hys. revert rest' Hys.
        induction Hl as [|m rest Hm Hl IHl]; intros rest' Hys.
        -- destruct rest'; [constructor | discriminate].
        -- destruct rest' as [|m' rest'']; [discriminate|].
           simpl in Hys. injection Hys as Hmy Hys.
           constructor; [now rewrite Hmy | now apply IHl].
    + pose proof (pushToLine_none _ _ _ E) as Hfar.
      clear - Hp Hfar. induction Hp as [|l rest Hl Hrest IHp]; simpl.
      * constructor; constructor.
      * inversion Hfar as [|? ? Hl0 Hfar']; subst.
        constructor; [|now apply IHp].
        apply Forall_app. split; [exact Hl|].
        constructor; [exact Hl0 | constructor].
Qed.

Lemma groupLines_pair (a b : PDFTextItem) :
  transform a <> None -> transform b <> None ->
  groupLines [a; b]
  = if Qltb (Qabs (item_y a - item_y b)) yTolerance
    then [mkLine (item_y a) [a; b]]
    else [mkLine (item_y a) [a]; mkLine (item_y b) [b]].
Proof.
  intros Ha Hb. unfold groupLines, item_y.
  cbn [fold_left]. unfold groupStep.
  destruct (transform a) as [ta|]; [|now elim Ha].
  destruct (transform b) as [tb|]; [|now elim Hb].
  cbn [pushToLine app line_y line_items option_map].
  destruct (Qltb (Qabs (tx5 ta - tx5 tb)) yTolerance); reflexivity.
Qed.

(** C6 (as the code has it).  Grouping is anchored at the item that opens
    a line: every item lands in exactly one line; a line's [y] is the [y]
    of its first item and every later item of the line is less than 6 away
    from that [y]; lines opened by items with a transform are at least 6
    apart; an item joins the first line whose [y] is less than 6 away from
    its own and opens a new line when there is none; two items alone share
    a line exactly when their [y] differ by less than 6 (100 and 104 share
    one, 100 and 110 make two).  Lines are
    then ordered by descending [y] and the items of each line by ascending
    [x], both orders being rearrangements of what grouping produced. *)
Theorem line_grouping_and_order
  (items : list PDFTextItem) (a b : PDFTextItem)
  (Hitems : Forall (fun it => transform it <> None) items)
  (Ha : transform a <> None) (Hb : transform b <> None) :
  Permutation (List.concat (map line_items (groupLines items))) items
  /\ Forall anchored (groupLines items)
  /\ ForallOrdPairs (fun l1 l2 => yTolerance <= Qabs (line_y l1 - line_y l2))
                    (groupLines items)
  /\ (forall lines,
        (exists pre l post,
            lines = pre ++ l :: post
            /\ Forall (fun l' => 6 <= Qabs (line_y l' - item_y a)) pre
            /\ Qabs (line_y l - item_y a) < 6
            /\ groupStep lines a
               = pre ++ mkLine (line_y l) (line_items l ++ [a]) :: post)
        \/ (Forall (fun l' => 6 <= Qabs (line_y l' - item_y a)) lines
            /\ groupStep lines a = lines ++ [mkLine (item_y a) [a]]))
  /\ (Qabs (item_y a - item_y b) < 6 ->
      groupLines [a; b] = [mkLine (item_y a) [a; b]])
  /\ (6 <= Qabs (item_y a - item_y b) ->
      groupLines [a; b] = [mkLine (item_y a) [a]; mkLine (item_y b) [b]])
  /\ groupLines [at100; at104] = [mkLine 100 [at100; at104]]
  /\ groupLines [at100; at110] = [mkLine 100 [at100]; mkLine 110 [at110]]
  /\ StronglySorted (fun l1 l2 => line_y l2 <= line_y l1)
                    (sortLines (groupLines items))
  /\ Permutation (sortLines (groupLines items)) (groupLines items)
  /\ Forall (fun l =>
               StronglySorted (fun x y => item_x x <= item_x y)
                              (sortItems (line_items l))
               /\ Permutation (sortItems (line_items l)) (line_items l))
            (sortLines (groupLines items))
  /\ pageBody items
     = String.concat newline
         (map (fun l => lineText (sortItems (line_items l)))
              (sortLines (groupLines items))).
Proof.
  destruct (fold_groupStep items [] (Forall_nil _)) as [Hanch Hperm].
  repeat split.
  - exact Hperm.
  - exact Hanch.
  - apply fold_groupStep_apart; [exact Hitems | constructor].
  - intro lines. exact (groupStep_first_fit lines a Ha).
  - intro H. rewrite (groupLines_pair a b Ha Hb).
    apply Qltb_lt in H. unfold yTolerance. now rewrite H.
  - intro H. rewrite (groupLines_pair a b Ha Hb).
    apply Qltb_ge in H. unfold yTolerance. now rewrite H.
  - apply sortLines_sorted.
  - apply sortBy_perm.
  - apply Forall_forall. intros l _. split.
    + apply sortItems_sorted.
    + apply sortBy_perm.
Qed.

Lemma line_grouping_and_order_witness :
  Forall (fun it => transform it <> None) [at100; at105; at110]
  /\ transform at100 <> None /\ transform at104 <> None
  /\ Forall anchored (groupLines [at100; at105; at110])
  /\ (Qabs (item_y at100 - item_y at104) < 6 ->
      groupLines [at100; at104] = [mkLine (item_y at100) [at100; at104]]).
Proof.
  assert (H3 : Forall (fun it => transform it <> None) [at100; at105; at110])
    by (repeat constructor; discriminate).
  assert (Ha : transform at100 <> None) by discriminate.
  assert (Hb : transform at104 <> None) by discriminate.
  pose proof (line_grouping_and_order [at100; at105; at110] at100 at104
                H3 Ha Hb) as H.
  split; [exact H3|]. split; [exact Ha|]. split; [exact Hb|].
  split; [exact (proj1 (proj2 H))
         | exact (proj1 (proj2 (proj2 (proj2 (proj2 H)))))].
Defined.

(** C6 (counterexample to grouping by pairwise distance).  With items at
    y = 100, 105 and 110, the item at 105 joins the line anchored at 100
    and the item at 110 opens its own line: the items at 105 and 110 differ
    by 5, less than 6, and are in different lines. *)
Lemma grouping_not_by_pairwise_distance :
  groupLines [at100; at105; at110]
  = [mkLine 100 [at100; at105]; mkLine 110 [at110]]
  /\ Qabs (item_y at105 - item_y at110) < 6
  /\ ~ (forall (items : list PDFTextItem) (x y : PDFTextItem),
          In x items -> In y items ->
          Qabs (item_y x - item_y y) < 6 ->
          exists l, In l (groupLines items)
                    /\ In x (line_items l) /\ In y (line_items l)).
Proof.
  split; [reflexivity|]. split; [reflexivity|].
  intro H.
  destruct (H [at100; at105; at110] at105 at110) as (l & Hl & Hx & Hy).
  - right; left; reflexivity.
  - right; right; left; reflexivity.
  - reflexivity.
  - change (groupLines [at100; at105; at110])
      with [mkLine 100 [at100; at105]; mkLine 110 [at110]] in Hl.
    destruct Hl as [<-|[<-|[]]]; simpl in Hx, Hy.
    + destruct Hy as [E|[E|[]]]; discriminate E.
    + destruct Hx as [E|[]]; discriminate E.
Qed.

(** ** The text context *)

Lemma prefix_append (a b : string) : prefix a (a ++ b) = true.
Proof.
  induction a as [|ch a IH]; simpl; [now destruct b|].
  destruct (ascii_dec ch ch) as [_|N]; [exact IH | now elim N].
Qed.

Lemma getPageText_out_of_range (doc : PDFDocumentProxy) (numPages idx : Z) :
  inRange numPages idx = false -> getPageText doc numPages idx = Null.
Proof.
  unfold inRange, getPageText. intro H.
  destruct (Z.ltb_spec idx 0), (Z.leb_spec numPages idx); try reflexivity.
  exfalso. apply andb_false_iff in H.
  destruct H as [H|H]; [apply Z.leb_gt in H | apply Z.ltb_ge in H]; lia.
Qed.

Lemma getPageText_in_range (doc : PDFDocumentProxy) (numPages idx : Z) :
  inRange numPages idx = true ->
  getPageText doc numPages idx
  = match fetched doc idx with
    | None => Rejected
    | Some [] => Text EmptyString
    | Some items => Text (pageMarker idx ++ pageBody items ++ newline)%string
    end.
Proof.
  unfold inRange, getPageText, fetched. intro H.
  apply andb_true_iff in H. destruct H as [H0 H1].
  apply Z.leb_le in H0. apply Z.ltb_lt in H1.
  destruct (Z.ltb_spec idx 0), (Z.leb_spec numPages idx); try lia.
  simpl. destruct (getPage doc (idx + 1)); reflexivity.
Qed.

Lemma truthy_marked (idx : Z) (s : string) :
  truthy (Text (pageMarker idx ++ s)%string) = true.
Proof. reflexivity. Qed.

Lemma window_results (doc : PDFDocumentProxy) (numPages : Z) (idxs : list Z) :
  (forall idx, In idx idxs -> inRange numPages idx = true ->
               fetched doc idx <> None) ->
  existsb isRejected (map (getPageText doc numPages) idxs) = false
  /\ map textOf (filter truthy (map (getPageText doc numPages) idxs))
     = map (markedText doc)
           (filter (fun idx => inRange numPages idx && hasItems doc idx) idxs).
Proof.
  induction idxs as [|idx idxs IH]; intro Hf; [split; reflexivity|].
  destruct IH as [IH1 IH2].
  { intros i Hi. apply Hf. now right. }
  assert (Hidx := Hf idx (or_introl eq_refl)).
  cbn [map existsb filter].
  destruct (inRange numPages idx) eqn:Er.
  - destruct (fetched doc idx) as [[|it items]|] eqn:Ef; [| |now elim Hidx].
    + assert (G : getPageText doc numPages idx = Text EmptyString).
      { rewrite (getPageText_in_range doc numPages idx Er). now rewrite Ef. }
      assert (Hh : hasItems doc idx = false).
      { unfold hasItems. now rewrite Ef. }
      rewrite G, Hh. simpl. split; [exact IH1 | exact IH2].
    + assert (G : getPageText doc numPages idx = Text (markedText doc idx)).
      { rewrite (getPageText_in_range doc numPages idx Er).
        unfold markedText. now rewrite Ef. }
      assert (T : truthy (Text (markedText doc idx)) = true).
      { unfold markedText. rewrite Ef. apply truthy_marked. }
      assert (Hh : hasItems doc idx = true).
      { unfold hasItems. now rewrite Ef. }
      rewrite G, T, Hh. cbn [isRejected orb andb map textOf].
      split; [exact IH1 | now rewrite IH2].
  - rewrite (getPageText_out_of_range doc numPages idx Er).
    simpl. split; [exact IH1 | exact IH2].
Qed.

(** C7 (as the code has it).  When no fetch of an in-range page rejects,
    the text handed to [onPageText] is the texts of the pages current-1,
    current, current+1 that are in range and have at least one text item,
    in that order and separated by a line break; each of these texts starts
    with the marker naming the page's 1-based number.  An out-of-range index
    yields [null] and an in-range page without text items yields the empty
    string; both are left out, without a marker. *)
Theorem text_context_window
  (doc : PDFDocumentProxy) (numPages visible : Z)
  (Hfetch : forall idx, In idx [visible - 1; visible; visible + 1]%Z ->
                        inRange numPages idx = true ->
                        fetched doc idx <> None) :
  extractText doc numPages visible = Some (contextOf doc numPages visible)
  /\ (forall idx, inRange numPages idx = false ->
                  getPageText doc numPages idx = Null)
  /\ (forall idx, inRange numPages idx = true ->
                  fetched doc idx = Some [] ->
                  getPageText doc numPages idx = Text EmptyString)
  /\ (forall idx it items,
         inRange numPages idx = true ->
         fetched doc idx = Some (it :: items) ->
         getPageText doc numPages idx = Text (markedText doc idx)
         /\ markedText doc idx
            = ("--- [Page " ++ Z_to_string (idx + 1) ++ "] ---" ++ newline
               ++ pageBody (it :: items) ++ newline)%string
         /\ prefix (pageMarker idx) (markedText doc idx) = true).
Proof.
  split; [|split; [|split]].
  - destruct (window_results doc numPages _ Hfetch) as [Hrej Htexts].
    unfold extractText, contextOf. cbv zeta. rewrite Hrej. now rewrite Htexts.
  - intros idx. apply getPageText_out_of_range.
  - intros idx Hr Hf. rewrite (getPageText_in_range doc numPages idx Hr).
    now rewrite Hf.
  - intros idx it items Hr Hf.
    rewrite (getPageText_in_range doc numPages idx Hr).
    unfold markedText. rewrite Hf. split; [reflexivity|]. split.
    + unfold pageMarker. now rewrite !append_assoc.
    + apply prefix_append.
Qed.

Lemma text_context_window_witness :
  (forall idx, In idx [0 - 1; 0; 0 + 1]%Z ->
               inRange 3 idx = true -> fetched threePages idx <> None)
  /\ extractText threePages 3 0 = Some (contextOf threePages 3 0).
Proof.
  assert (H : forall idx, In idx [0 - 1; 0; 0 + 1]%Z ->
                          inRange 3 idx = true ->
                          fetched threePages idx <> None).
  { intros idx [<-|[<-|[<-|[]]]] Hr; vm_compute in Hr |- *;
      congruence. }
  split; [exact H|].
  exact (proj1 (text_context_window threePages 3 0 H)).
Defined.

Lemma text_context_example :
  extractText threePages 3 0
  = Some ("--- [Page 1] ---" ++ newline ++ "one" ++ newline ++ newline
          ++ "--- [Page 2] ---" ++ newline ++ "two" ++ newline)%string.
Proof. reflexivity. Qed.

(** C7 (counterexample to the marker on every in-range page).  In a
    one-page document whose page has no text items, page index 0 is in
    range and is fetched, its text is the empty string, which carries no
    marker, and the delivered context is empty. *)
Lemma blank_page_has_no_marker :
  inRange 1 0 = true
  /\ getPageText blankDoc 1 0 = Text EmptyString
  /\ prefix (pageMarker 0) EmptyString = false
  /\ extractText blankDoc 1 0 = Some EmptyString
  /\ ~ (forall (doc : PDFDocumentProxy) (numPages idx : Z) (s : string),
          inRange numPages idx = true ->
          getPageText doc numPages idx = Text s ->
          prefix (pageMarker idx) s = true).
Proof.
  repeat split.
  intro H. specialize (H blankDoc 1%Z 0%Z EmptyString eq_refl eq_refl).
  discriminate H.
Qed.

(** ** Smoothed paths *)


Lemma drawSmoothPath_long (pts : list DrawingPoint) (scaleX scaleY : Q) :
  (2 <= List.length pts)%nat ->
  drawSmoothPath pts scaleX scaleY
  = [BeginPath;
     MoveTo (px (nth 0 pts origin) * scaleX) (py (nth 0 pts origin) * scaleY)]
    ++ map (smoothStep pts scaleX scaleY) (seq 1 (List.length pts - 2))
    ++ [LineTo (px (nth (List.length pts - 1) pts origin) * scaleX)
               (py (nth (List.length pts - 1) pts origin) * scaleY);
        Stroke].
Proof.
  intro H. unfold drawSmoothPath.
  destruct pts as [|p0 rest]; [simpl in H; lia|].
  destruct (Nat.ltb_spec (List.length (p0 :: rest)) 2); [lia|reflexivity].
Qed.





(** ** Fit to width, fit to page *)

Lemma clamp_spec (q : Q) :
  0.4 <= Qmin (Qmax q 0.4) 4.0 /\ Qmin (Qmax q 0.4) 4.0 <= 4.0
  /\ (0.4 <= q -> q <= 4.0 -> Qmin (Qmax q 0.4) 4.0 == q)
  /\ (q < 0.4 -> Qmin (Qmax q 0.4) 4.0 == 0.4)
  /\ (4.0 < q -> Qmin (Qmax q 0.4) 4.0 == 4.0).
Proof.
  split; [|split; [|split; [|split]]].
  - apply Q.min_glb; [apply Q.le_max_r | discriminate].
  - apply Q.le_min_r.
  - intros Hlo Hhi. rewrite (Q.max_l q 0.4 Hlo). now apply Q.min_l.
  - intro Hlo. rewrite (Q.max_r q 0.4 (Qlt_le_weak _ _ Hlo)).
    apply Q.min_l. discriminate.
  - intro Hhi.
    assert (Hlo : 0.4 <= q).
    { apply Qle_trans with 4.0; [discriminate | now apply Qlt_le_weak]. }
    rewrite (Q.max_l q 0.4 Hlo). apply Q.min_r. now apply Qlt_le_weak.
Qed.

(** C9.  With a document and a scroll container present, [handleFit]
    takes the viewport at scale 1 of the current page (page 0 when the
    index is negative), divides the container's client width (height for
    fit-to-page) less the padding of 32 by the page's natural width
    (height), and stores that quotient clamped into [0.4, 4.0]: the
    quotient itself when it lies in the range, 0.4 below it, 4.0 above it.
    Nothing else in the state changes. *)
Theorem fit_scale
  (type : FitType) (doc : PDFDocumentProxy) (container : Container)
  (st : ReaderState) (page : PDFPageProxy)
  (Hpage : getPage doc ((if (0 <=? visiblePageIndex st)%Z
                         then visiblePageIndex st else 0%Z) + 1) = Some page)
  (Hw : 0 < naturalWidth page) (Hh : 0 < naturalHeight page) :
  let quotient :=
    match type with
    | fit_width => (inject_Z (clientWidth container) - 32) / naturalWidth page
    | fit_page => (inject_Z (clientHeight container) - 32) / naturalHeight page
    end in
  let st' := handleFit type (Some doc) (Some container) st in
  0.4 <= scale st' /\ scale st' <= 4.0
  /\ (0.4 <= quotient -> quotient <= 4.0 -> scale st' == quotient)
  /\ (quotient < 0.4 -> scale st' == 0.4)
  /\ (4.0 < quotient -> scale st' == 4.0)
  /\ st' = setScale (scale st') st.
Proof.
  intros quotient st'.
  assert (E : st' = setScale (Qmin (Qmax quotient 0.4) 4.0) st).
  { unfold st', handleFit. rewrite Hpage. unfold quotient, padding.
    destruct type; reflexivity. }
  rewrite E. simpl scale.
  destruct (clamp_spec quotient) as (H1 & H2 & H3 & H4 & H5).
  repeat split; assumption.
Qed.

Lemma fit_scale_witness :
  getPage sampleDoc ((if (0 <=? visiblePageIndex sampleReader)%Z
                      then visiblePageIndex sampleReader else 0%Z) + 1)
  = Some (pageWith [])
  /\ 0 < naturalWidth (pageWith []) /\ 0 < naturalHeight (pageWith [])
  /\ scale (handleFit fit_width (Some sampleDoc) (Some sampleContainer)
                      sampleReader) == (900 - 32) / 600.
Proof.
  assert (Hw : 0 < naturalWidth (pageWith [])) by reflexivity.
  assert (Hh : 0 < naturalHeight (pageWith [])) by reflexivity.
  split; [reflexivity|]. split; [exact Hw|]. split; [exact Hh|].
  destruct (fit_scale fit_width sampleDoc sampleContainer sampleReader
              (pageWith []) eq_refl Hw Hh) as (_ & _ & H & _).
  rewrite H; [reflexivity | discriminate | discriminate].
Defined.

(** ** The noise gate *)

Lemma amplitude_scan (inputData : list Q) (m : Q) :
  let r := fold_left (fun m s => if Qltb m (Qabs s) then Qabs s else m)
                     inputData m in
  m <= r
  /\ Forall (fun s => Qabs s <= r) inputData
  /\ (r = m \/ exists s, In s inputData /\ r = Qabs s).
Proof.
  revert m. induction inputData as [|s rest IH]; intro m; simpl.
  - split; [apply Qle_refl|]. split; [constructor | now left].
  - destruct (Qltb m (Qabs s)) eqn:E.
    + apply Qltb_lt in E. destruct (IH (Qabs s)) as (H1 & H2 & H3).
      split; [apply Qle_trans with (Qabs s); [now apply Qlt_le_weak|exact H1]|].
      split; [constructor; assumption|].
      right. destruct H3 as [H3|(s' & Hin & H3)].
      * exists s. split; [now left | exact H3].
      * exists s'. split; [now right | exact H3].
    + apply Qltb_ge in E. destruct (IH m) as (H1 & H2 & H3).
      split; [exact H1|].
      split; [constructor; [now apply Qle_trans with m | exact H2]|].
      destruct H3 as [H3|(s' & Hin & H3)]; [now left|].
      right. exists s'. split; [now right | exact H3].
Qed.

(** C10.  While the session exists, a captured buffer makes
    [onaudioprocess] send exactly one audio message, carrying that buffer,
    when its largest absolute sample exceeds 0.0025, and leaves the service
    untouched, with nothing sent, when it does not; the largest absolute
    sample that the scan computes exceeds the threshold exactly when some
    sample's absolute value does. *)
Theorem noise_gate (inputData : list Q) (svc : LiveService)
  (Hactive : sessionPromise svc = true) :
  (noiseThreshold < maxAmplitude inputData ->
   sent (onaudioprocess inputData svc)
   = sent svc ++ [RealtimeAudio "audio/pcm;rate=16000" inputData])
  /\ (maxAmplitude inputData <= noiseThreshold ->
      onaudioprocess inputData svc = svc)
  /\ (sent (onaudioprocess inputData svc) <> sent svc
      <-> 0.0025 < maxAmplitude inputData)
  /\ Forall (fun s => Qabs s <= maxAmplitude inputData) inputData
  /\ (noiseThreshold < maxAmplitude inputData
      <-> exists s, In s inputData /\ noiseThreshold < Qabs s).
Proof.
  destruct (amplitude_scan inputData 0) as (H0 & Hub & Hmax).
  fold (maxAmplitude inputData) in H0, Hub, Hmax.
  assert (Hsend : noiseThreshold < maxAmplitude inputData ->
                  sent (onaudioprocess inputData svc)
                  = sent svc
                    ++ [RealtimeAudio "audio/pcm;rate=16000" inputData]).
  { intro H. apply Qltb_lt in H. unfold onaudioprocess.
    now rewrite H, Hactive. }
  assert (Hdrop : maxAmplitude inputData <= noiseThreshold ->
                  onaudioprocess inputData svc = svc).
  { intro H. apply Qltb_ge in H. unfold onaudioprocess. now rewrite H. }
  split; [exact Hsend|]. split; [exact Hdrop|]. split; [|split].
  - split.
    + intro Hne. apply Qnot_le_lt. intro Hle. apply Hne.
      now rewrite (Hdrop Hle).
    + intros Hgt E. rewrite (Hsend Hgt) in E.
      apply (f_equal (@List.length Message)) in E.
      rewrite length_app in E. simpl in E. lia.
  - exact Hub.
  - split.
    + intro Hgt. destruct Hmax as [Hm|(s & Hin & Hs)].
      * rewrite Hm in Hgt. discriminate Hgt.
      * exists s. split; [exact Hin | now rewrite <- Hs].
    + intros (s & Hin & Hs).
      apply Qlt_le_trans with (Qabs s); [exact Hs|].
      rewrite Forall_forall in Hub. now apply Hub.
Qed.

Lemma noise_gate_witness :
  sessionPromise (mkLive true []) = true
  /\ sent (onaudioprocess [0.001; -0.5; 0.002] (mkLive true []))
     = [RealtimeAudio "audio/pcm;rate=16000" [0.001; -0.5; 0.002]]
  /\ onaudioprocess [0.001; -0.0025; 0.002] (mkLive true []) = mkLive true [].
Proof.
  pose proof (noise_gate [0.001; -0.5; 0.002] (mkLive true []) eq_refl)
    as (H1 & _).
  pose proof (noise_gate [0.001; -0.0025; 0.002] (mkLive true []) eq_refl)
    as (_ & H2 & _).
  split; [reflexivity|]. split.
  - apply H1. reflexivity.
  - apply H2. discriminate.
Defined.

(** ** Render supersession *)

Lemma latestBegan_bounds (h : list Entry) (g : nat) :
  fresh h -> latestBegan h = Some g ->
  forall g', In (Began g') h -> (g' <= g)%nat.
Proof.
  induction h as [|[g0|g0 w0] older IH]; intros Hf Hl g' Hin.
  - destruct Hin.
  - simpl in Hl. injection Hl as ->. destruct Hf as [Hlt _].
    destruct Hin as [E|Hin]; [injection E as ->; lia|].
    apply Hlt in Hin. lia.
  - destruct Hf as [_ Hf]. destruct Hin as [E|Hin]; [discriminate E|].
    now apply IH.
Qed.

Lemma latestBegan_app (newer older : list Entry) (g : nat) :
  (forall k, ~ In (Began k) newer) ->
  latestBegan (newer ++ Began g :: older) = Some g.
Proof.
  induction newer as [|[g0|g0 w0] newer IH]; intro Hno; simpl.
  - reflexivity.
  - exfalso. apply (Hno g0). now left.
  - apply IH. intros k Hk. apply (Hno k). now right.
Qed.

Lemma fresh_tail (e : Entry) (older : list Entry) :
  fresh (e :: older) -> fresh older.
Proof. destruct e; intros [_ H]; exact H. Qed.

Lemma fresh_NoStaleWrite (h : list Entry) : fresh h -> NoStaleWrite (rev h).
Proof.
  induction h as [|e older IH]; intros Hf before after g' g w Hsplit Hin.
  - destruct before; discriminate Hsplit.
  - simpl in Hsplit.
    destruct after as [|last after' _] using rev_ind; [destruct Hin|].
    change (before ++ Began g' :: after' ++ [last])
      with (before ++ (Began g' :: after') ++ [last]) in Hsplit.
    rewrite app_assoc in Hsplit.
    apply app_inj_tail in Hsplit. destruct Hsplit as [Hold Hlast].
    apply in_app_or in Hin. destruct Hin as [Hin|[Hin|[]]].
    + apply (IH (fresh_tail e older Hf) before after' g' g w);
        [exact Hold | exact Hin].
    + subst last e. destruct Hf as [Hl Hf].
      apply (latestBegan_bounds older g Hf Hl).
      apply in_rev. rewrite Hold. apply in_or_app. right. now left.
Qed.

Lemma fresh_OnlyLatestWrites (h : list Entry) :
  fresh h -> OnlyLatestWrites (rev h).
Proof.
  induction h as [|e older IH];
    intros Hf before after g' g w Hsplit Hno Hin.
  - destruct before; discriminate Hsplit.
  - simpl in Hsplit.
    destruct after as [|last after' _] using rev_ind; [destruct Hin|].
    change (before ++ Began g' :: after' ++ [last])
      with (before ++ (Began g' :: after') ++ [last]) in Hsplit.
    rewrite app_assoc in Hsplit.
    apply app_inj_tail in Hsplit. destruct Hsplit as [Hold Hlast].
    assert (Hno' : forall k, ~ In (Began k) after').
    { intros k Hk. apply (Hno k). apply in_or_app. now left. }
    apply in_app_or in Hin. destruct Hin as [Hin|[Hin|[]]].
    + apply (IH (fresh_tail e older Hf) before after' g' g w);
        [exact Hold | exact Hno' | exact Hin].
    + subst last e. destruct Hf as [Hl _].
      assert (E : older = rev after' ++ Began g' :: rev before).
      { rewrite <- (rev_involutive older), Hold, rev_app_distr. simpl.
        now rewrite <- app_assoc. }
      rewrite E, latestBegan_app in Hl; [congruence|].
      intros k Hk. apply (Hno' k). now apply in_rev.
Qed.

Lemma Inv_mounted : Inv mounted.
Proof.
  unfold Inv, mounted. simpl. split; [|split; [|split]].
  - intros g Hg. lia.
  - discriminate.
  - intros g [].
  - exact I.
Qed.

(** Changing the canvas, the runs and the history keeps the invariant as
    long as dead runs stay dead, no run begins and the new history is
    fresh. *)
Lemma Inv_update (s : Surface) (c : option Canvas)
  (inst' : nat -> Instance) (h' : list Entry) :
  Inv s ->
  (forall k, (k < next s)%nat -> cleanup s <> Some k ->
             dead (instances s k) -> dead (inst' k)) ->
  latestBegan h' = latestBegan (history s) ->
  (forall g', In (Began g') h' -> In (Began g') (history s)) ->
  fresh h' ->
  Inv (mkSurface c inst' (next s) (cleanup s) h').
Proof.
  intros (I1 & I2 & I3 & I4) Hdead Hlatest Hbegan Hfresh.
  unfold Inv. simpl. split; [|split; [|split]].
  - intros k Hk Hc. apply Hdead; auto.
  - intros g Hg. rewrite Hlatest. now apply I2.
  - intros g' Hg'. apply I3, Hbegan, Hg'.
  - exact Hfresh.
Qed.

Lemma setInstance_same (g : nat) (i : Instance) (f : nat -> Instance) :
  setInstance g i f g = i.
Proof. unfold setInstance. now rewrite Nat.eqb_refl. Qed.

Lemma setInstance_other (g k : nat) (i : Instance) (f : nat -> Instance) :
  k <> g -> setInstance g i f k = f k.
Proof.
  intro H. unfold setInstance.
  destruct (Nat.eqb_spec k g); [contradiction | reflexivity].
Qed.

(** A run that is not dead is the one whose cleanup is pending, hence the
    most recent one. *)
Lemma live_is_latest (s : Surface) (g : nat) :
  Inv s -> (g < next s)%nat -> ~ dead (instances s g) ->
  cleanup s = Some g /\ latestBegan (history s) = Some g.
Proof.
  intros (I1 & I2 & _) Hg Hlive.
  destruct (cleanup s) as [c|] eqn:Ec.
  - destruct (Nat.eq_dec c g) as [->|Hne].
    + split; [reflexivity | now apply I2].
    + exfalso. apply Hlive, I1; [exact Hg | congruence].
  - exfalso. apply Hlive, I1; [exact Hg | discriminate].
Qed.

Lemma fresh_write (s : Surface) (g : nat) (w : Write) :
  Inv s -> latestBegan (history s) = Some g ->
  fresh (Wrote g w :: history s).
Proof.
  intros (_ & _ & _ & I4) Hg. simpl. split; [exact Hg | exact I4].
Qed.

Lemma Inv_finish (s : Surface) (g : nat) : Inv s -> Inv (finish g s).
Proof.
  intro HI. unfold finish.
  apply Inv_update; [exact HI | | reflexivity | auto | apply HI].
  intros k Hk Hc Hd.
  destruct (Nat.eq_dec k g) as [->|Hne].
  - rewrite setInstance_same. destruct Hd as [Hd _]. now split.
  - now rewrite setInstance_other.
Qed.

Lemma Inv_runCleanup (s : Surface) :
  Inv s ->
  Inv (runCleanup s) /\ cleanup (runCleanup s) = None
  /\ next (runCleanup s) = next s
  /\ history (runCleanup s) = history s
  /\ canvas (runCleanup s) = canvas s.
Proof.
  intros (I1 & I2 & I3 & I4). unfold runCleanup.
  destruct (cleanup s) as [c|] eqn:Ec.
  - split; [|repeat split]. unfold Inv. simpl.
    split; [|split; [|split]]; [|discriminate|exact I3|exact I4].
    intros k Hk _. destruct (Nat.eq_dec k c) as [->|Hne].
    + rewrite setInstance_same. unfold dead, cancelInstance. simpl.
      split; [reflexivity|]. now destruct (phase (instances s c)).
    + rewrite setInstance_other by exact Hne. apply I1; [exact Hk|congruence].
  - split; [|repeat split; exact Ec].
    unfold Inv. rewrite Ec. split; [|split; [|split]].
    + intros k Hk _. apply I1; [exact Hk | congruence].
    + discriminate.
    + exact I3.
    + exact I4.
Qed.

Lemma Inv_runEffect (p : RenderProps) (s : Surface) :
  Inv s -> cleanup s = None -> Inv (runEffect p s).
Proof.
  intros HI Hc. pose proof HI as (I1 & I2 & I3 & I4). unfold runEffect.
  destruct (canvas s); [|exact HI].
  destruct (r_isVisible p); [|exact HI].
  unfold Inv. simpl. split; [|split; [|split]].
  - intros k Hk Hne.
    assert (Hk' : k <> next s) by congruence.
    rewrite setInstance_other by exact Hk'.
    apply I1; [lia | rewrite Hc; discriminate].
  - intros g Hg. now injection Hg as <-.
  - intros g [Hg|Hg]; [injection Hg as <-; lia|].
    apply I3 in Hg. lia.
  - split; [exact I3 | exact I4].
Qed.

Lemma Inv_afterGetPage (g : nat) (page : PDFPageProxy) (context : bool)
  (s : Surface) :
  Inv s -> (g < next s)%nat -> Inv (afterGetPage g page context s).
Proof.
  intros HI Hg. unfold afterGetPage.
  destruct (isCancelled (instances s g)) eqn:Ecan; [now apply Inv_finish|].
  destruct (canvas s) as [c|]; [|now apply Inv_finish].
  destruct context; simpl negb; cbv iota; [|now apply Inv_finish].
  assert (Hlive : ~ dead (instances s g)).
  { intros [Hd _]. congruence. }
  destruct (live_is_latest s g HI Hg Hlive) as [Hc Hlatest].
  apply Inv_update; [exact HI | | | |].
  - intros k Hk Hne Hd.
    assert (Hk' : k <> g) by congruence.
    now rewrite setInstance_other.
  - destruct (needsResize c _); reflexivity.
  - intros g' Hg'.
    destruct (needsResize c _); [|exact Hg'].
    destruct Hg' as [Hg'|Hg']; [discriminate Hg' | exact Hg'].
  - destruct (needsResize c _); [now apply fresh_write | apply HI].
Qed.

Lemma Inv_afterRender (g : nat) (viewport : PDFPageViewport) (s : Surface) :
  Inv s -> (g < next s)%nat -> Inv (afterRender g viewport s).
Proof.
  intros HI Hg. unfold afterRender.
  destruct (isCancelled (instances s g)) eqn:Ecan; [now apply Inv_finish|].
  assert (Hlive : ~ dead (instances s g)).
  { intros [Hd _]. congruence. }
  destruct (live_is_latest s g HI Hg Hlive) as [Hc Hlatest].
  pose proof (Inv_finish s g HI) as HF.
  change (next (finish g s)) with (next s).
  change (cleanup (finish g s)) with (cleanup s).
  apply (Inv_update (finish g s)); [exact HF | auto | reflexivity | |].
  - intros g' [Hg'|Hg']; [discriminate Hg' | exact Hg'].
  - apply (fresh_write (finish g s)); [exact HF | exact Hlatest].
Qed.

Lemma Inv_step (s : Surface) (l : Label) : Inv s -> Inv (step s l).
Proof.
  intro HI. destruct l as [p| |g page context|g|g|g|g]; simpl.
  - destruct (Inv_runCleanup s HI) as (HC & Hnone & _).
    now apply Inv_runEffect.
  - destruct (Inv_runCleanup s HI) as (HC & Hnone & _).
    apply (Inv_update (runCleanup s));
      [exact HC | auto | reflexivity | auto | apply HC].
  - destruct (Nat.ltb_spec g (next s)); [|exact HI].
    destruct (phase (instances s g)); try exact HI.
    now apply Inv_afterGetPage.
  - destruct (Nat.ltb_spec g (next s)); [|exact HI].
    destruct (phase (instances s g)); try exact HI.
    now apply Inv_finish.
  - destruct (Nat.ltb_spec g (next s)) as [Hg|]; [|exact HI].
    destruct (phase (instances s g)) as [|viewport [|]|] eqn:Eph;
      try exact HI.
    assert (Hlive : ~ dead (instances s g)).
    { intros [_ Hd]. rewrite Eph in Hd. discriminate Hd. }
    destruct (live_is_latest s g HI Hg Hlive) as [Hc Hlatest].
    apply Inv_update; [exact HI | auto | reflexivity | |].
    + intros g' [Hg'|Hg']; [discriminate Hg' | exact Hg'].
    + now apply fresh_write.
  - destruct (Nat.ltb_spec g (next s)); [|exact HI].
    destruct (phase (instances s g)); try exact HI.
    now apply Inv_afterRender.
  - destruct (Nat.ltb_spec g (next s)); [|exact HI].
    destruct (phase (instances s g)); try exact HI.
    now apply Inv_finish.
Qed.

Lemma Inv_steps (ls : list Label) (s : Surface) : Inv s -> Inv (steps s ls).
Proof.
  revert s. induction ls as [|l ls IH]; intros s HI; [exact HI|].
  apply (IH (step s l)). now apply Inv_step.
Qed.

(** C2.  Whatever happens to a mounted page (effect re-runs for new
    scale, activation, annotation or stroke state, unmounting, promises of
    any run settling in any order, the library painting for any task that
    was not cancelled), no run writes to the raster, be it a resize, page
    pixels or the annotation overlay, after a newer run began: every write
    that follows the beginning of a run is by that run or a later one, and
    every write that follows the beginning of the most recent run is by
    that run. *)
Theorem superseded_render_never_writes (ls : list Label) :
  NoStaleWrite (chronicle (steps mounted ls))
  /\ OnlyLatestWrites (chronicle (steps mounted ls)).
Proof.
  pose proof (Inv_steps ls mounted Inv_mounted) as (_ & _ & _ & Hf).
  unfold chronicle. split.
  - now apply fresh_NoStaleWrite.
  - now apply fresh_OnlyLatestWrites.
Qed.

Lemma superseded_render_example :
  chronicle (steps mounted supersededRun)
  = [Began 0; Wrote 0 (Resize (mkCanvas 595 841)); Wrote 0 Pixels;
     Began 1; Wrote 1 (Resize (mkCanvas 892 1262)); Wrote 1 Pixels;
     Wrote 1 (Overlay [SetLineCap round_style; SetLineJoin round_style])].
Proof. reflexivity. Qed.

(** * Further properties *)

(** ** The scale *)

Lemma zoomOut_range (st : ReaderState) :
  scale st <= 4.0 -> 0.5 <= scale (zoomOut st) /\ scale (zoomOut st) <= 4.0.
Proof.
  intro H. unfold zoomOut. simpl. split.
  - apply Q.le_max_l.
  - apply Q.max_lub; [discriminate|].
    apply Qle_trans with (scale st); [|exact H].
    apply Qminus_le_0. setoid_replace (scale st - 0.2 - scale st) with (-0.2)
      by ring. discriminate.
Qed.

Lemma zoomIn_range (st : ReaderState) (lo : Q) :
  lo <= 4.0 -> lo <= scale st ->
  lo <= scale (zoomIn st) /\ scale (zoomIn st) <= 4.0.
Proof.
  intros Hlo H. unfold zoomIn. simpl. split.
  - apply Q.min_glb; [exact Hlo|].
    apply Qle_trans with (scale st); [exact H|].
    apply Qminus_le_0. setoid_replace (scale st - (scale st + 0.2)) with (-0.2)
      by ring. discriminate.
  - apply Q.le_min_l.
Qed.

Lemma handleFit_range (type : FitType) (pdfDoc : option PDFDocumentProxy)
  (scrollContainer : option Container) (st : ReaderState) :
  0.4 <= scale st /\ scale st <= 4.0 ->
  0.4 <= scale (handleFit type pdfDoc scrollContainer st)
  /\ scale (handleFit type pdfDoc scrollContainer st) <= 4.0.
Proof.
  intro H. unfold handleFit.
  destruct pdfDoc as [doc|]; [|exact H].
  destruct scrollContainer as [container|]; [|exact H].
  destruct (getPage doc _) as [page|]; [|exact H].
  simpl scale.
  match goal with
  | |- 0.4 <= Qmin (Qmax ?q 0.4) 4.0 /\ _ =>
      destruct (clamp_spec q) as (H1 & H2 & _); split; assumption
  end.
Qed.

Lemma press_range (st : ReaderState) (b : ScaleButton) :
  0.4 <= scale st /\ scale st <= 4.0 ->
  0.4 <= scale (press st b) /\ scale (press st b) <= 4.0.
Proof.
  intros [Hlo Hhi]. destruct b as [| |type pdfDoc scrollContainer|]; simpl.
  - destruct (zoomOut_range st Hhi) as [H1 H2]. split; [|exact H2].
    apply Qle_trans with 0.5; [discriminate | exact H1].
  - apply zoomIn_range; [discriminate | exact Hlo].
  - now apply handleFit_range.
  - split; discriminate.
Qed.

(** X1.  From a scale in [0.4, 4.0] (the initial 1.2 is one), no sequence
    of zoom-out, zoom-in, fit and reset clicks takes the scale out of
    [0.4, 4.0]; without fit clicks, from a scale of at least 0.5, it stays
    in [0.5, 4.0].  Zoom-out always yields at least 0.5: pressed at a
    scale below 0.5, which only a fit can produce, it enlarges the page. *)
Theorem scale_stays_in_range (st : ReaderState) (bs : list ScaleButton)
  (Hst : 0.4 <= scale st /\ scale st <= 4.0)
  (Hsize : Forall pagesHaveSize bs) :
  (0.4 <= scale (presses st bs) /\ scale (presses st bs) <= 4.0)
  /\ (forallb (fun b => negb (isFit b)) bs = true -> 0.5 <= scale st ->
      0.5 <= scale (presses st bs))
  /\ 0.5 <= scale (zoomOut st)
  /\ (scale st < 0.5 -> scale st < scale (zoomOut st)).
Proof.
  split; [|split; [|split]].
  - clear Hsize. revert st Hst.
    induction bs as [|b bs IH]; intros st Hst; [exact Hst|].
    apply (IH (press st b)). now apply press_range.
  - clear Hsize. revert st Hst.
    induction bs as [|b bs IH]; intros st Hst Hno H05; [exact H05|].
    simpl in Hno. apply andb_true_iff in Hno. destruct Hno as [Hb Hno].
    apply (IH (press st b)); [now apply press_range | exact Hno |].
    destruct Hst as [_ Hhi].
    destruct b as [| |type pdfDoc scrollContainer|]; simpl.
    + apply (zoomOut_range st Hhi).
    + apply (zoomIn_range st 0.5); [discriminate | exact H05].
    + discriminate Hb.
    + discriminate.
  - apply (zoomOut_range st (proj2 Hst)).
  - intro H. apply Qlt_le_trans with 0.5; [exact H|].
    apply (zoomOut_range st (proj2 Hst)).
Qed.

Lemma scale_stays_in_range_witness :
  (0.4 <= scale sampleReader /\ scale sampleReader <= 4.0)
  /\ Forall pagesHaveSize sampleButtons
  /\ 0.4 <= scale (presses sampleReader sampleButtons)
  /\ scale (presses sampleReader sampleButtons) <= 4.0.
Proof.
  assert (Hst : 0.4 <= scale sampleReader /\ scale sampleReader <= 4.0)
    by (split; discriminate).
  assert (Hsize : Forall pagesHaveSize sampleButtons).
  { unfold sampleButtons.
    constructor; [exact I|]. constructor; [|constructor; [exact I|constructor]].
    intros k page E. injection E as <-. split; reflexivity. }
  split; [exact Hst|]. split; [exact Hsize|].
  exact (proj1 (scale_stays_in_range sampleReader sampleButtons Hst Hsize)).
Defined.

(** ** The canvas registry and frame capture *)

Lemma hasCanvas_filter (i j : Z) (l : list Z) :
  existsb (Z.eqb j) (filter (fun k => negb (Z.eqb i k)) l)
  = negb (Z.eqb j i) && existsb (Z.eqb j) l.
Proof.
  induction l as [|k l IH]; simpl; [now rewrite andb_false_r|].
  destruct (Z.eqb_spec i k) as [->|Hik]; simpl.
  - rewrite IH. destruct (Z.eqb_spec j k); simpl; [reflexivity|].
    reflexivity.
  - rewrite IH. destruct (Z.eqb_spec j k) as [->|Hjk]; simpl.
    + destruct (Z.eqb_spec k i); [congruence | reflexivity].
    + reflexivity.
Qed.

(** X2.  Registering a canvas for page [i] makes page [i], and no other
    page, known to the registry; unregistering it removes page [i], and no
    other page, however often it was registered; neither touches the
    annotation, the scale or a pending capture.  Once the visible page is
    unregistered, [captureFrame] does nothing. *)
Theorem canvas_registry (st : ReaderState) (i j : Z) :
  hasCanvas j (handleRegisterCanvas i true st) = Z.eqb j i || hasCanvas j st
  /\ hasCanvas j (handleRegisterCanvas i false st)
     = negb (Z.eqb j i) && hasCanvas j st
  /\ hasCanvas i
       (handleRegisterCanvas i false
          (handleRegisterCanvas i true (handleRegisterCanvas i true st)))
     = false
  /\ activeAnnotation (handleRegisterCanvas i true st) = activeAnnotation st
  /\ activeAnnotation (handleRegisterCanvas i false st) = activeAnnotation st
  /\ captureTimeout (handleRegisterCanvas i false st) = captureTimeout st
  /\ captureFrame (handleRegisterCanvas (visiblePageIndex st) false st)
     = handleRegisterCanvas (visiblePageIndex st) false st.
Proof.
  assert (Hoff : forall i' k s, hasCanvas k (handleRegisterCanvas i' false s)
                                = negb (Z.eqb k i') && hasCanvas k s).
  { intros i' k s. unfold hasCanvas, handleRegisterCanvas. simpl.
    apply hasCanvas_filter. }
  split; [reflexivity|]. split; [apply Hoff|]. split.
  { rewrite Hoff, Z.eqb_refl. reflexivity. }
  split; [reflexivity|]. split; [reflexivity|]. split; [reflexivity|].
  unfold captureFrame.
  destruct (negb (isLive _)); [reflexivity|].
  change (visiblePageIndex
            (handleRegisterCanvas (visiblePageIndex st) false st))
    with (visiblePageIndex st).
  rewrite Hoff, Z.eqb_refl. reflexivity.
Qed.

Lemma captureFrame_not_live (st : ReaderState) :
  isLive st = false -> captureFrame st = st.
Proof. intro H. unfold captureFrame. now rewrite H. Qed.

Lemma act_not_live (a : App) (ev : Action) :
  isLive (reader a) = false ->
  isLive (reader (act a ev)) = false
  /\ captureTimeout (reader (act a ev)) = captureTimeout (reader a).
Proof.
  intro H. destruct ev as [i rect e|i rect e|i| |m]; simpl.
  - unfold startDrawing. destruct (Mode_eqb (mode (reader a)) move);
      simpl; now split.
  - now split.
  - unfold stopDrawing. destruct (negb (isDrawing (pages a i))); simpl;
      [now split|].
    destruct (currentPath (pages a i)); [now split|].
    destruct (canvasRef (pages a i)); [|now split].
    unfold handleFinishDraw. rewrite captureFrame_not_live by exact H.
    now split.
  - unfold clearDrawings. rewrite captureFrame_not_live by exact H.
    now split.
  - now split.
Qed.

(** X3.  While the reader is not live, no sequence of pointer actions,
    clear clicks and mode clicks schedules a frame capture: the pending
    capture timer stays what it was. *)
Theorem no_capture_unless_live (a : App) (evs : list Action)
  (Hlive : isLive (reader a) = false) :
  captureTimeout (reader (acts a evs)) = captureTimeout (reader a)
  /\ isLive (reader (acts a evs)) = false.
Proof.
  revert a Hlive. induction evs as [|ev evs IH]; intros a Hlive.
  - now split.
  - destruct (act_not_live a ev Hlive) as [Hl Hc].
    destruct (IH (act a ev) Hl) as [IH1 IH2].
    split; [|exact IH2]. unfold acts in *. simpl. now rewrite IH1.
Qed.

Lemma no_capture_unless_live_witness :
  isLive (reader sampleApp) = false
  /\ captureTimeout (reader (acts sampleApp touchDraggedOut)) = None.
Proof.
  split; [reflexivity|].
  exact (proj1 (no_capture_unless_live sampleApp touchDraggedOut eq_refl)).
Defined.

(** X4.  While live, with the visible page's canvas registered, finishing
    a stroke on any page [i] and clearing both schedule the capture of the
    visible page (not of page [i]); a later trigger after another page
    became visible replaces the pending capture by one for that page, and
    a repeated trigger changes nothing. *)
Theorem capture_targets_visible_page (st : ReaderState) (i v : Z)
  (p : DrawingPath)
  (Hlive : isLive st = true)
  (Hcanvas : hasCanvas (visiblePageIndex st) st = true)
  (Hv : hasCanvas v st = true) :
  captureTimeout (handleFinishDraw i p st) = Some (visiblePageIndex st)
  /\ captureTimeout (clearDrawings st) = Some (visiblePageIndex st)
  /\ captureTimeout
       (clearDrawings
          (fst (onIntersection v true (handleFinishDraw i p st))))
     = Some v
  /\ captureFrame (captureFrame st) = captureFrame st.
Proof.
  assert (Hcf : forall s, isLive s = true ->
                          hasCanvas (visiblePageIndex s) s = true ->
                          captureFrame s
                          = setCaptureTimeout (Some (visiblePageIndex s)) s).
  { intros s Hl Hc. unfold captureFrame. now rewrite Hl, Hc. }
  split; [|split; [|split]].
  - unfold handleFinishDraw. now rewrite Hcf.
  - unfold clearDrawings. now rewrite Hcf.
  - unfold clearDrawings, handleFinishDraw.
    rewrite (Hcf (setActiveAnnotation (Some (mkAnnotation i p)) st)
                 Hlive Hcanvas).
    simpl fst. rewrite Hcf; [reflexivity | exact Hlive | exact Hv].
  - rewrite (Hcf st Hlive Hcanvas).
    rewrite Hcf; [reflexivity | exact Hlive | exact Hcanvas].
Qed.

Lemma capture_targets_visible_page_witness :
  isLive liveReader = true
  /\ hasCanvas (visiblePageIndex liveReader) liveReader = true
  /\ captureTimeout (handleFinishDraw 7 sampleStroke liveReader) = Some 2%Z.
Proof.
  split; [reflexivity|]. split; [reflexivity|].
  exact (proj1 (capture_targets_visible_page liveReader 7 2 sampleStroke
                  eq_refl eq_refl eq_refl)).
Defined.

(** ** Move mode *)

Lemma setPage_same (i j : Z) (f : Z -> PageState) : setPage i (f i) f j = f j.
Proof. unfold setPage. destruct (Z.eqb_spec j i); congruence. Qed.

Lemma act_in_move_mode (a : App) (ev : Action) :
  mode (reader a) = move ->
  (forall j, isDrawing (pages a j) = false) ->
  isPointer ev ->
  reader (act a ev) = reader a /\ forall j, pages (act a ev) j = pages a j.
Proof.
  intros Hm Hidle Hp. destruct ev as [i rect e|i rect e|i| |m];
    try contradiction; simpl.
  - unfold startDrawing. rewrite Hm. simpl. split; [reflexivity|].
    intro j. apply setPage_same.
  - unfold draw. rewrite Hidle. simpl. split; [reflexivity|].
    intro j. apply setPage_same.
  - unfold stopDrawing. rewrite Hidle. simpl. split; [reflexivity|].
    intro j. apply setPage_same.
Qed.

(** X5.  In move mode, with no stroke in progress, pointer actions are
    inert: after any sequence of pointer-down, pointer-move and pointer-up
    on any pages the controller's state (annotation included) and every
    page's state are what they were; no stroke is started and none is
    stored. *)
Theorem move_mode_is_inert (a : App) (evs : list Action)
  (Hmode : mode (reader a) = move)
  (Hidle : forall j, isDrawing (pages a j) = false)
  (Hptr : Forall isPointer evs) :
  reader (acts a evs) = reader a
  /\ forall j, pages (acts a evs) j = pages a j.
Proof.
  revert a Hmode Hidle. induction Hptr as [|ev evs Hev Hevs IH];
    intros a Hmode Hidle; [now split|].
  destruct (act_in_move_mode a ev Hmode Hidle Hev) as [Hr Hp].
  destruct (IH (act a ev)) as [IHr IHp].
  - now rewrite Hr.
  - intro j. rewrite Hp. apply Hidle.
  - unfold acts in *. simpl. split.
    + now rewrite IHr.
    + intro j. now rewrite IHp.
Qed.

Lemma move_mode_is_inert_witness :
  mode (reader (mkApp (setMode move sampleReader) (fun _ => samplePage)))
  = move
  /\ Forall isPointer touchDraggedOut
  /\ reader (acts (mkApp (setMode move sampleReader) (fun _ => samplePage))
                  touchDraggedOut)
     = setMode move sampleReader.
Proof.
  assert (Hp : Forall isPointer touchDraggedOut)
    by (repeat constructor).
  split; [reflexivity|]. split; [exact Hp|].
  exact (proj1 (move_mode_is_inert
                  (mkApp (setMode move sampleReader) (fun _ => samplePage))
                  touchDraggedOut eq_refl (fun _ => eq_refl) Hp)).
Defined.

(** ** Renders: visibility and resizing *)

Lemma props_step (s : Surface) (l : Label) (g : nat) :
  (g < next s)%nat -> props (instances (step s l) g) = props (instances s g).
Proof.
  intro Hg.
  assert (Hfin : forall k, props (instances (finish k s) g)
                           = props (instances s g)).
  { intro k. unfold finish. simpl. unfold setInstance.
    destruct (Nat.eqb_spec g k) as [->|]; reflexivity. }
  assert (Hcl : props (instances (runCleanup s) g) = props (instances s g)).
  { unfold runCleanup. destruct (cleanup s) as [c|]; [|reflexivity].
    simpl. unfold setInstance.
    destruct (Nat.eqb_spec g c) as [->|]; reflexivity. }
  destruct l as [p| |k page context|k|k|k|k]; simpl.
  - unfold runEffect.
    assert (Hn : next (runCleanup s) = next s).
    { unfold runCleanup. now destruct (cleanup s). }
    destruct (canvas (runCleanup s)); [|exact Hcl].
    destruct (r_isVisible p); [|exact Hcl].
    simpl. unfold setInstance. rewrite Hn.
    destruct (Nat.eqb_spec g (next s)); [lia | exact Hcl].
  - exact Hcl.
  - destruct (k <? next s)%nat; [|reflexivity].
    destruct (phase (instances s k)); try reflexivity.
    unfold afterGetPage.
    destruct (isCancelled (instances s k)); [apply Hfin|].
    destruct (canvas s); [|apply Hfin].
    destruct context; simpl; [|apply Hfin].
    unfold setInstance. destruct (Nat.eqb_spec g k) as [->|]; reflexivity.
  - destruct (k <? next s)%nat; [|reflexivity].
    destruct (phase (instances s k)); try reflexivity. apply Hfin.
  - destruct (k <? next s)%nat; [|reflexivity].
    destruct (phase (instances s k)) as [|viewport [|]|]; reflexivity.
  - destruct (k <? next s)%nat; [|reflexivity].
    destruct (phase (instances s k)); try reflexivity.
    unfold afterRender.
    destruct (isCancelled (instances s k)); [apply Hfin|]. simpl.
    unfold setInstance. destruct (Nat.eqb_spec g k) as [->|]; reflexivity.
  - destruct (k <? next s)%nat; [|reflexivity].
    destruct (phase (instances s k)); try reflexivity. apply Hfin.
Qed.

Lemma next_runCleanup (s : Surface) : next (runCleanup s) = next s.
Proof. unfold runCleanup. now destruct (cleanup s). Qed.

Lemma next_step (s : Surface) (l : Label) :
  next (step s l) = next s
  \/ exists p, l = RunEffect p /\ r_isVisible p = true
                /\ next (step s l) = S (next s)
                /\ props (instances (step s l) (next s)) = p.
Proof.
  destruct l as [p| |k page context|k|k|k|k]; simpl.
  - unfold runEffect. destruct (canvas (runCleanup s));
      [|left; apply next_runCleanup].
    destruct (r_isVisible p) eqn:Ep; [|left; apply next_runCleanup].
    right. exists p. simpl. rewrite next_runCleanup.
    now rewrite setInstance_same.
  - left. apply next_runCleanup.
  - left. destruct (k <? next s)%nat; [|reflexivity].
    destruct (phase (instances s k)); try reflexivity.
    unfold afterGetPage, finish.
    destruct (isCancelled (instances s k)); [reflexivity|].
    destruct (canvas s); [|reflexivity]. now destruct context.
  - left. destruct (k <? next s)%nat; [|reflexivity].
    now destruct (phase (instances s k)).
  - left. destruct (k <? next s)%nat; [|reflexivity].
    now destruct (phase (instances s k)) as [|viewport [|]|].
  - left. destruct (k <? next s)%nat; [|reflexivity].
    destruct (phase (instances s k)); try reflexivity.
    unfold afterRender, finish.
    now destruct (isCancelled (instances s k)).
  - left. destruct (k <? next s)%nat; [|reflexivity].
    now destruct (phase (instances s k)).
Qed.

Lemma visible_step (s : Surface) (l : Label) :
  (forall g, (g < next s)%nat -> r_isVisible (props (instances s g)) = true) ->
  forall g, (g < next (step s l))%nat ->
            r_isVisible (props (instances (step s l) g)) = true.
Proof.
  intros Hvis g Hg.
  destruct (Nat.lt_ge_cases g (next s)) as [Hold|Hnew].
  - rewrite props_step by exact Hold. now apply Hvis.
  - destruct (next_step s l) as [E|(p & _ & Ep & E & Hp)]; [lia|].
    assert (g = next s) by lia. subst g. now rewrite Hp.
Qed.

Lemma visible_steps (ls : list Label) (s : Surface) :
  (forall g, (g < next s)%nat -> r_isVisible (props (instances s g)) = true) ->
  forall g, (g < next (steps s ls))%nat ->
            r_isVisible (props (instances (steps s ls) g)) = true.
Proof.
  revert s. induction ls as [|l ls IH]; intros s Hvis; [exact Hvis|].
  apply (IH (step s l)). now apply visible_step.
Qed.

(** X6.  Rendering is gated by visibility and single-flight.  Whatever
    happens to a mounted page, every run of [render()] that ever began was
    started with the page visible; at most one run is not cancelled; and
    re-running the effect while the page is hidden cancels every run and
    begins none. *)
Theorem render_only_while_visible (ls : list Label) (p : RenderProps)
  (Hhidden : r_isVisible p = false) :
  let s := steps mounted ls in
  (forall g, In (Began g) (history s) ->
             r_isVisible (props (instances s g)) = true)
  /\ (forall g g', (g < next s)%nat -> (g' < next s)%nat ->
                   isCancelled (instances s g) = false ->
                   isCancelled (instances s g') = false -> g = g')
  /\ history (step s (RunEffect p)) = history s
  /\ (forall g, (g < next (step s (RunEffect p)))%nat ->
                isCancelled (instances (step s (RunEffect p)) g) = true).
Proof.
  intro s.
  pose proof (Inv_steps ls mounted Inv_mounted) as HI. fold s in HI.
  assert (Hlive : forall g, (g < next s)%nat ->
                            isCancelled (instances s g) = false ->
                            cleanup s = Some g).
  { intros g Hg Hc. apply (live_is_latest s g HI Hg).
    intros [Hd _]. congruence. }
  split; [|split; [|split]].
  - intros g Hg. apply visible_steps.
    + intros k Hk. simpl in Hk. lia.
    + destruct HI as (_ & _ & I3 & _). now apply I3.
  - intros g g' Hg Hg' Hc Hc'.
    pose proof (Hlive g Hg Hc) as E. pose proof (Hlive g' Hg' Hc') as E'.
    congruence.
  - destruct (Inv_runCleanup s HI) as (_ & _ & _ & Hh & _).
    simpl. unfold runEffect. rewrite Hhidden.
    destruct (canvas (runCleanup s)); exact Hh.
  - destruct (Inv_runCleanup s HI) as (HC & Hnone & Hn & _).
    simpl. unfold runEffect. rewrite Hhidden.
    assert (Hall : forall g, (g < next (runCleanup s))%nat ->
                             isCancelled (instances (runCleanup s) g) = true).
    { intros g Hg. destruct HC as (I1 & _).
      apply (I1 g Hg). rewrite Hnone. discriminate. }
    destruct (canvas (runCleanup s)); exact Hall.
Qed.

Lemma render_only_while_visible_witness :
  r_isVisible hiddenProps = false
  /\ history (step (steps mounted supersededRun) (RunEffect hiddenProps))
     = history (steps mounted supersededRun).
Proof.
  split; [reflexivity|].
  exact (proj1 (proj2 (proj2 (render_only_while_visible supersededRun
                                hiddenProps eq_refl)))).
Defined.

Lemma needsResize_fractional (c : Canvas) (viewport : PDFPageViewport) :
  ~ inject_Z (Qfloor (vp_width viewport)) == vp_width viewport ->
  needsResize c viewport = true.
Proof.
  intro H. unfold needsResize.
  destruct (Qeq_bool (inject_Z (canvas_width c)) (vp_width viewport)) eqn:E;
    [|reflexivity].
  exfalso. apply H. apply Qeq_bool_iff in E.
  rewrite <- (Qfloor_comp _ _ E), Qfloor_Z. exact E.
Qed.

(** X7.  When the viewport's width is not a whole number, the size test of
    [render()] never succeeds: whatever the canvas holds, also right after
    it was resized for this very viewport, the canvas is resized again
    (which clears it).  For whole-number dimensions in range, the canvas
    resized once is left alone by the next render.  Resizing twice for the
    same viewport gives the size of resizing once. *)
Theorem resize_stability (c : Canvas) (viewport : PDFPageViewport) :
  (~ inject_Z (Qfloor (vp_width viewport)) == vp_width viewport ->
   needsResize (resizeCanvas c viewport) viewport = true)
  /\ (inject_Z (Qfloor (vp_width viewport)) == vp_width viewport ->
      inject_Z (Qfloor (vp_height viewport)) == vp_height viewport ->
      0 <= vp_width viewport -> vp_width viewport < inject_Z (2 ^ 32) ->
      0 <= vp_height viewport -> vp_height viewport < inject_Z (2 ^ 32) ->
      needsResize (resizeCanvas c viewport) viewport = false)
  /\ resizeCanvas (resizeCanvas c viewport) viewport = resizeCanvas c viewport.
Proof.
  split; [|split].
  - apply needsResize_fractional.
  - intros Hw Hh Hw0 Hw1 Hh0 Hh1.
    destruct (resizeCanvas_floor c viewport Hw0 Hw1 Hh0 Hh1) as [Ew Eh].
    unfold needsResize. rewrite Ew, Eh.
    apply Qeq_bool_iff in Hw. apply Qeq_bool_iff in Hh.
    now rewrite Hw, Hh.
  - unfold resizeCanvas. destruct (needsResize c viewport) eqn:E.
    + destruct (needsResize (mkCanvas _ _) viewport); reflexivity.
    + now rewrite E.
Qed.

Lemma resize_stability_witness :
  ~ inject_Z (Qfloor (vp_width fractionalViewport))
    == vp_width fractionalViewport
  /\ needsResize (resizeCanvas (mkCanvas 300 150) fractionalViewport)
                 fractionalViewport = true.
Proof.
  assert (H : ~ inject_Z (Qfloor (vp_width fractionalViewport))
                == vp_width fractionalViewport) by discriminate.
  split; [exact H|].
  exact (proj1 (resize_stability (mkCanvas 300 150) fractionalViewport) H).
Defined.

(** ** Stored strokes are redrawn where they were drawn *)

Lemma Forall2_map_same {A B : Type} (R : B -> B -> Prop) (f g : A -> B)
  (l : list A) :
  (forall x, In x l -> R (f x) (g x)) -> Forall2 R (map f l) (map g l).
Proof.
  induction l as [|x l IH]; intro H; simpl; constructor.
  - apply H. now left.
  - apply IH. intros y Hy. apply H. now right.
Qed.

Lemma half_within (eps a b a' b' s s' : Q) :
  Qabs (a * s - a' * s') <= eps -> Qabs (b * s - b' * s') <= eps ->
  Qabs ((a + b) / 2 * s - (a' + b') / 2 * s') <= eps.
Proof.
  intros Ha Hb.
  setoid_replace ((a + b) / 2 * s - (a' + b') / 2 * s')
    with (((a * s - a' * s') + (b * s - b' * s')) * (1 # 2)) by field.
  rewrite Qabs_Qmult.
  change (Qabs (1 # 2)) with (1 # 2).
  apply Qle_trans with ((eps + eps) * (1 # 2)).
  - apply Qmult_le_compat_r; [|discriminate].
    eapply Qle_trans; [apply Qabs_triangle|].
    now apply Qplus_le_compat.
  - setoid_replace ((eps + eps) * (1 # 2)) with eps by field.
    apply Qle_refl.
Qed.

Lemma drawSmoothPath_within (eps : Q) (pts pts' : list DrawingPoint)
  (sx sy sx' sy' : Q) :
  List.length pts = List.length pts' ->
  (forall i, (i < List.length pts)%nat ->
             Qabs (px (nth i pts origin) * sx - px (nth i pts' origin) * sx')
             <= eps
             /\ Qabs (py (nth i pts origin) * sy
                      - py (nth i pts' origin) * sy') <= eps) ->
  Forall2 (Cmd_within eps)
          (drawSmoothPath pts sx sy) (drawSmoothPath pts' sx' sy').
Proof.
  intros Hlen H.
  destruct pts as [|p0 [|p1 rest]]; destruct pts' as [|q0 [|q1 rest']];
    try discriminate Hlen.
  - constructor.
  - destruct (H O) as [Hx Hy]; [simpl; lia|]. simpl in Hx, Hy.
    unfold drawSmoothPath. simpl.
    repeat constructor; assumption.
  - set (l := p0 :: p1 :: rest) in *. set (l' := q0 :: q1 :: rest') in *.
    assert (H2 : (2 <= List.length l)%nat) by (simpl; lia).
    assert (H2' : (2 <= List.length l')%nat) by (simpl; lia).
    rewrite (drawSmoothPath_long l sx sy H2).
    rewrite (drawSmoothPath_long l' sx' sy' H2').
    rewrite <- Hlen.
    apply Forall2_app; [|apply Forall2_app].
    + destruct (H O) as [Hx Hy]; [lia|].
      constructor; [exact I|]. constructor; [now split | constructor].
    + apply Forall2_map_same. intros i Hi. apply in_seq in Hi.
      destruct (H i) as [Hx Hy]; [lia|].
      destruct (H (i + 1)%nat) as [Hx1 Hy1]; [lia|].
      unfold smoothStep. simpl.
      split; [exact Hx|]. split; [exact Hy|].
      split; now apply half_within.
    + destruct (H (List.length l - 1)%nat) as [Hx Hy]; [lia|].
      constructor; [now split|]. constructor; [exact I | constructor].
Qed.

(** A coordinate [x] of a raster of [w] pixels, stored as [x / w] and
    redrawn with the scale [k * v] for a viewport dimension [v] whose
    integer part is [w], lands less than [k] after [k * x]. *)
Lemma redrawn_within (x v k : Q) (w : Z) :
  (1 <= w)%Z -> inject_Z w <= v -> v < inject_Z w + 1 -> 0 <= k ->
  0 <= x -> x <= inject_Z w ->
  Qabs (x / inject_Z w * (k * v) - x * k) <= k.
Proof.
  intros Hw Hlo Hhi Hk Hx0 Hx1.
  assert (Qw : 0 < inject_Z w).
  { change (inject_Z 0 < inject_Z w). rewrite <- Zlt_Qlt. lia. }
  assert (Qw' : ~ inject_Z w == 0).
  { intro E. rewrite E in Qw. discriminate Qw. }
  set (t := x / inject_Z w).
  assert (Ht0 : 0 <= t).
  { unfold t. apply Qle_shift_div_l; [exact Qw|]. now rewrite Qmult_0_l. }
  assert (Ht1 : t <= 1).
  { unfold t. apply Qle_shift_div_r; [exact Qw|]. now rewrite Qmult_1_l. }
  set (d := v - inject_Z w).
  assert (Hd0 : 0 <= d) by (unfold d; lra).
  assert (Hd1 : d <= 1) by (unfold d; lra).
  assert (E : t * (k * v) - x * k == k * (t * d)).
  { unfold t, d. field. exact Qw'. }
  rewrite E.
  assert (Htd0 : 0 <= t * d) by (now apply Qmult_le_0_compat).
  assert (Htd1 : t * d <= 1).
  { apply Qle_trans with (1 * d).
    - apply Qmult_le_compat_r; assumption.
    - now rewrite Qmult_1_l. }
  rewrite Qabs_pos by (now apply Qmult_le_0_compat).
  rewrite <- (Qmult_1_r k) at 2.
  rewrite (Qmult_comm k (t * d)), (Qmult_comm k 1).
  now apply Qmult_le_compat_r.
Qed.

Lemma raster_of_viewport (c : Canvas) (viewport : PDFPageViewport) :
  1 <= vp_width viewport -> vp_width viewport < inject_Z (2 ^ 32) ->
  1 <= vp_height viewport -> vp_height viewport < inject_Z (2 ^ 32) ->
  let c' := resizeCanvas c viewport in
  ((1 <= canvas_width c')%Z
   /\ inject_Z (canvas_width c') <= vp_width viewport
   /\ vp_width viewport < inject_Z (canvas_width c') + 1)
  /\ ((1 <= canvas_height c')%Z
      /\ inject_Z (canvas_height c') <= vp_height viewport
      /\ vp_height viewport < inject_Z (canvas_height c') + 1).
Proof.
  intros Hw Hw' Hh Hh' c'.
  assert (F : forall q, 1 <= q ->
                        (1 <= Qfloor q)%Z /\ inject_Z (Qfloor q) <= q
                        /\ q < inject_Z (Qfloor q) + 1).
  { intros q Hq. split; [|split].
    - change 1%Z with (Qfloor 1). now apply Qfloor_resp_le.
    - apply Qfloor_le.
    - change 1 with (inject_Z 1). rewrite <- inject_Z_plus.
      apply Qlt_floor. }
  destruct (resizeCanvas_floor c viewport) as [Ew Eh];
    try assumption; try (eapply Qle_trans; [|eassumption]; discriminate).
  unfold c'. rewrite Ew, Eh. split; now apply F.
Qed.

(** X8.  A page is rendered with a viewport of at least 1 x 1, a stroke is
    drawn on its raster and stored normalised by the raster's integer
    size.  Redrawn with that viewport, the stored stroke is the same
    sequence of path commands as the stroke in progress was, every
    coordinate at most one pixel away; redrawn with a viewport [k] times
    as large, every coordinate is at most [k] away from [k] times the raw
    one.  The raster's lower right corner is redrawn at the viewport's
    width and height, which differ from the raster's when they are not
    whole numbers. *)
Theorem annotation_round_trip (pts : list DrawingPoint) (c : Canvas)
  (viewport : PDFPageViewport) (k : Q)
  (Hw : 1 <= vp_width viewport /\ vp_width viewport < inject_Z (2 ^ 32))
  (Hh : 1 <= vp_height viewport /\ vp_height viewport < inject_Z (2 ^ 32))
  (Hk : 0 <= k)
  (Hpts : Forall (onRaster (resizeCanvas c viewport)) pts) :
  let c' := resizeCanvas c viewport in
  let stored := map (normalize (canvas_width c') (canvas_height c')) in
  Forall2 (Cmd_within 1)
    (drawSmoothPath (stored pts) (vp_width viewport) (vp_height viewport))
    (drawSmoothPath pts 1 1)
  /\ Forall2 (Cmd_within k)
       (drawSmoothPath (stored pts)
                       (k * vp_width viewport) (k * vp_height viewport))
       (drawSmoothPath pts k k)
  /\ Forall2 Cmd_eq
       (drawSmoothPath (stored [rasterCorner c'])
                       (vp_width viewport) (vp_height viewport))
       [BeginPath; MoveTo (vp_width viewport) (vp_height viewport);
        LineTo (vp_width viewport) (vp_height viewport); Stroke].
Proof.
  intros c' stored.
  destruct Hw as [Hw Hw']. destruct Hh as [Hh Hh'].
  destruct (raster_of_viewport c viewport Hw Hw' Hh Hh')
    as ((W1 & W2 & W3) & (H1 & H2 & H3)).
  fold c' in W1, W2, W3, H1, H2, H3, Hpts.
  assert (Hnth : forall i, (i < List.length pts)%nat ->
                           nth i (stored pts) origin
                           = normalize (canvas_width c') (canvas_height c')
                                       (nth i pts origin)
                           /\ onRaster c' (nth i pts origin)).
  { intros i Hi. split.
    - unfold stored.
      rewrite (nth_indep _ origin
                 (normalize (canvas_width c') (canvas_height c') origin))
        by (now rewrite length_map).
      apply map_nth.
    - rewrite Forall_forall in Hpts. apply Hpts. now apply nth_In. }
  assert (Hgen : forall k', 0 <= k' ->
            Forall2 (Cmd_within k')
              (drawSmoothPath (stored pts)
                 (k' * vp_width viewport) (k' * vp_height viewport))
              (drawSmoothPath pts k' k')).
  { intros k' Hk'. apply drawSmoothPath_within.
    - unfold stored. apply length_map.
    - intros i Hi. unfold stored in Hi. rewrite length_map in Hi.
      destruct (Hnth i Hi) as [-> ((X0 & X1) & (Y0 & Y1))].
      unfold normalize. cbn [px py].
      split; now apply redrawn_within. }
  split; [|split].
  - apply drawSmoothPath_within.
    + unfold stored. apply length_map.
    + intros i Hi. unfold stored in Hi. rewrite length_map in Hi.
      destruct (Hnth i Hi) as [-> ((X0 & X1) & (Y0 & Y1))].
      unfold normalize. cbn [px py].
      assert (One : 0 <= 1) by discriminate.
      split.
      * setoid_replace (px (nth i pts origin) / inject_Z (canvas_width c')
                        * vp_width viewport - px (nth i pts origin) * 1)
          with (px (nth i pts origin) / inject_Z (canvas_width c')
                * (1 * vp_width viewport) - px (nth i pts origin) * 1)
          by ring.
        now apply redrawn_within.
      * setoid_replace (py (nth i pts origin) / inject_Z (canvas_height c')
                        * vp_height viewport - py (nth i pts origin) * 1)
          with (py (nth i pts origin) / inject_Z (canvas_height c')
                * (1 * vp_height viewport) - py (nth i pts origin) * 1)
          by ring.
        now apply redrawn_within.
  - now apply Hgen.
  - assert (Qw : ~ inject_Z (canvas_width c') == 0).
    { intro E. assert (L : inject_Z 0 < inject_Z (canvas_width c'))
        by (rewrite <- Zlt_Qlt; lia).
      rewrite E in L. discriminate L. }
    assert (Qh : ~ inject_Z (canvas_height c') == 0).
    { intro E. assert (L : inject_Z 0 < inject_Z (canvas_height c'))
        by (rewrite <- Zlt_Qlt; lia).
      rewrite E in L. discriminate L. }
    unfold stored, rasterCorner, normalize, drawSmoothPath. simpl.
    repeat constructor; simpl; field; assumption.
Qed.

Lemma annotation_round_trip_witness :
  Forall (onRaster (resizeCanvas (mkCanvas 300 150) fractionalViewport))
         fourPoints
  /\ canvas_width (resizeCanvas (mkCanvas 300 150) fractionalViewport)
     = 600%Z
  /\ Forall2 (Cmd_within 1)
       (drawSmoothPath (map (normalize 600 800) fourPoints) 600.5 800)
       (drawSmoothPath fourPoints 1 1).
Proof.
  assert (Hw : 1 <= vp_width fractionalViewport
               /\ vp_width fractionalViewport < inject_Z (2 ^ 32))
    by (split; [discriminate | reflexivity]).
  assert (Hh : 1 <= vp_height fractionalViewport
               /\ vp_height fractionalViewport < inject_Z (2 ^ 32))
    by (split; [discriminate | reflexivity]).
  assert (Hk : 0 <= 2) by discriminate.
  assert (Hpts : Forall (onRaster (resizeCanvas (mkCanvas 300 150)
                                                  fractionalViewport))
                        fourPoints).
  { repeat constructor; discriminate. }
  split; [exact Hpts|]. split; [reflexivity|].
  exact (proj1 (annotation_round_trip fourPoints (mkCanvas 300 150)
                  fractionalViewport 2 Hw Hh Hk Hpts)).
Defined.

(** ** Line text keeps the items' text *)

Lemma length_append (a b : string) :
  String.length (a ++ b) = (String.length a + String.length b)%nat.
Proof. induction a as [|ch a IH]; simpl; [reflexivity | now rewrite IH]. Qed.

Lemma joinWith_length (seps : list bool) (strs : list string) :
  List.length seps = List.length strs ->
  (totalLength strs <= String.length (joinWith seps strs)
   <= totalLength strs + List.length strs)%nat.
Proof.
  revert strs. induction seps as [|b seps IH]; intros [|s strs] H;
    try discriminate H; simpl; [lia|].
  injection H as H. specialize (IH strs H).
  rewrite !length_append. destruct b; simpl; lia.
Qed.

Lemma spacing_fold (rest : list PDFTextItem) (s : string) (lastEnd : Q) :
  exists seps,
    List.length seps = List.length rest
    /\ fst (fold_left spacingStep rest (s, lastEnd))
       = (s ++ joinWith seps (map str rest))%string.
Proof.
  revert s lastEnd. induction rest as [|it rest IH]; intros s lastEnd.
  - exists []. split; [reflexivity|]. simpl. now rewrite append_empty_r.
  - change (fold_left spacingStep (it :: rest) (s, lastEnd))
      with (fold_left spacingStep rest (spacingStep (s, lastEnd) it)).
    unfold spacingStep at 2.
    destruct (negb (Qeq_bool lastEnd (-1))
              && Qltb (lastEnd + 3) (item_x it)) eqn:E.
    + apply andb_true_iff in E. destruct E as [E1 E2]. rewrite E1, E2.
      destruct (IH ((s ++ " ") ++ str it)%string
                   (item_x it + item_width it)) as (seps & Hl & Hs).
      exists (true :: seps). split; [simpl; now rewrite Hl|].
      rewrite Hs. simpl. now rewrite !append_assoc.
    + destruct (IH (s ++ str it)%string (item_x it + item_width it))
        as (seps & Hl & Hs).
      exists (false :: seps). split; [simpl; now rewrite Hl|].
      assert (Hstep : (if negb (Qeq_bool lastEnd (-1))
                       then if Qltb (lastEnd + 3) (item_x it)
                            then (s ++ " ")%string else s
                       else s) = s).
      { destruct (negb (Qeq_bool lastEnd (-1))); [|reflexivity].
        simpl in E. now rewrite E. }
      rewrite Hstep, Hs. simpl. now rewrite !append_assoc.
Qed.

(** X9.  The text of a line is the items' strings in the order given,
    each but the first preceded by one space or by nothing: no text is
    dropped, reordered or duplicated, nothing precedes the first string and
    nothing follows the last, whatever the coordinates and widths are.  So
    its length is the strings' total length plus at most one per item after
    the first. *)
Theorem lineText_keeps_text (it : PDFTextItem) (rest : list PDFTextItem) :
  lineText [] = EmptyString
  /\ exists seps,
       List.length seps = List.length rest
       /\ lineText (it :: rest)
          = (str it ++ joinWith seps (map str rest))%string
       /\ (totalLength (map str (it :: rest))
           <= String.length (lineText (it :: rest))
           <= totalLength (map str (it :: rest)) + List.length rest)%nat.
Proof.
  split; [reflexivity|].
  unfold lineText.
  change (fold_left spacingStep (it :: rest) (EmptyString, -1))
    with (fold_left spacingStep rest (str it, item_x it + item_width it)).
  destruct (spacing_fold rest (str it) (item_x it + item_width it))
    as (seps & Hl & Hs).
  exists seps. split; [exact Hl|]. split; [exact Hs|].
  rewrite Hs, length_append. simpl totalLength.
  pose proof (joinWith_length seps (map str rest)) as HB.
  rewrite length_map in HB. specialize (HB Hl). lia.
Qed.

(** ** Items of one baseline share a line *)

Lemma firstFit_Qeq (y y' : Q) (ys : list Q) :
  y == y' -> firstFit y ys = firstFit y' ys.
Proof.
  intro E. induction ys as [|l ys IH]; [reflexivity|]. cbn [firstFit].
  assert (B : Qltb (Qabs (l - y)) yTolerance
              = Qltb (Qabs (l - y')) yTolerance).
  { apply eq_true_iff_eq. rewrite !Qltb_lt. now rewrite E. }
  now rewrite B, IH.
Qed.

Lemma firstFit_app (y : Q) (ys zs : list Q) (k : nat) :
  firstFit y ys = Some k -> firstFit y (ys ++ zs) = Some k.
Proof.
  revert k. induction ys as [|l ys IH]; intros k H; [discriminate H|].
  cbn [firstFit app] in *.
  destruct (Qltb (Qabs (l - y)) yTolerance); [exact H|].
  destruct (firstFit y ys) as [j|]; [|discriminate H].
  now rewrite (IH j eq_refl).
Qed.

Lemma firstFit_new (y : Q) (ys : list Q) :
  firstFit y ys = None -> firstFit y (ys ++ [y]) = Some (List.length ys).
Proof.
  induction ys as [|l ys IH]; intro H; cbn [firstFit app List.length] in *.
  - assert (B : Qltb (Qabs (y - y)) yTolerance = true).
    { apply Qltb_lt. setoid_replace (y - y) with 0 by ring. reflexivity. }
    now rewrite B.
  - destruct (Qltb (Qabs (l - y)) yTolerance); [discriminate H|].
    destruct (firstFit y ys); [discriminate H|]. now rewrite IH.
Qed.

Lemma pushToLine_firstFit (y : Q) (x : PDFTextItem) (lines : list Line) :
  match pushToLine y x lines with
  | Some lines' =>
      exists k l,
        firstFit y (map line_y lines) = Some k
        /\ nth_error lines k = Some l
        /\ nth_error lines' k = Some (mkLine (line_y l) (line_items l ++ [x]))
        /\ forall j, j <> k -> nth_error lines' j = nth_error lines j
  | None => firstFit y (map line_y lines) = None
  end.
Proof.
  induction lines as [|l rest IH]; [reflexivity|].
  rewrite pushToLine_cons. cbn [map firstFit].
  destruct (Qltb (Qabs (line_y l - y)) yTolerance).
  - exists O, l. repeat split. intros [|j] Hj; [now elim Hj | reflexivity].
  - destruct (pushToLine y x rest) as [rest'|]; simpl.
    + destruct IH as (k & l0 & Hk & Hl & Hl' & Hother).
      exists (S k), l0. rewrite Hk. repeat split; try assumption.
      intros [|j] Hj; [reflexivity|]. simpl. apply Hother. congruence.
    + now rewrite IH.
Qed.

Lemma groupStep_placed (lines : list Line) (x : PDFTextItem)
  (seen : list PDFTextItem) :
  (forall it, In it seen -> transform it <> None -> placed lines it) ->
  forall it, In it (seen ++ [x]) -> transform it <> None ->
             placed (groupStep lines x) it.
Proof.
  intros Hseen it Hin Ht.
  assert (Happ : forall new it0, placed lines it0 ->
                                 placed (lines ++ [new]) it0).
  { intros new it0 (k & l & Hk & Hi & Hf). exists k, l.
    split; [|split; [exact Hi|]].
    - rewrite nth_error_app1; [exact Hk|].
      apply nth_error_Some. congruence.
    - rewrite map_app. now apply firstFit_app. }
  apply in_app_or in Hin. unfold groupStep.
  destruct (transform x) as [t|] eqn:Etx.
  - assert (Hy : tx5 t = item_y x) by (unfold item_y; now rewrite Etx).
    rewrite Hy.
    pose proof (pushToLine_firstFit (item_y x) x lines) as HP.
    destruct (pushToLine (item_y x) x lines) as [lines'|] eqn:Ep.
    + destruct HP as (k & l & Hk & Hl & Hl' & Hother).
      pose proof (pushToLine_ys _ _ _ _ Ep) as Hys.
      destruct Hin as [Hold|[<-|[]]].
      * destruct (Hseen it Hold Ht) as (k0 & l0 & Hk0 & Hi0 & Hf0).
        destruct (Nat.eq_dec k0 k) as [->|Hne].
        -- exists k, (mkLine (line_y l) (line_items l ++ [x])).
           split; [exact Hl'|]. split; [|now rewrite Hys].
           simpl. apply in_or_app. left. congruence.
        -- exists k0, l0. split; [now rewrite Hother|].
           split; [exact Hi0 | now rewrite Hys].
      * exists k, (mkLine (line_y l) (line_items l ++ [x])).
        split; [exact Hl'|]. split; [|now rewrite Hys].
        simpl. apply in_or_app. right. now left.
    + destruct Hin as [Hold|[<-|[]]].
      * apply Happ. now apply Hseen.
      * exists (List.length lines), (mkLine (item_y x) [x]).
        split; [|split; [now left|]].
        -- rewrite nth_error_app2 by lia. now rewrite Nat.sub_diag.
        -- rewrite map_app. cbn [map line_y].
           rewrite <- (length_map line_y lines). now apply firstFit_new.
  - destruct Hin as [Hold|[<-|[]]].
    + apply Happ. now apply Hseen.
    + now elim Ht.
Qed.

Lemma fold_groupStep_placed (items seen : list PDFTextItem)
  (lines : list Line) :
  (forall it, In it seen -> transform it <> None -> placed lines it) ->
  forall it, In it (seen ++ items) -> transform it <> None ->
             placed (fold_left groupStep items lines) it.
Proof.
  revert seen lines. induction items as [|x items IH]; intros seen lines Hseen.
  - rewrite app_nil_r. exact Hseen.
  - intros it Hin Ht. simpl.
    apply (IH (seen ++ [x]) (groupStep lines x)).
    + now apply groupStep_placed.
    + now rewrite <- app_assoc.
    + exact Ht.
Qed.

(** X10.  Two text items of a page that have a transform and the same
    [y] end up in the same line, whatever other items the page has and in
    whatever order the items come. *)
Theorem same_baseline_same_line (items : list PDFTextItem)
  (a b : PDFTextItem)
  (Ha : In a items) (Hb : In b items)
  (Hta : transform a <> None) (Htb : transform b <> None)
  (Hy : item_y a == item_y b) :
  exists l, In l (groupLines items)
            /\ In a (line_items l) /\ In b (line_items l).
Proof.
  assert (H : forall it, In it ([] ++ items) -> transform it <> None ->
                         placed (groupLines items) it).
  { apply fold_groupStep_placed. intros it []. }
  destruct (H a Ha Hta) as (ka & la & Hka & Hia & Hfa).
  destruct (H b Hb Htb) as (kb & lb & Hkb & Hib & Hfb).
  rewrite (firstFit_Qeq _ _ _ Hy) in Hfa.
  assert (ka = kb) by congruence. subst kb.
  assert (la = lb) by congruence. subst lb.
  exists la. split; [|split; assumption].
  eapply nth_error_In. exact Hka.
Qed.

Lemma same_baseline_same_line_witness :
  item_y (itemAt "a" 10 100 5) == item_y (itemAt "c" 30 100 5)
  /\ exists l, In l (groupLines baseline100)
               /\ In (itemAt "a" 10 100 5) (line_items l)
               /\ In (itemAt "c" 30 100 5) (line_items l).
Proof.
  assert (Hy : item_y (itemAt "a" 10 100 5) == item_y (itemAt "c" 30 100 5))
    by reflexivity.
  split; [exact Hy|].
  apply (same_baseline_same_line baseline100
           (itemAt "a" 10 100 5) (itemAt "c" 30 100 5)).
  - left. reflexivity.
  - right. right. right. right. left. reflexivity.
  - discriminate.
  - discriminate.
  - exact Hy.
Defined.

(** ** The text context: rejections and the window *)

Lemma isRejected_getPageText (doc : PDFDocumentProxy) (numPages idx : Z) :
  isRejected (getPageText doc numPages idx) = true
  <-> inRange numPages idx = true /\ fetched doc idx = None.
Proof.
  destruct (inRange numPages idx) eqn:Er.
  - rewrite (getPageText_in_range doc numPages idx Er).
    destruct (fetched doc idx) as [[|it items]|]; simpl; split;
      try (intros [_ H]; discriminate H); try discriminate; auto.
  - rewrite (getPageText_out_of_range doc numPages idx Er). simpl.
    split; [discriminate | intros [H _]; discriminate H].
Qed.

(** X11.  The extraction delivers nothing exactly when the fetch of one
    of the pages current-1, current, current+1 that lie in the document
    rejects; pages outside this window, and out-of-range indices, never
    matter: two documents that hand out the same pages inside the window
    yield the same outcome. *)
Theorem text_context_rejection (doc doc' : PDFDocumentProxy)
  (numPages visible : Z)
  (Hsame : forall idx, In idx [visible - 1; visible; visible + 1]%Z ->
                       inRange numPages idx = true ->
                       getPage doc' (idx + 1) = getPage doc (idx + 1)) :
  (extractText doc numPages visible = None
   <-> exists idx, In idx [visible - 1; visible; visible + 1]%Z
                   /\ inRange numPages idx = true
                   /\ fetched doc idx = None)
  /\ extractText doc' numPages visible = extractText doc numPages visible.
Proof.
  split.
  - unfold extractText. cbv zeta.
    destruct (existsb isRejected _) eqn:E.
    + split; [intros _ | reflexivity].
      apply existsb_exists in E. destruct E as (r & Hr & Hrej).
      apply in_map_iff in Hr. destruct Hr as (idx & <- & Hin).
      apply isRejected_getPageText in Hrej. now exists idx.
    + split; [discriminate|]. intros (idx & Hin & Hr & Hf). exfalso.
      assert (T : existsb isRejected
                    (map (getPageText doc numPages)
                         [visible - 1; visible; visible + 1]%Z) = true).
      { apply existsb_exists. exists (getPageText doc numPages idx).
        split; [now apply in_map | now apply isRejected_getPageText]. }
      congruence.
  - unfold extractText. cbv zeta.
    assert (E : map (getPageText doc' numPages)
                    [visible - 1; visible; visible + 1]%Z
                = map (getPageText doc numPages)
                      [visible - 1; visible; visible + 1]%Z).
    { apply map_ext_in. intros idx Hin.
      destruct (inRange numPages idx) eqn:Er.
      - rewrite !(getPageText_in_range _ numPages idx Er).
        unfold fetched. now rewrite (Hsame idx Hin Er).
      - now rewrite !(getPageText_out_of_range _ numPages idx Er). }
    now rewrite E.
Qed.

Lemma text_context_rejection_witness :
  (forall idx, In idx [0 - 1; 0; 0 + 1]%Z -> inRange 3 idx = true ->
               getPage brokenLastPage (idx + 1) = getPage threePages (idx + 1))
  /\ extractText brokenLastPage 3 0 = extractText threePages 3 0
  /\ extractText brokenLastPage 3 1 = None.
Proof.
  assert (H : forall idx, In idx [0 - 1; 0; 0 + 1]%Z -> inRange 3 idx = true ->
                          getPage brokenLastPage (idx + 1)
                          = getPage threePages (idx + 1)).
  { intros idx [<-|[<-|[<-|[]]]] _; reflexivity. }
  split; [exact H|]. split.
  - exact (proj2 (text_context_rejection threePages brokenLastPage 3 0 H)).
  - reflexivity.
Defined.

(** ** PCM conversion *)

Lemma Qtrunc_nonneg (q : Q) : 0 <= q -> Qtrunc q = Qfloor q.
Proof.
  intro H. unfold Qtrunc. destruct q as [n d]. simpl.
  apply Z.quot_div_nonneg; [|lia].
  unfold Qle in H. simpl in H. lia.
Qed.

Lemma Qtrunc_nonpos (q : Q) : q <= 0 -> Qtrunc q = (- Qfloor (- q))%Z.
Proof.
  intro H. unfold Qtrunc. destruct q as [n d]. simpl.
  assert (Hn : (n <= 0)%Z) by (unfold Qle in H; simpl in H; lia).
  replace n with (- - n)%Z at 1 by lia.
  rewrite Z.quot_opp_l by lia. f_equal.
  apply Z.quot_div_nonneg; lia.
Qed.

(** The integer part is within one of the number, on the side of zero. *)
Lemma Qtrunc_spec (q : Q) :
  (0 <= q -> (0 <= Qtrunc q)%Z
             /\ inject_Z (Qtrunc q) <= q /\ q < inject_Z (Qtrunc q) + 1)
  /\ (q <= 0 -> (Qtrunc q <= 0)%Z
                /\ q <= inject_Z (Qtrunc q)
                /\ inject_Z (Qtrunc q) - 1 < q).
Proof.
  split; intro H.
  - rewrite (Qtrunc_nonneg q H). split; [|split].
    + rewrite <- (Qfloor_Z 0). now apply Qfloor_resp_le.
    + apply Qfloor_le.
    + pose proof (Qlt_floor q) as L. rewrite inject_Z_plus in L. exact L.
  - rewrite (Qtrunc_nonpos q H).
    assert (H' : 0 <= - q).
    { apply (Qopp_le_compat q 0) in H. exact H. }
    pose proof (Qfloor_le (- q)) as L1.
    pose proof (Qlt_floor (- q)) as L2. rewrite inject_Z_plus in L2.
    assert (L0 : (0 <= Qfloor (- q))%Z).
    { rewrite <- (Qfloor_Z 0). now apply Qfloor_resp_le. }
    rewrite inject_Z_opp. split; [lia|]. split.
    + apply Qopp_le_compat in L1. now rewrite Qopp_involutive in L1.
    + apply Qopp_lt_compat in L2. rewrite Qopp_involutive in L2.
      setoid_replace (- inject_Z (Qfloor (- q)) - 1)
        with (- (inject_Z (Qfloor (- q)) + inject_Z 1)) by ring.
      exact L2.
Qed.

Lemma toInt16_range (q : Q) : (- 32768 <= toInt16 q <= 32767)%Z.
Proof.
  unfold toInt16. cbv zeta.
  pose proof (Z.mod_pos_bound (Qtrunc q) (2 ^ 16) eq_refl) as B.
  change (2 ^ 16)%Z with 65536%Z in *. change (2 ^ 15)%Z with 32768%Z.
  destruct (Z.leb_spec 32768 (Qtrunc q mod 65536)); lia.
Qed.

Lemma toInt16_small (q : Q) :
  (- 32768 <= Qtrunc q <= 32767)%Z -> toInt16 q = Qtrunc q.
Proof.
  intro H. unfold toInt16. cbv zeta.
  change (2 ^ 16)%Z with 65536%Z. change (2 ^ 15)%Z with 32768%Z.
  destruct (Z.leb_spec 32768 (Qtrunc q mod 65536)) as [L|L];
    revert L; Z.div_mod_to_equations; lia.
Qed.

Lemma scaled_bounds (x lo hi : Q) :
  lo <= x -> x < hi -> lo * 32768 <= x * 32768 /\ x * 32768 < hi * 32768.
Proof.
  intros Hlo Hhi. split.
  - apply Qmult_le_r; [reflexivity | exact Hlo].
  - apply Qmult_lt_r; [reflexivity | exact Hhi].
Qed.

Lemma Qtrunc_bounds (q : Q) (a b : Z) :
  (a <= 0)%Z -> (0 < b)%Z -> inject_Z a <= q -> q < inject_Z b ->
  (a <= Qtrunc q < b)%Z.
Proof.
  intros Ha Hb Hlo Hhi. destruct (Qlt_le_dec q 0) as [Hneg|Hpos].
  - destruct (proj2 (Qtrunc_spec q) (Qlt_le_weak _ _ Hneg)) as (T0 & T1 & T2).
    split; [|lia].
    assert (L : inject_Z a - 1 < inject_Z (Qtrunc q) - 1 + 1).
    { setoid_replace (inject_Z (Qtrunc q) - 1 + 1) with (inject_Z (Qtrunc q))
        by ring.
      apply Qlt_le_trans with (inject_Z a).
      - apply Qminus_le_0 in Hlo. clear - a.
        rewrite Qlt_minus_iff. setoid_replace (inject_Z a + - (inject_Z a - 1))
          with 1 by ring. reflexivity.
      - apply Qle_trans with q; assumption. }
    setoid_replace (inject_Z (Qtrunc q) - 1 + 1) with (inject_Z (Qtrunc q))
      in L by ring.
    assert (L' : inject_Z (a - 1) < inject_Z (Qtrunc q)).
    { unfold Z.sub. rewrite inject_Z_plus, inject_Z_opp. exact L. }
    rewrite <- Zlt_Qlt in L'. lia.
  - destruct (proj1 (Qtrunc_spec q) Hpos) as (T0 & T1 & T2).
    split; [lia|]. rewrite Zlt_Qlt.
    apply Qle_lt_trans with q; assumption.
Qed.

(** Truncation moves a number by less than one. *)
Lemma Qtrunc_error (q : Q) : Qabs (inject_Z (Qtrunc q) - q) < 1.
Proof.
  set (t := Qtrunc q).
  apply Qabs_Qlt_condition. destruct (Qlt_le_dec q 0) as [Hneg|Hpos].
  - destruct (proj2 (Qtrunc_spec q) (Qlt_le_weak _ _ Hneg))
      as (_ & T1 & T2). fold t in T1, T2. split.
    + apply Qlt_le_trans with 0; [reflexivity|].
      apply (Qplus_le_l _ _ q). ring_simplify. exact T1.
    + apply (Qplus_lt_l _ _ (q - 1)).
      setoid_replace (inject_Z t - q + (q - 1)) with (inject_Z t - 1)
        by ring.
      setoid_replace (1 + (q - 1)) with q by ring. exact T2.
  - destruct (proj1 (Qtrunc_spec q) Hpos) as (_ & T1 & T2).
    fold t in T1, T2. split.
    + apply (Qplus_lt_l _ _ (q + 1)).
      setoid_replace (- (1) + (q + 1)) with q by ring.
      setoid_replace (inject_Z t - q + (q + 1)) with (inject_Z t + 1)
        by ring. exact T2.
    + apply Qle_lt_trans with 0; [|reflexivity].
      apply (Qplus_le_l _ _ q). ring_simplify. exact T1.
Qed.

Lemma pcmSample_error (x : Q) :
  -1 <= x -> x < 1 ->
  Qabs (inject_Z (pcmSample x) / 32768 - x) < 1 / 32768.
Proof.
  intros Hlo Hhi.
  destruct (scaled_bounds x (-1) 1 Hlo Hhi) as [Qlo Qhi].
  assert (B : (- 32768 <= Qtrunc (x * 32768) < 32768)%Z).
  { apply Qtrunc_bounds; try lia; assumption. }
  assert (E : pcmSample x = Qtrunc (x * 32768)).
  { unfold pcmSample. apply toInt16_small. lia. }
  rewrite E.
  setoid_replace (inject_Z (Qtrunc (x * 32768)) / 32768 - x)
    with ((inject_Z (Qtrunc (x * 32768)) - x * 32768) / 32768) by field.
  unfold Qdiv. rewrite Qabs_Qmult.
  setoid_replace (1 * / 32768) with (1 * Qabs (/ 32768)) by reflexivity.
  apply Qmult_lt_r; [reflexivity | apply Qtrunc_error].
Qed.

(** X12.  A microphone sample [x] with -1 <= x < 1 is stored as the
    16-bit value [trunc (x * 32768)], which lies in [-32768, 32767], has
    the sign of [x], and is less than one step (1/32768) away from [x]
    when read back as a fraction of 32768. *)
Theorem pcm_quantisation (x : Q) (Hlo : -1 <= x) (Hhi : x < 1) :
  pcmSample x = Qtrunc (x * 32768)
  /\ (- 32768 <= pcmSample x <= 32767)%Z
  /\ (0 <= x -> (0 <= pcmSample x)%Z)
  /\ (x <= 0 -> (pcmSample x <= 0)%Z)
  /\ Qabs (inject_Z (pcmSample x) / 32768 - x) < 1 / 32768.
Proof.
  destruct (scaled_bounds x (-1) 1 Hlo Hhi) as [Qlo Qhi].
  assert (B : (- 32768 <= Qtrunc (x * 32768) < 32768)%Z).
  { apply Qtrunc_bounds; try lia; assumption. }
  assert (E : pcmSample x = Qtrunc (x * 32768)).
  { unfold pcmSample. apply toInt16_small. lia. }
  rewrite E. split; [reflexivity|]. split; [lia|].
  split; [|split].
  - intro H0.
    assert (Q0 : 0 <= x * 32768).
    { now apply Qmult_le_0_compat. }
    apply (proj1 (Qtrunc_spec _) Q0).
  - intro H0.
    assert (Q0 : x * 32768 <= 0).
    { setoid_replace 0 with (0 * 32768) by ring.
      apply Qmult_le_r; [reflexivity | exact H0]. }
    apply (proj2 (Qtrunc_spec _) Q0).
  - rewrite <- E. now apply pcmSample_error.
Qed.

Lemma pcm_quantisation_witness :
  -1 <= 0.5 /\ 0.5 < 1 /\ pcmSample 0.5 = 16384%Z
  /\ pcmSample 0.5 = Qtrunc (0.5 * 32768).
Proof.
  assert (Hlo : -1 <= 0.5) by discriminate.
  assert (Hhi : 0.5 < 1) by reflexivity.
  split; [exact Hlo|]. split; [exact Hhi|]. split; [reflexivity|].
  exact (proj1 (pcm_quantisation 0.5 Hlo Hhi)).
Defined.

(** X13.  A sample [x] with 1 <= x < 2 (full scale or louder) does not
    saturate: it is stored as [trunc (x * 32768) - 65536], a negative
    value; the sample 1.0 itself becomes -32768.  Whatever the sample, the
    stored value lies in [-32768, 32767]. *)
Theorem pcm_overflow_wraps (x : Q) (Hlo : 1 <= x) (Hhi : x < 2) :
  pcmSample x = (Qtrunc (x * 32768) - 65536)%Z
  /\ (- 32768 <= pcmSample x < 0)%Z
  /\ pcmSample 1 = (- 32768)%Z
  /\ forall y, (- 32768 <= pcmSample y <= 32767)%Z.
Proof.
  destruct (scaled_bounds x 1 2 Hlo Hhi) as [Qlo Qhi].
  assert (Q0 : 0 <= x * 32768).
  { apply Qle_trans with (1 * 32768); [discriminate | exact Qlo]. }
  destruct (proj1 (Qtrunc_spec _) Q0) as (T0 & T1 & T2).
  assert (B : (32768 <= Qtrunc (x * 32768) < 65536)%Z).
  { split.
    - assert (L : inject_Z 32768 < inject_Z (Qtrunc (x * 32768) + 1)).
      { rewrite inject_Z_plus.
        apply Qle_lt_trans with (x * 32768); assumption. }
      rewrite <- Zlt_Qlt in L. lia.
    - rewrite Zlt_Qlt. apply Qle_lt_trans with (x * 32768); assumption. }
  assert (E : pcmSample x = (Qtrunc (x * 32768) - 65536)%Z).
  { unfold pcmSample, toInt16. cbv zeta.
    change (2 ^ 16)%Z with 65536%Z. change (2 ^ 15)%Z with 32768%Z.
    rewrite Z.mod_small by lia.
    destruct (Z.leb_spec 32768 (Qtrunc (x * 32768))); lia. }
  split; [exact E|]. split; [lia|]. split; [reflexivity|].
  intro y. apply toInt16_range.
Qed.

Lemma pcm_overflow_wraps_witness :
  1 <= 1.5 /\ 1.5 < 2 /\ pcmSample 1.5 = (- 16384)%Z
  /\ pcmSample 1.5 = (Qtrunc (1.5 * 32768) - 65536)%Z.
Proof.
  assert (Hlo : 1 <= 1.5) by discriminate.
  assert (Hhi : 1.5 < 2) by reflexivity.
  split; [exact Hlo|]. split; [exact Hhi|]. split; [reflexivity|].
  exact (proj1 (pcm_overflow_wraps 1.5 Hlo Hhi)).
Defined.

Lemma signed16_bytes (v : Z) :
  (- 32768 <= v <= 32767)%Z ->
  signed16 (v mod 256 + 256 * ((v / 256) mod 256)) = v.
Proof.
  intro H. unfold signed16.
  change (2 ^ 16)%Z with 65536%Z. change (2 ^ 15)%Z with 32768%Z.
  destruct (Z.leb_spec 32768 (v mod 256 + 256 * ((v / 256) mod 256)))
    as [L|L]; revert L; Z.div_mod_to_equations; lia.
Qed.

Lemma int16View_pcmBytes (data : list Q) :
  int16View (pcmBytes data) = Some (map pcmSample data).
Proof.
  induction data as [|x data IH]; [reflexivity|].
  unfold pcmBytes in *. cbn [flat_map int16Bytes app int16View map].
  rewrite IH. rewrite signed16_bytes by apply toInt16_range. reflexivity.
Qed.

Lemma int16View_parity (bytes : list Z) :
  (int16View bytes = None <-> Nat.odd (List.length bytes) = true)
  /\ (forall b, int16View (b :: bytes) = None
                <-> Nat.odd (S (List.length bytes)) = true).
Proof.
  induction bytes as [|a bytes [IH1 IH2]].
  - split; [|intro b]; simpl; split; auto; discriminate.
  - split; [apply IH2|]. intro b.
    cbn [int16View List.length].
    rewrite Nat.odd_succ_succ.
    destruct (int16View bytes) eqn:E.
    + split; [discriminate|]. intro H. apply IH1 in H. discriminate H.
    + split; [intros _; now apply IH1 | reflexivity].
Qed.

Lemma int16View_length (bytes vs : list Z) :
  int16View bytes = Some vs -> List.length bytes = (2 * List.length vs)%nat.
Proof.
  assert (H : forall n bytes vs, (List.length bytes <= n)%nat ->
                int16View bytes = Some vs ->
                List.length bytes = (2 * List.length vs)%nat).
  { clear. induction n as [|n IH]; intros bytes vs Hn Hv.
    - destruct bytes; [|simpl in Hn; lia]. injection Hv as <-. reflexivity.
    - destruct bytes as [|lo [|hi rest]]; [injection Hv as <-; reflexivity
                                         | discriminate Hv |].
      cbn [int16View] in Hv.
      destruct (int16View rest) as [vs'|] eqn:E; [|discriminate Hv].
      injection Hv as <-. simpl in Hn.
      assert (Hr : List.length rest = (2 * List.length vs')%nat).
      { apply IH; [lia | exact E]. }
      simpl. lia. }
  apply (H (List.length bytes)). lia.
Qed.

Lemma int16View_empty (bytes : list Z) :
  int16View bytes = Some [] <-> bytes = [].
Proof.
  split; [|now intros ->].
  destruct bytes as [|lo [|hi rest]]; [reflexivity | discriminate |].
  cbn [int16View]. destruct (int16View rest); discriminate.
Qed.

(** X14.  The bytes [pcmFloat32ToBase64] hands to [encode] are two per
    sample, and for at least one sample [decodeAudioData] reads them back
    as the stored 16-bit values divided by 32768, so that every sample in
    [-1, 1) comes back less than 1/32768 away from itself.
    [decodeAudioData] fails exactly for the empty buffer (no frame) and for
    a buffer with an odd number of bytes; a decoded buffer has at least one
    sample and half as many samples as bytes.  So the bytes of no samples
    are not decoded. *)
Theorem pcm_round_trip (data : list Q)
  (Hne : data <> [])
  (Hdata : Forall (fun x => -1 <= x /\ x < 1) data) :
  List.length (pcmBytes data) = (2 * List.length data)%nat
  /\ decodeAudioData (pcmBytes data)
     = Some (map (fun x => inject_Z (pcmSample x) / 32768) data)
  /\ Forall (fun x => Qabs (inject_Z (pcmSample x) / 32768 - x) < 1 / 32768)
            data
  /\ (forall bytes, decodeAudioData bytes = None
                    <-> bytes = [] \/ Nat.odd (List.length bytes) = true)
  /\ (forall bytes samples,
         decodeAudioData bytes = Some samples ->
         samples <> []
         /\ List.length bytes = (2 * List.length samples)%nat)
  /\ decodeAudioData (pcmBytes []) = None.
Proof.
  split; [|split; [|split; [|split; [|split]]]].
  - clear Hne Hdata. induction data as [|x data IH]; [reflexivity|].
    unfold pcmBytes in *. cbn [flat_map int16Bytes app List.length].
    rewrite IH. lia.
  - unfold decodeAudioData. rewrite int16View_pcmBytes.
    destruct data as [|x data]; [now elim Hne|].
    cbn [map List.length Nat.eqb]. now rewrite map_map.
  - eapply Forall_impl; [|exact Hdata].
    intros x [Hlo Hhi]. now apply pcmSample_error.
  - intro bytes. unfold decodeAudioData.
    destruct (int16View_parity bytes) as [P _].
    destruct (int16View bytes) as [[|v vs]|] eqn:E.
    + apply int16View_empty in E. cbn [List.length Nat.eqb]. tauto.
    + cbn [List.length Nat.eqb]. split; [discriminate|].
      intros [->|H]; [discriminate E|].
      apply P in H. discriminate H.
    + tauto.
  - intros bytes samples H. unfold decodeAudioData in H.
    destruct (int16View bytes) as [[|v vs]|] eqn:E; try discriminate H.
    cbn [List.length Nat.eqb] in H. injection H as <-.
    split; [discriminate|].
    apply int16View_length in E. rewrite E.
    cbn [map List.length]. now rewrite length_map.
  - reflexivity.
Qed.

Lemma pcm_round_trip_witness :
  [0.5; -0.25; 0] <> []
  /\ Forall (fun x => -1 <= x /\ x < 1) [0.5; -0.25; 0]
  /\ decodeAudioData (pcmBytes [0.5; -0.25; 0])
     = Some (map (fun x => inject_Z (pcmSample x) / 32768) [0.5; -0.25; 0])
  /\ pcmBytes [0.5; -0.25; 0] = [0; 64; 0; 224; 0; 0]%Z.
Proof.
  assert (Hne : [0.5; -0.25; 0] <> []) by discriminate.
  assert (H : Forall (fun x => -1 <= x /\ x < 1) [0.5; -0.25; 0]).
  { repeat constructor; discriminate. }
  split; [exact Hne|]. split; [exact H|]. split.
  - exact (proj1 (proj2 (pcm_round_trip [0.5; -0.25; 0] Hne H))).
  - reflexivity.
Defined.

(** ** Playback scheduling *)

Lemma chunkDuration_nonneg (samples : list Q) : 0 <= chunkDuration samples.
Proof.
  unfold chunkDuration. apply Qle_shift_div_l; [reflexivity|].
  rewrite Qmult_0_l. change 0 with (inject_Z 0). rewrite <- Zle_Qle. lia.
Qed.

Lemma StronglySorted_snoc {A : Type} (R : A -> A -> Prop) (l : list A)
  (x : A) :
  StronglySorted R l -> Forall (fun a => R a x) l ->
  StronglySorted R (l ++ [x]).
Proof.
  induction 1 as [|a l Hs IH Hall]; intro Hx; simpl.
  - constructor; constructor.
  - inversion Hx as [|? ? Hax Hlx]; subst.
    constructor; [now apply IH|].
    apply Forall_app. split; [exact Hall | constructor; [exact Hax|constructor]].
Qed.

Lemma removeAt_incl {A : Type} (k : nat) (l : list A) (P : A -> Prop) :
  Forall P l -> Forall P (removeAt k l).
Proof.
  revert k. induction l as [|x l IH]; intros k H; [destruct k; constructor|].
  inversion H as [|? ? Hx Hl]; subst.
  destruct k; simpl; [exact Hl | constructor; [exact Hx | now apply IH]].
Qed.

Lemma removeAt_sorted {A : Type} (R : A -> A -> Prop) (k : nat)
  (l : list A) :
  StronglySorted R l -> StronglySorted R (removeAt k l).
Proof.
  revert k. induction l as [|x l IH]; intros k H; [destruct k; constructor|].
  inversion H as [|? ? Hs Hall]; subst.
  destruct k; simpl; [exact Hs|].
  constructor; [now apply IH | now apply removeAt_incl].
Qed.

(** What scheduling keeps true: the sources, in scheduling order, each end
    before the next starts, and all end by [nextStartTime]. *)
Lemma playbackStep_chained (pb : Playback) (ev : PlaybackEvent) :
  StronglySorted endsBefore (sources pb)
  /\ Forall (fun a => fst a + snd a <= nextStartTime pb) (sources pb) ->
  StronglySorted endsBefore (sources (playbackStep pb ev))
  /\ Forall (fun a => fst a + snd a <= nextStartTime (playbackStep pb ev))
            (sources (playbackStep pb ev)).
Proof.
  intros [Hs Hn]. destruct ev as [currentTime data| |k]; simpl.
  - unfold playAudio. destruct (decodeAudioData data) as [samples|];
      [|split; assumption].
    set (d := chunkDuration samples).
    assert (Hd : 0 <= d) by apply chunkDuration_nonneg.
    set (start := if Qltb (nextStartTime pb) currentTime then currentTime
                  else nextStartTime pb).
    assert (Hstart : nextStartTime pb <= start).
    { unfold start. destruct (Qltb (nextStartTime pb) currentTime) eqn:E.
      - apply Qltb_lt in E. now apply Qlt_le_weak.
      - apply Qle_refl. }
    assert (Hgrow : start <= start + d).
    { rewrite <- (Qplus_0_r start) at 1. now apply Qplus_le_r. }
    simpl. split.
    + apply StronglySorted_snoc; [exact Hs|].
      eapply Forall_impl; [|exact Hn].
      intros a Ha. unfold endsBefore. simpl.
      now apply Qle_trans with (nextStartTime pb).
    + apply Forall_app. split.
      * eapply Forall_impl; [|exact Hn]. intros a Ha.
        apply Qle_trans with (nextStartTime pb); [exact Ha|].
        now apply Qle_trans with start.
      * constructor; [apply Qle_refl | constructor].
  - split; constructor.
  - split; [now apply removeAt_sorted | now apply removeAt_incl].
Qed.

(** X15.  Audio chunks never overlap.  After any sequence of audio
    parts (decodable or not, with any clock readings), interruptions and
    ended sources, the scheduled sources, in scheduling order, each end no
    later than the next one starts, and all end by [nextStartTime].  A
    further decodable chunk is appended with the duration of its frames at
    24000 per second; it starts at [nextStartTime], right behind the
    previous chunk, unless the clock has passed that time, and then at the
    clock reading. *)
Theorem playback_never_overlaps (evs : list PlaybackEvent)
  (currentTime : Q) (data : list Z) (x : Q) (samples : list Q)
  (Hdata : decodeAudioData data = Some (x :: samples)) :
  let pb := fold_left playbackStep evs idlePlayback in
  let duration := inject_Z (Z.of_nat (S (List.length samples))) / 24000 in
  StronglySorted endsBefore (sources pb)
  /\ Forall (fun a => fst a + snd a <= nextStartTime pb) (sources pb)
  /\ exists start,
       sources (playAudio currentTime data pb)
       = sources pb ++ [(start, duration)]
       /\ nextStartTime (playAudio currentTime data pb) = start + duration
       /\ nextStartTime pb <= start
       /\ currentTime <= start
       /\ (currentTime <= nextStartTime pb -> start = nextStartTime pb)
       /\ (nextStartTime pb < currentTime -> start = currentTime).
Proof.
  intros pb duration.
  assert (H : StronglySorted endsBefore (sources pb)
              /\ Forall (fun a => fst a + snd a <= nextStartTime pb)
                        (sources pb)).
  { unfold pb.
    assert (H0 : StronglySorted endsBefore (sources idlePlayback)
                 /\ Forall (fun a => fst a + snd a
                                     <= nextStartTime idlePlayback)
                           (sources idlePlayback))
      by (split; constructor).
    revert H0. generalize idlePlayback.
    induction evs as [|ev evs IH]; intros p Hp; [exact Hp|].
    apply (IH (playbackStep p ev)). now apply playbackStep_chained. }
  destruct H as [Hs Hn].
  split; [exact Hs|]. split; [exact Hn|].
  exists (if Qltb (nextStartTime pb) currentTime then currentTime
          else nextStartTime pb).
  unfold playAudio. rewrite Hdata. simpl.
  split; [reflexivity|]. split; [reflexivity|].
  destruct (Qltb (nextStartTime pb) currentTime) eqn:E.
  - apply Qltb_lt in E. split; [now apply Qlt_le_weak|].
    split; [apply Qle_refl|]. split; [|reflexivity].
    intro L. exfalso. exact (Qlt_not_le _ _ E L).
  - apply Qltb_ge in E. split; [apply Qle_refl|]. split; [exact E|].
    split; [reflexivity|]. intro L. exfalso. exact (Qlt_not_le _ _ L E).
Qed.

Lemma playback_never_overlaps_witness :
  decodeAudioData (pcmBytes [0.5; 0.25])
  = Some [inject_Z 16384 / 32768; inject_Z 8192 / 32768]
  /\ sources (fold_left playbackStep sampleExchange idlePlayback)
     = [(5, chunkDuration [0.25; 0.25])]
  /\ StronglySorted endsBefore
       (sources (fold_left playbackStep sampleExchange idlePlayback)).
Proof.
  assert (H : decodeAudioData (pcmBytes [0.5; 0.25])
              = Some [inject_Z 16384 / 32768; inject_Z 8192 / 32768])
    by reflexivity.
  split; [exact H|]. split; [reflexivity|].
  exact (proj1 (playback_never_overlaps sampleExchange 6
                  (pcmBytes [0.5; 0.25]) (inject_Z 16384 / 32768)
                  [inject_Z 8192 / 32768] H)).
Defined.

(** ** Audio levels and the orb *)

Lemma sum_bytes_bounds (l : list Z) (a : Z) :
  Forall (fun b => (0 <= b <= 255)%Z) l ->
  (a <= fold_left Z.add l a <= a + 255 * Z.of_nat (List.length l))%Z.
Proof.
  revert a. induction l as [|b l IH]; intros a H; simpl fold_left.
  - simpl. lia.
  - inversion H as [|? ? Hb Hl]; subst. specialize (IH (a + b)%Z Hl).
    cbn [List.length]. lia.
Qed.

(** X16.  For an analyser frame, a non-empty array of bytes (0..255),
    the level [analyzeAudioLevels] reports is a number between 0 and 1;
    for an empty array there is no level (the reduction throws). *)
Theorem audio_level_in_unit_interval (dataArray : list Z)
  (Hne : dataArray <> [])
  (Hbytes : Forall (fun b => (0 <= b <= 255)%Z) dataArray) :
  averageLevel [] = None
  /\ exists level, averageLevel dataArray = Some level
                   /\ 0 <= level /\ level <= 1.
Proof.
  split; [reflexivity|].
  destruct dataArray as [|b rest]; [now elim Hne|].
  inversion Hbytes as [|? ? Hb Hrest]; subst.
  pose proof (sum_bytes_bounds rest b Hrest) as [Slo Shi].
  eexists. split; [reflexivity|].
  set (sum := fold_left Z.add rest b) in *.
  set (n := Z.of_nat (List.length (b :: rest))).
  assert (Hn : (1 <= n)%Z) by (unfold n; cbn [List.length]; lia).
  assert (Hsum : (0 <= sum <= 255 * n)%Z).
  { unfold n. cbn [List.length]. lia. }
  assert (Qn : 0 < inject_Z n).
  { change 0 with (inject_Z 0). rewrite <- Zlt_Qlt. lia. }
  split.
  - apply Qle_shift_div_l; [reflexivity|]. rewrite Qmult_0_l.
    apply Qle_shift_div_l; [exact Qn|]. rewrite Qmult_0_l.
    change 0 with (inject_Z 0). rewrite <- Zle_Qle. lia.
  - apply Qle_shift_div_r; [reflexivity|]. rewrite Qmult_1_l.
    apply Qle_shift_div_r; [exact Qn|].
    change 255 with (inject_Z 255). rewrite <- inject_Z_mult, <- Zle_Qle.
    lia.
Qed.

Lemma audio_level_in_unit_interval_witness :
  [0; 128; 255]%Z <> []
  /\ Forall (fun b => (0 <= b <= 255)%Z) [0; 128; 255]%Z
  /\ exists level, averageLevel [0; 128; 255]%Z = Some level
                   /\ 0 <= level /\ level <= 1.
Proof.
  assert (Hne : [0; 128; 255]%Z <> []) by discriminate.
  assert (Hb : Forall (fun b => (0 <= b <= 255)%Z) [0; 128; 255]%Z)
    by (repeat constructor; lia).
  split; [exact Hne|]. split; [exact Hb|].
  exact (proj2 (audio_level_in_unit_interval [0; 128; 255]%Z Hne Hb)).
Defined.

(** X17.  The assistant shows nothing while inactive.  While active,
    with levels between 0 and 1, the status is "Speaking" exactly when the
    tutor's level exceeds 0.04 and exactly when the icon is the sparkles;
    the muted-speaker icon appears only with the status "Ready" and a user
    level in (0.005, 0.04]; the status "Listening" comes only with the
    microphone icon and a user level above 0.04; the glow is scaled by a
    factor in [1.2, 6] and the ring by one in [1.4, 7.2]. *)
Theorem orb_is_consistent (userAudioLevel aiAudioLevel : Q)
  (Hu : 0 <= userAudioLevel /\ userAudioLevel <= 1)
  (Ha : 0 <= aiAudioLevel /\ aiAudioLevel <= 1) :
  AIAssistant false userAudioLevel aiAudioLevel = None
  /\ exists orb,
       AIAssistant true userAudioLevel aiAudioLevel = Some orb
       /\ (status orb = Speaking <-> 0.04 < aiAudioLevel)
       /\ (status orb = Speaking <-> icon orb = Sparkles)
       /\ (icon orb = VolumeX ->
           status orb = Ready
           /\ 0.005 < userAudioLevel /\ userAudioLevel <= 0.04)
       /\ (status orb = Listening ->
           icon orb = Mic /\ 0.04 < userAudioLevel)
       /\ 1.2 <= glowScale orb /\ glowScale orb <= 6
       /\ 1.4 <= ringScale orb /\ ringScale orb <= 7.2.
Proof.
  split; [reflexivity|].
  destruct Hu as [Hu0 Hu1], Ha as [Ha0 Ha1].
  eexists. split; [reflexivity|]. simpl.
  destruct (Qltb 0.04 aiAudioLevel) eqn:Ea.
  - apply Qltb_lt in Ea.
    split; [tauto|]. split; [tauto|].
    split; [discriminate|]. split; [discriminate|].
    repeat split; lra.
  - apply Qltb_ge in Ea.
    assert (Hns : forall s, (if Qltb 0.04 userAudioLevel then Listening
                             else Ready) = s -> s <> Speaking).
    { intros s <-. destruct (Qltb 0.04 userAudioLevel); discriminate. }
    split.
    { split; [intro H; exfalso; exact (Hns _ eq_refl H) | intro H; lra]. }
    destruct (Qltb 0.04 userAudioLevel) eqn:Eu.
    + apply Qltb_lt in Eu.
      assert (Ele : Qle_bool userAudioLevel 0.04 = false).
      { destruct (Qle_bool userAudioLevel 0.04) eqn:E; [|reflexivity].
        apply Qle_bool_iff in E. lra. }
      rewrite Ele, andb_false_r.
      split; [split; discriminate|]. split; [discriminate|].
      split; [intros _; split; [reflexivity | exact Eu]|].
      repeat split; lra.
    + apply Qltb_ge in Eu.
      assert (Ele : Qle_bool userAudioLevel 0.04 = true)
        by (now apply Qle_bool_iff).
      rewrite Ele, andb_true_r.
      destruct (Qltb 0.005 userAudioLevel) eqn:En.
      * apply Qltb_lt in En.
        split; [split; discriminate|].
        split; [intros _; repeat split; assumption|].
        split; [discriminate|]. repeat split; lra.
      * split; [split; discriminate|]. split; [discriminate|].
        split; [discriminate|]. repeat split; lra.
Qed.

Lemma orb_is_consistent_witness :
  (0 <= 0.02 /\ 0.02 <= 1) /\ (0 <= 0 /\ 0 <= 1)
  /\ exists orb, AIAssistant true 0.02 0 = Some orb /\ icon orb = VolumeX.
Proof.
  assert (Hu : 0 <= 0.02 /\ 0.02 <= 1) by (split; discriminate).
  assert (Ha : 0 <= 0 /\ 0 <= 1) by (split; discriminate).
  split; [exact Hu|]. split; [exact Ha|].
  destruct (proj2 (orb_is_consistent 0.02 0 Hu Ha)) as (orb & Ho & _).
  exists orb. split; [exact Ho|].
  injection Ho as <-. reflexivity.
Defined.

(** ** The shell and the page-text tool *)

Lemma lastPageText_step (trim : string -> string) (st : Shell)
  (ev : ShellEvent) :
  lastPageText (shellStep trim st ev)
  = match ev with DeliverText _ text => text | _ => lastPageText st end.
Proof.
  destruct ev as [outcome|isLive text|value| |open]; simpl; try reflexivity.
  - unfold toggleLiveSession. destruct (live st); [reflexivity|].
    destruct (isEmpty (apiKey st)); [reflexivity|].
    destruct outcome as [|message]; [reflexivity|].
    destruct (match message with
              | Some m => negb (isEmpty m) && includes "401" m
              | None => false
              end); reflexivity.
  - unfold handleSaveKey.
    destruct (10 <? String.length (trim (tempKey st)))%nat; reflexivity.
Qed.

Lemma lastPageText_run (trim : string -> string) (evs : list ShellEvent)
  (st : Shell) :
  lastPageText (fold_left (shellStep trim) evs st)
  = latestText (lastPageText st) evs.
Proof.
  revert st. induction evs as [|ev evs IH]; intro st; [reflexivity|].
  simpl fold_left. rewrite IH, lastPageText_step.
  destruct ev; reflexivity.
Qed.

Lemma isEmpty_true (s : string) : isEmpty s = true -> s = EmptyString.
Proof. destruct s; [reflexivity | discriminate]. Qed.

Lemma session_step (trim : string -> string) (st : Shell) (ev : ShellEvent) :
  serviceWhileLive st -> serviceWhileLive (shellStep trim st ev).
Proof.
  unfold serviceWhileLive. intros (Hoff & Hon).
  destruct ev as [outcome|isLive text|value| |open]; simpl.
  - unfold toggleLiveSession. destruct (live st) eqn:El.
    + simpl. split; [reflexivity | discriminate].
    + destruct (isEmpty (apiKey st)).
      * simpl. split; [exact Hoff | discriminate].
      * destruct outcome as [|message].
        -- simpl. split; [discriminate|]. intros _. eexists. reflexivity.
        -- destruct (match message with
                     | Some m => negb (isEmpty m) && includes "401" m
                     | None => false
                     end); simpl; (split; [exact Hoff | discriminate]).
  - split.
    + intro El. now rewrite (Hoff El).
    + intro El. destruct (Hon El) as [svc ->].
      destruct isLive; eexists; reflexivity.
  - split; assumption.
  - unfold handleSaveKey.
    destruct (10 <? String.length (trim (tempKey st)))%nat; simpl;
      (split; assumption).
  - split; assumption.
Qed.

Lemma session_run (trim : string -> string) (evs : list ShellEvent)
  (s : Shell) :
  serviceWhileLive s ->
  serviceWhileLive (fold_left (shellStep trim) evs s).
Proof.
  revert s. induction evs as [|ev evs IH]; intros s Hs; [exact Hs|].
  apply (IH (shellStep trim s ev)). now apply session_step.
Qed.

Lemma lastText_step (trim : string -> string) (st : Shell) (ev : ShellEvent) :
  serviceWhileLive st -> serviceHasLastText st ->
  noStaleDelivery trim st [ev] = true ->
  serviceHasLastText (shellStep trim st ev).
Proof.
  unfold serviceHasLastText. intros (Hoff & _) Hon Hfresh.
  destruct ev as [outcome|isLive text|value| |open]; simpl.
  - unfold toggleLiveSession. destruct (live st) eqn:El.
    + simpl. discriminate.
    + destruct (isEmpty (apiKey st)).
      * simpl. discriminate.
      * destruct outcome as [|message].
        -- simpl. intros _.
           destruct (isEmpty (lastPageText st)) eqn:Ee; [|reflexivity].
           now rewrite (isEmpty_true _ Ee).
        -- destruct (match message with
                     | Some m => negb (isEmpty m) && includes "401" m
                     | None => false
                     end); simpl; discriminate.
  - intro El. cbn [noStaleDelivery] in Hfresh. rewrite El in Hfresh.
    destruct isLive; [|discriminate Hfresh].
    now rewrite (Hon El).
  - exact Hon.
  - unfold handleSaveKey.
    destruct (10 <? String.length (trim (tempKey st)))%nat; simpl; exact Hon.
  - exact Hon.
Qed.

Lemma lastText_run (trim : string -> string) (evs : list ShellEvent)
  (s : Shell) :
  serviceWhileLive s -> serviceHasLastText s ->
  noStaleDelivery trim s evs = true ->
  serviceHasLastText (fold_left (shellStep trim) evs s).
Proof.
  revert s. induction evs as [|ev evs IH]; intros s Hs Ht Hf; [exact Ht|].
  cbn [noStaleDelivery] in Hf. apply andb_true_iff in Hf.
  destruct Hf as [Hev Hrest].
  apply (IH (shellStep trim s ev)).
  - now apply session_step.
  - apply lastText_step; [exact Hs | exact Ht |].
    cbn [noStaleDelivery]. now rewrite Hev.
  - exact Hrest.
Qed.

(** X18.  Whatever the user and the reader do (starting and closing the
    tutor, with connection attempts that succeed or fail, page texts
    delivered at any time through callbacks of any age, the key dialog),
    the shell remembers the text delivered last and holds a service exactly
    while live.  While live, a [getPageText] call is answered with the
    call's id and the text delivered last, provided no text was delivered,
    while the shell was live, through a callback created before it went
    live.  Such a stale delivery is remembered by the shell but does not
    reach the service, whose answer stays what it was; a delivery through a
    callback created while live does reach it.  A call of any other name
    gets no answer. *)
Theorem tool_answers_latest_page_text (trim : string -> string)
  (envKey stored : option string) (evs : list ShellEvent)
  (id name text : string) (svc0 : TutorService) :
  let st := fold_left (shellStep trim) evs (initialShell envKey stored) in
  lastPageText st = latestText EmptyString evs
  /\ (live st = false -> liveService st = None)
  /\ (live st = true ->
      exists svc,
        liveService st = Some svc
        /\ (noStaleDelivery trim (initialShell envKey stored) evs = true ->
            answerToolCall svc [mkCall id "getPageText"]
            = [mkResponse id "getPageText" (latestText EmptyString evs)])
        /\ liveService (handlePageText false text st) = Some svc
        /\ lastPageText (handlePageText false text st) = text
        /\ liveService (handlePageText true text st) = Some (mkTutor text))
  /\ (name <> "getPageText"%string ->
      answerToolCall svc0 [mkCall id name] = []).
Proof.
  intro st.
  assert (Hlast : lastPageText st = latestText EmptyString evs).
  { unfold st. now rewrite lastPageText_run. }
  assert (H0 : serviceWhileLive (initialShell envKey stored)).
  { split; [reflexivity | discriminate]. }
  assert (HI : serviceWhileLive st) by (unfold st; now apply session_run).
  destruct HI as (Hoff & Hon).
  split; [exact Hlast|]. split; [exact Hoff|]. split.
  - intro El. destruct (Hon El) as [svc Hsvc]. exists svc.
    split; [exact Hsvc|]. split.
    + intro Hfresh.
      assert (Ht : serviceHasLastText st).
      { unfold st. apply lastText_run; [exact H0 | discriminate | exact Hfresh]. }
      rewrite (Ht El) in Hsvc. injection Hsvc as <-.
      rewrite Hlast. reflexivity.
    + unfold handlePageText. cbn [liveService lastPageText].
      rewrite Hsvc. repeat split.
  - intro Hn. unfold answerToolCall. simpl.
    destruct (String.eqb_spec name "getPageText"); [contradiction|reflexivity].
Qed.

Lemma tool_answers_latest_page_text_witness :
  let st := fold_left (shellStep (fun s => s)) sampleSession
                      (initialShell (Some "AIzaSy-sample-key"%string) None) in
  live st = true
  /\ noStaleDelivery (fun s => s)
       (initialShell (Some "AIzaSy-sample-key"%string) None) sampleSession
     = true
  /\ liveService st = Some (mkTutor "page two")
  /\ exists svc,
       liveService st = Some svc
       /\ answerToolCall svc [mkCall "call-1" "getPageText"]
          = [mkResponse "call-1" "getPageText" "page two"].
Proof.
  split; [reflexivity|]. split; [reflexivity|]. split; [reflexivity|].
  destruct (proj1 (proj2 (proj2
              (tool_answers_latest_page_text (fun s => s)
                 (Some "AIzaSy-sample-key"%string) None sampleSession
                 "call-1" "getPageText" "page three" (mkTutor EmptyString))))
              eq_refl) as (svc & Hsvc & Hanswer & _).
  exists svc. split; [exact Hsvc|]. exact (Hanswer eq_refl).
Defined.

(** X19.  When a connection attempt fails with a message containing
    "401", the key is forgotten (in the state and in local storage), the
    error asks for a new key, and the next press of the start button only
    opens the key dialog: no connection is attempted and the shell stays
    offline.  A failure with any other message keeps the key. *)
Theorem rejected_key_is_forgotten (st : Shell) (m m' : string)
  (outcome : ConnectOutcome)
  (Hidle : live st = false)
  (Hkey : apiKey st <> EmptyString)
  (H401 : includes "401" m = true)
  (Hother : includes "401" m' = false) :
  let st' := toggleLiveSession (ConnectFailed (Some m)) st in
  apiKey st' = EmptyString
  /\ storedKey st' = None
  /\ error st' = Some "Invalid API Key. Please update it."%string
  /\ live st' = false
  /\ showKeyModal (toggleLiveSession outcome st') = true
  /\ live (toggleLiveSession outcome st') = false
  /\ liveService (toggleLiveSession outcome st') = liveService st
  /\ apiKey (toggleLiveSession (ConnectFailed (Some m')) st) = apiKey st
  /\ storedKey (toggleLiveSession (ConnectFailed (Some m')) st)
     = storedKey st
  /\ error (toggleLiveSession (ConnectFailed (Some m')) st)
     = Some "Connection failed. Please try again."%string.
Proof.
  intro st'.
  assert (Hne : isEmpty (apiKey st) = false).
  { destruct (apiKey st); [now elim Hkey | reflexivity]. }
  assert (Hm : isEmpty m = false).
  { destruct m; [discriminate H401 | reflexivity]. }
  assert (E : st' = mkShell (live st) false
                      (Some "Invalid API Key. Please update it."%string)
                      EmptyString (showKeyModal st) (tempKey st) None
                      (liveService st) (lastPageText st)
                      (aiTranscript st) (userTranscript st)).
  { unfold st', toggleLiveSession. rewrite Hidle, Hne, Hm, H401. reflexivity. }
  assert (E' : toggleLiveSession (ConnectFailed (Some m')) st
               = mkShell (live st) false
                   (Some "Connection failed. Please try again."%string)
                   (apiKey st) (showKeyModal st) (tempKey st) (storedKey st)
                   (liveService st) (lastPageText st)
                   (aiTranscript st) (userTranscript st)).
  { unfold toggleLiveSession. rewrite Hidle, Hne, Hother.
    now rewrite andb_false_r. }
  rewrite E, E'. unfold toggleLiveSession. simpl. rewrite Hidle. simpl.
  repeat split.
Qed.

Lemma rejected_key_is_forgotten_witness :
  live (initialShell (Some "AIzaSy-sample-key"%string) None) = false
  /\ apiKey (initialShell (Some "AIzaSy-sample-key"%string) None)
     <> EmptyString
  /\ includes "401" "got status: 401 Unauthorized" = true
  /\ includes "401" "network down" = false
  /\ apiKey (toggleLiveSession
               (ConnectFailed (Some "got status: 401 Unauthorized"%string))
               (initialShell (Some "AIzaSy-sample-key"%string) None))
     = EmptyString.
Proof.
  assert (Hk : apiKey (initialShell (Some "AIzaSy-sample-key"%string) None)
               <> EmptyString) by discriminate.
  split; [reflexivity|]. split; [exact Hk|].
  split; [reflexivity|]. split; [reflexivity|].
  exact (proj1 (rejected_key_is_forgotten
                  (initialShell (Some "AIzaSy-sample-key"%string) None)
                  "got status: 401 Unauthorized" "network down" Connected
                  eq_refl Hk eq_refl eq_refl)).
Defined.

(** * The textbook store *)

Lemma keysIssued_empty : keysIssued emptyDatabase.
Proof. repeat split; try constructor; simpl; lia. Qed.

Lemma filter_sorted {A : Type} (R : A -> A -> Prop) (p : A -> bool)
  (l : list A) :
  StronglySorted R l -> StronglySorted R (filter p l).
Proof.
  induction 1 as [|a l Hs IH Hall]; simpl; [constructor|].
  destruct (p a); [|exact IH].
  constructor; [exact IH|].
  apply Forall_forall. intros b Hb. apply filter_In in Hb.
  rewrite Forall_forall in Hall. now apply Hall.
Qed.

Lemma map_filter_key (id : Z) (l : list Textbook) :
  map book_id (filter (fun t => negb (Z.eqb (book_id t) id)) l)
  = filter (fun k => negb (Z.eqb k id)) (map book_id l).
Proof.
  induction l as [|t l IH]; simpl; [reflexivity|].
  destruct (Z.eqb (book_id t) id); simpl; now rewrite IH.
Qed.

Lemma keysIssued_step (db : Database) (op : StoreOp) :
  keysIssued db -> keysIssued (storeStep db op).
Proof.
  intros (H1 & Hall & Hs).
  destruct op as [c s f now | id]; unfold keysIssued; simpl.
  - split; [lia|]. split.
    + apply Forall_app. split.
      * eapply Forall_impl; [|exact Hall]. simpl. intros t Ht. lia.
      * constructor; [simpl; lia | constructor].
    + rewrite map_app. simpl. apply StronglySorted_snoc; [exact Hs|].
      apply Forall_forall. intros k Hk. apply in_map_iff in Hk.
      destruct Hk as (t & <- & Ht).
      rewrite Forall_forall in Hall. apply Hall in Ht. lia.
  - split; [exact H1|]. split.
    + apply Forall_forall. intros t Ht.
      apply filter_In in Ht. destruct Ht as [Ht _].
      rewrite Forall_forall in Hall. now apply Hall.
    + rewrite map_filter_key. now apply filter_sorted.
Qed.

Lemma keysIssued_run (ops : list StoreOp) (db : Database) :
  keysIssued db -> keysIssued (runStore db ops).
Proof.
  revert db. induction ops as [|op ops IH]; intros db H; [exact H|].
  simpl. apply IH. now apply keysIssued_step.
Qed.

Lemma keyGenerator_run (ops : list StoreOp) (db : Database) :
  keyGenerator (runStore db ops) = (keyGenerator db + uploads ops)%Z.
Proof.
  unfold uploads. revert db.
  induction ops as [|op ops IH]; intro db; [simpl; lia|].
  change (runStore db (op :: ops)) with (runStore (storeStep db op) ops).
  rewrite IH. destruct op; simpl; lia.
Qed.

Lemma StronglySorted_lt_NoDup (l : list Z) :
  StronglySorted Z.lt l -> NoDup l.
Proof.
  induction 1 as [|a l Hs IH Hall]; constructor; [|exact IH].
  intro Hin. rewrite Forall_forall in Hall. apply Hall in Hin. lia.
Qed.

(** X20.  The store's keys: after any sequence of uploads and deletions on
    a new store, the next key is one more than the number of uploads so far
    (deleting never gives a key back), every stored book's id is a key that
    was given out, the books lie in ascending id order, and no two books
    share an id. *)
Theorem store_keys_are_never_reused (ops : list StoreOp) :
  let db := runStore emptyDatabase ops in
  keyGenerator db = (1 + uploads ops)%Z
  /\ Forall (fun t => (1 <= book_id t <= uploads ops)%Z) (textbooks db)
  /\ StronglySorted Z.lt (map book_id (getAllTextbooks db))
  /\ NoDup (map book_id (getAllTextbooks db)).
Proof.
  intro db.
  pose proof (keysIssued_run ops emptyDatabase keysIssued_empty)
    as (H1 & Hall & Hs).
  pose proof (keyGenerator_run ops emptyDatabase) as Hk.
  change (keyGenerator emptyDatabase) with 1%Z in Hk.
  fold db in H1, Hall, Hs, Hk.
  split; [exact Hk|]. split.
  - eapply Forall_impl; [|exact Hall]. simpl. intros t Ht. lia.
  - split; [exact Hs|]. now apply StronglySorted_lt_NoDup.
Qed.

Lemma filter_none {A : Type} (p : A -> bool) (l : list A) :
  Forall (fun x => p x = true) l -> filter p l = l.
Proof.
  induction 1 as [|a l Ha _ IH]; simpl; [reflexivity|].
  now rewrite Ha, IH.
Qed.

(** X21.  Undoing an upload: in a store whose keys were all given out by
    its generator, a book that is uploaded gets the generator's number as
    id, and deleting that id afterwards leaves exactly the books that were
    there before, in the same order, while the generator has moved on, so
    the next upload gets a new id. *)
Theorem upload_then_delete_restores_books (db : Database)
  (className subject : string) (file : FileBlob) (now : Z)
  (H : keysIssued db) :
  let db' := uploadTextbook className subject file now db in
  let db'' := deleteTextbook (keyGenerator db) db' in
  In (mkTextbook (keyGenerator db) className subject file now)
     (getAllTextbooks db')
  /\ getAllTextbooks db'' = getAllTextbooks db
  /\ keyGenerator db'' = (keyGenerator db + 1)%Z
  /\ keysIssued db''.
Proof.
  intros db' db''. destruct H as (H1 & Hall & Hs).
  split; [apply in_or_app; right; now left|].
  split; [|split; [reflexivity|]].
  - unfold db'', db', getAllTextbooks, deleteTextbook, uploadTextbook. simpl.
    rewrite filter_app. simpl. rewrite Z.eqb_refl. simpl.
    rewrite app_nil_r. apply filter_none.
    eapply Forall_impl; [|exact Hall]. simpl. intros t Ht.
    apply negb_true_iff, Z.eqb_neq. lia.
  - apply (keysIssued_step _ (Delete (keyGenerator db))).
    now apply (keysIssued_step db (Upload className subject file now)).
Qed.

Lemma upload_then_delete_restores_books_witness :
  keysIssued (runStore emptyDatabase sampleOps)
  /\ getAllTextbooks
       (deleteTextbook (keyGenerator (runStore emptyDatabase sampleOps))
          (uploadTextbook "7" "English" samplePdf 4000
             (runStore emptyDatabase sampleOps)))
     = getAllTextbooks (runStore emptyDatabase sampleOps).
Proof.
  assert (H : keysIssued (runStore emptyDatabase sampleOps)).
  { unfold keysIssued. simpl. split; [lia|]. split.
    - repeat constructor; simpl; lia.
    - repeat constructor. }
  split; [exact H|].
  exact (proj1 (proj2 (upload_then_delete_restores_books
                         (runStore emptyDatabase sampleOps)
                         "7" "English" samplePdf 4000 H))).
Defined.

Lemma isEmpty_false (s : string) : isEmpty s = false <-> s <> EmptyString.
Proof.
  destruct s; simpl; split; intro H; try reflexivity; try discriminate.
  now elim H.
Qed.

Lemma sortBy_In {A : Type} (cmp : A -> A -> Q) (l : list A) (x : A) :
  In x (sortBy cmp l) <-> In x l.
Proof.
  induction l as [|a l IH]; simpl; [tauto|].
  assert (Hins : forall y l', In x (insertBy cmp y l') <-> y = x \/ In x l').
  { intros y l'. induction l' as [|b l' IHl']; simpl; [tauto|].
    destruct (Qle_bool (cmp y b) 0) eqn:E; simpl; [tauto|].
    rewrite IHl'. tauto. }
  change (sortBy cmp (a :: l)) with (insertBy cmp a (sortBy cmp l)).
  rewrite Hins, IH. tauto.
Qed.

(** * The admin panel and the class library *)

Lemma getTextbooksByClass_upload (c c' s : string) (f : FileBlob) (now : Z)
  (db : Database) :
  getTextbooksByClass c (uploadTextbook c' s f now db)
  = getTextbooksByClass c db
    ++ (if String.eqb c' c
        then [mkTextbook (keyGenerator db) c' s f now] else []).
Proof.
  unfold getTextbooksByClass, uploadTextbook. simpl.
  rewrite filter_app. simpl. now destruct (String.eqb c' c).
Qed.

(** X22.  From the admin panel to the class library: when the form holds a
    file and a subject and the store accepts the book, the library of the
    selected class gains exactly that book at its end, the library of every
    other class is unchanged, clicking the book opens the very file that
    was uploaded, and the form is reset so that submitting it again stores
    nothing.  The book is in the panel's inventory when the reload that
    follows succeeds; when that read fails the inventory stays as it was,
    although the book is stored. *)
Theorem upload_reaches_class_library (db : Database) (panel : AdminPanel)
  (f : FileBlob) (name : string) (now : Z) (loaded : bool)
  (Hfile : fileInput panel = Some f)
  (Hname : file_name f = Some name)
  (Hsubject : subjectInput panel <> EmptyString) :
  let s' := handleUpload now true loaded (db, panel) in
  let book := mkTextbook (keyGenerator db) (selectedClass panel)
                         (subjectInput panel) f now in
  getTextbooksByClass (selectedClass panel) (fst s')
  = getTextbooksByClass (selectedClass panel) db ++ [book]
  /\ (forall c, c <> selectedClass panel ->
        getTextbooksByClass c (fst s') = getTextbooksByClass c db)
  /\ handleBookClick book = f
  /\ (loaded = true -> In book (books (snd s')))
  /\ (loaded = false -> books (snd s') = books panel)
  /\ subjectInput (snd s') = EmptyString
  /\ fileInput (snd s') = None
  /\ (forall now' stored loaded',
        handleUpload now' stored loaded' s' = s').
Proof.
  intros s' book.
  assert (E : s' = (uploadTextbook (selectedClass panel) (subjectInput panel)
                      f now db,
                    loadBooks loaded
                      (uploadTextbook (selectedClass panel)
                         (subjectInput panel) f now db)
                      (mkAdmin (selectedClass panel) EmptyString None false
                         (books panel) "Book uploaded!"))).
  { unfold s', handleUpload. rewrite Hfile.
    apply isEmpty_false in Hsubject. now rewrite Hsubject. }
  rewrite E. cbn [fst snd].
  split.
  { rewrite getTextbooksByClass_upload. now rewrite String.eqb_refl. }
  split.
  { intros c Hc. rewrite getTextbooksByClass_upload.
    destruct (String.eqb (selectedClass panel) c) eqn:Ec.
    - apply String.eqb_eq in Ec. now elim Hc.
    - apply app_nil_r. }
  split.
  { unfold handleBookClick, book. cbn [file]. now rewrite Hname. }
  split.
  { intros ->. unfold loadBooks. cbn [books]. apply sortBy_In.
    unfold getAllTextbooks, uploadTextbook. cbn [textbooks].
    apply in_or_app. right. now left. }
  split; [now intros ->|].
  destruct loaded; repeat split.
Qed.

Lemma upload_reaches_class_library_witness :
  getTextbooksByClass "5"
    (fst (handleUpload 1000 true true
            (emptyDatabase,
             mkAdmin "5" "Math" (Some samplePdf) false [] EmptyString)))
  = [mkTextbook 1 "5" "Math" samplePdf 1000].
Proof.
  exact (proj1 (upload_reaches_class_library emptyDatabase
                  (mkAdmin "5" "Math" (Some samplePdf) false [] EmptyString)
                  samplePdf "math.pdf" 1000 true eq_refl eq_refl
                  ltac:(discriminate))).
Defined.

Lemma sortBy_newest_first (l : list Textbook) :
  StronglySorted newerFirst
    (sortBy (fun a b => inject_Z (uploadedAt b) - inject_Z (uploadedAt a)) l).
Proof.
  apply sortBy_rel_sorted; unfold newerFirst.
  - intros x y. rewrite Qminus_le_0, <- Zle_Qle. reflexivity.
  - intros x y. lia.
  - intros x y z. lia.
Qed.

(** What a step does to the inventory: it leaves the inventory and the
    store as they were, or it leaves the inventory as it was and changes
    the store with a failed reload, or the inventory becomes the sorted
    store. *)
Lemma adminStep_books (s : Database * AdminPanel) (ev : AdminEvent) :
  (books (snd (adminStep s ev)) = books (snd s)
   /\ (fst (adminStep s ev) = fst s \/ readsSucceed [ev] = false))
  \/ books (snd (adminStep s ev))
     = sortBy (fun a b => inject_Z (uploadedAt b) - inject_Z (uploadedAt a))
              (getAllTextbooks (fst (adminStep s ev))).
Proof.
  destruct s as [db panel].
  destruct ev as [c | t | [f|] | now stored loaded
                 | id confirmed deleted loaded];
    cbn [adminStep fst snd]; try (left; split; [reflexivity | now left]).
  - unfold handleUpload.
    destruct (fileInput panel) as [f|];
      [|left; split; [reflexivity | now left]].
    destruct (isEmpty (subjectInput panel));
      [left; split; [reflexivity | now left]|].
    destruct stored; [|left; split; [reflexivity | now left]].
    destruct loaded; [right; reflexivity|].
    left. split; [reflexivity | now right].
  - unfold handleDelete.
    destruct confirmed; [|left; split; [reflexivity | now left]].
    destruct deleted; [|left; split; [reflexivity | now left]].
    destruct loaded; [right; reflexivity|].
    left. split; [reflexivity | now right].
Qed.

Lemma adminRun_snoc (loaded : bool) (db : Database) (evs : list AdminEvent)
  (ev : AdminEvent) :
  adminRun loaded db (evs ++ [ev]) = adminStep (adminRun loaded db evs) ev.
Proof. unfold adminRun. now rewrite fold_left_app. Qed.

Lemma readsSucceed_snoc (evs : list AdminEvent) (ev : AdminEvent) :
  readsSucceed (evs ++ [ev]) = readsSucceed evs && readsSucceed [ev].
Proof. unfold readsSucceed. now rewrite forallb_app. Qed.

(** X23.  The panel's inventory and the store.  Once the panel is mounted,
    after any sequence of class selections, subject and file inputs,
    submitted uploads and delete clicks (confirmed or not, stored or
    failed, with reloads that succeed or fail), the inventory is ordered
    newest upload first and is either empty or holds exactly the books the
    store held at an earlier moment: at mount, or right after one of the
    events.  When every read of the store succeeded, the inventory holds
    exactly the books of the store as it is now, each as often as the
    store holds it. *)
Theorem inventory_follows_store (db : Database) (loaded : bool)
  (evs : list AdminEvent) :
  let s := adminRun loaded db evs in
  StronglySorted newerFirst (books (snd s))
  /\ (books (snd s) = []
      \/ exists before after,
           evs = before ++ after
           /\ Permutation (books (snd s))
                (getAllTextbooks (fst (adminRun loaded db before))))
  /\ (loaded = true -> readsSucceed evs = true ->
      Permutation (books (snd s)) (getAllTextbooks (fst s))).
Proof.
  induction evs as [|ev evs IH] using rev_ind.
  - cbn zeta. unfold adminRun, mountAdmin. cbn [fold_left fst snd].
    destruct loaded; cbn [loadBooks books].
    + split; [apply sortBy_newest_first|]. split.
      * right. exists [], []. split; [reflexivity|]. apply sortBy_perm.
      * intros _ _. apply sortBy_perm.
    + split; [constructor|]. split; [now left | discriminate].
  - cbn zeta in *. destruct IH as (Hsorted & Hsome & Hall).
    rewrite adminRun_snoc.
    destruct (adminStep_books (adminRun loaded db evs) ev)
      as [[Hsame Hstore] | Hnew].
    + rewrite Hsame. split; [exact Hsorted|]. split.
      * destruct Hsome as [Hnil | (before & after & -> & Hperm)];
          [now left|].
        right. exists before, (after ++ [ev]).
        split; [now rewrite app_assoc | exact Hperm].
      * intros Hl Hreads. rewrite readsSucceed_snoc in Hreads.
        apply andb_true_iff in Hreads. destruct Hreads as [Hr Hev].
        destruct Hstore as [-> | Hfail]; [now apply Hall|].
        rewrite Hfail in Hev. discriminate Hev.
    + rewrite Hnew. split; [apply sortBy_newest_first|]. split.
      * right. exists (evs ++ [ev]), []. split; [now rewrite app_nil_r|].
        rewrite adminRun_snoc. apply sortBy_perm.
      * intros _ _. apply sortBy_perm.
Qed.

Lemma inventory_follows_store_witness :
  readsSucceed sampleAdminEvents = true
  /\ books (snd (adminRun true emptyDatabase sampleAdminEvents))
     = [mkTextbook 2 "5" "Science" samplePdf 2000]
  /\ Permutation
       (books (snd (adminRun true emptyDatabase sampleAdminEvents)))
       (getAllTextbooks
          (fst (adminRun true emptyDatabase sampleAdminEvents))).
Proof.
  split; [reflexivity|]. split; [reflexivity|].
  exact (proj2 (proj2 (inventory_follows_store emptyDatabase true
                         sampleAdminEvents))
           eq_refl eq_refl).
Defined.
